(** * PortScanner: the scanning engine [scan_ips]

    A shallow embedding of [scan_ips] as it is written in
    [PortScanner.py] (English messages) and in its Spanish copy, and the
    properties of the engine: delivery of the result, cancellation, order of
    discovery, probe count, socket discipline, the verbose switch and the
    equivalence of the two copies.

    The engine is sequential Python: a [try] block with two nested loops,
    three early [return]s and one catch-all handler.  It is modelled in a
    small monad that threads the trace of the calls the engine makes to
    its collaborators (the stop event, the two callbacks, the socket
    library) and carries Python's three ways of leaving a statement. *)

From Stdlib Require Import ZArith List String Ascii Bool Lia DecimalString Sorted.
From Equations Require Import Equations.
Import ListNotations.

Local Open Scope string_scope.
Local Open Scope list_scope.
Local Open Scope Z_scope.

(** ** Exceptions, events, traces *)

(** A Python exception derived from [Exception] (the only ones the handler
    of [scan_ips] catches), identified by the text that [f"{e}"] prints. *)
Record exn : Type := Exception { exn_text : string }.

(** The calls [scan_ips] makes to the outside, in the order it makes them.
    A call is recorded when it is made, whether it returns or raises. *)
Inductive event : Type :=
| IsSet (b : bool)                     (* stop_event.is_set() returned b *)
| AddrText (n : Z)                     (* str(ipaddress.ip_address(n)) *)
| Socket                               (* socket.socket(...) returned a socket *)
| SocketError (e : exn)                (* socket.socket(...) raised e *)
| SetTimeout                           (* sock.settimeout(0.005) *)
| ConnectEx (ip : string) (port : Z) (r : exn + Z)
                                       (* sock.connect_ex((ip, port)): code or raise *)
| Close                                (* sock.close() *)
| Log (line : string)                  (* log_callback(line) *)
| Done (results : list (string * Z)).  (* result_callback(results) *)

Definition world : Type := list event.

(** ** What the engine is given *)

(** The two library modules the engine calls.  [ip_address s] is
    [int(ipaddress.ip_address(s))] or the [ValueError] it raises;
    [ip_text n] is [str(ipaddress.ip_address(n))]; [socket_new k] tells
    whether the [k]-th [socket.socket(...)] of the run raises;
    [connect_ex ip port] is the code [sock.connect_ex((ip, port))] returns,
    or the exception it raises. *)
Record platform : Type := {
  ip_address : string -> exn + Z;
  ip_text : Z -> string;
  socket_new : nat -> option exn;
  connect_ex : string -> Z -> exn + Z
}.

(** [threading.Event] as the engine sees it: the answer of the [k]-th call
    of [is_set()] in the run (another thread may set it at any time). *)
Definition stop_flag : Type := nat -> bool.

(** A callback: given what happened so far and its argument, it returns
    ([None]) or raises. *)
Definition callback (A : Type) : Type := world -> A -> option exn.

Definition results : Type := list (string * Z).

(** ** Control flow *)

(** The [return] statement [scan_ips] leaves by.  Python returns [None] on
    each of them; the tag is kept to tell the paths apart in statements. *)
Inductive path : Type :=
| UsageError            (* start address above end address *)
| Cancelled             (* the stop event was found set *)
| Completed             (* both loops ran to their end *)
| Faulted (e : exn).    (* the handler caught e *)

Inductive control (A : Type) : Type :=
| Normal (a : A)        (* the statement finished *)
| Return (p : path)     (* a return statement was executed *)
| Raise (e : exn).      (* an exception propagates *)
Arguments Normal {A} a.
Arguments Return {A} p.
Arguments Raise {A} e.

Definition M (A : Type) : Type := world -> control A * world.

Definition ret {A} (a : A) : M A := fun w => (Normal a, w).

Definition bind {A B} (m : M A) (k : A -> M B) : M B :=
  fun w =>
    match m w with
    | (Normal a, w') => k a w'
    | (Return p, w') => (Return p, w')
    | (Raise e, w') => (Raise e, w')
    end.

Declare Scope py_scope.
Delimit Scope py_scope with py.
Notation "x <- m ;; k" := (bind m (fun x => k))
  (at level 61, m at next level, right associativity) : py_scope.
Notation "m ;; k" := (bind m (fun _ => k))
  (at level 61, right associativity) : py_scope.
Local Open Scope py_scope.

Definition return_ {A} (p : path) : M A := fun w => (Return p, w).

Definition raise {A} (e : exn) : M A := fun w => (Raise e, w).

Definition emit (ev : event) : M unit := fun w => (Normal tt, w ++ [ev]).

(** [try: body / except Exception as e: handler e].  Every [exn] is an
    [Exception], so the handler gets whatever the body raises; what
    [except Exception] lets pass ([KeyboardInterrupt], [SystemExit]) is
    not an [exn]. *)
Definition try_except {A} (body : M A) (handler : exn -> M A) : M A :=
  fun w =>
    match body w with
    | (Raise e, w') => handler e w'
    | r => r
    end.

(** The end of a [def]: a [return] inside the body ends the call. *)
Definition def (body : M path) : M path :=
  fun w =>
    match body w with
    | (Return p, w') => (Normal p, w')
    | r => r
    end.

(** A call of a library function that returns a value or raises. *)
Definition lift {A} (r : exn + A) : M A :=
  match r with
  | inl e => raise e
  | inr a => ret a
  end.

(** Counters read off the trace: the stop flag and the socket library are
    asked in the order of the calls. *)
Definition is_check (ev : event) : bool :=
  match ev with IsSet _ => true | _ => false end.

Definition is_socket_call (ev : event) : bool :=
  match ev with Socket | SocketError _ => true | _ => false end.

Definition checks (w : world) : nat := List.length (filter is_check w).
Definition socket_calls (w : world) : nat := List.length (filter is_socket_call w).

(** ** The calls *)

Section Calls.
Variable net : platform.
Variable stop_event : stop_flag.
Variable log_callback : option (callback string).
Variable result_callback : option (callback results).

(** [stop_event.is_set()] *)
Definition stop_event_is_set : M bool :=
  fun w => let b := stop_event (checks w) in (Normal b, w ++ [IsSet b]).

(** [if log_callback: log_callback(line)] *)
Definition log_if_callback (line : string) : M unit :=
  match log_callback with
  | Some cb =>
      fun w =>
        match cb w line with
        | None => (Normal tt, w ++ [Log line])
        | Some e => (Raise e, w ++ [Log line])
        end
  | None => ret tt
  end.

(** [if result_callback: result_callback(rs)] *)
Definition result_if_callback (rs : results) : M unit :=
  match result_callback with
  | Some cb =>
      fun w =>
        match cb w rs with
        | None => (Normal tt, w ++ [Done rs])
        | Some e => (Raise e, w ++ [Done rs])
        end
  | None => ret tt
  end.

(** [socket.socket(socket.AF_INET, socket.SOCK_STREAM)] *)
Definition socket_socket : M unit :=
  fun w =>
    match socket_new net (socket_calls w) with
    | None => (Normal tt, w ++ [Socket])
    | Some e => (Raise e, w ++ [SocketError e])
    end.

(** [sock.settimeout(0.005)] *)
Definition sock_settimeout : M unit := emit SetTimeout.

(** [sock.connect_ex((ip, port))] *)
Definition sock_connect_ex (ip : string) (port : Z) : M Z :=
  fun w =>
    let r := connect_ex net ip port in
    match r with
    | inr code => (Normal code, w ++ [ConnectEx ip port r])
    | inl e => (Raise e, w ++ [ConnectEx ip port r])
    end.

(** [sock.close()] *)
Definition sock_close : M unit := emit Close.

(** [str(ipaddress.ip_address(n))] *)
Definition ip_address_str (n : Z) : M string :=
  fun w => (Normal (ip_text net n), w ++ [AddrText n]).
End Calls.

(** Python's [range(lo, hi)] and [str] of an int. *)
Definition range (lo hi : Z) : list Z :=
  map (fun i => lo + Z.of_nat i) (seq 0 (Z.to_nat (hi - lo))).

Definition str_int (n : Z) : string := NilZero.string_of_int (Z.to_int n).

(** ** The engine, English copy ([PortScanner.py]) *)

Module English.
Section Engine.
Variable net : platform.
Variable verbose : bool.
Variable stop_event : stop_flag.
Variable log_callback : option (callback string).
Variable result_callback : option (callback results).

Let is_set := stop_event_is_set stop_event.
Let log := log_if_callback log_callback.
Let result := result_if_callback result_callback.

Definition msg_order : string :=
  "Error: Start IP cannot be greater than end IP.".
Definition msg_stopped : string := "⏹️ Scan stopped by user.".
Definition msg_open (ip : string) (port : Z) : string :=
  ("✓ OPEN port → IP: " ++ ip ++ ", Port: " ++ str_int port)%string.
Definition msg_closed (ip : string) (port : Z) : string :=
  ("  CLOSED port → IP: " ++ ip ++ ", Port: " ++ str_int port)%string.
Definition msg_fault (e : exn) : string :=
  ("❌ Error during scan: " ++ exn_text e)%string.

(** [for port in range(start_port, end_port + 1): ...] over the ports
    that remain. *)
Fixpoint for_port (ip_address : string) (ports : list Z)
    (open_ports : results) : M results :=
  match ports with
  | [] => ret open_ports
  | port :: ports' =>
      stopped <- is_set ;;
      if stopped : bool then
        log msg_stopped ;;
        result open_ports ;;
        return_ Cancelled
      else
        socket_socket net ;;
        sock_settimeout ;;
        code <- sock_connect_ex net ip_address port ;;
        open_ports' <-
          (if code =? 0 then
             let appended := open_ports ++ [(ip_address, port)] in
             log (msg_open ip_address port) ;;
             ret appended
           else
             match verbose, log_callback with
             | true, Some _ => log (msg_closed ip_address port)
             | _, _ => ret tt
             end ;;
             ret open_ports) ;;
        sock_close ;;
        for_port ip_address ports' open_ports'
  end.

(** One turn of [while current_ip_int <= int(end): ...]. *)
Definition while_body (start_port end_port : Z) (current_ip_int : Z)
    (open_ports : results) : M results :=
  stopped <- is_set ;;
  if stopped : bool then
    log msg_stopped ;;
    result open_ports ;;
    return_ Cancelled
  else
    ip <- ip_address_str net current_ip_int ;;
    for_port ip (range start_port (end_port + 1)) open_ports.

Equations? while_ip (start_port end_port : Z) (end_ : Z)
    (current_ip_int : Z) (open_ports : results) (w : world)
    : control results * world
    by wf (Z.to_nat (end_ + 1 - current_ip_int)) lt :=
  while_ip start_port end_port end_ current_ip_int open_ports w
    with Z_le_gt_dec current_ip_int end_ => {
    | left _ =>
        match while_body start_port end_port current_ip_int open_ports w with
        | (Normal open_ports', w') =>
            while_ip start_port end_port end_ (current_ip_int + 1)
              open_ports' w'
        | r => r
        end
    | right _ => (Normal open_ports, w) }.
Proof. lia. Qed.
End Engine.

(** [def scan_ips(start_ip, end_ip, start_port, end_port, verbose,
    stop_event, log_callback=None, result_callback=None)] *)
Definition scan_ips (net : platform) (start_ip end_ip : string)
    (start_port end_port : Z) (verbose : bool) (stop_event : stop_flag)
    (log_callback : option (callback string))
    (result_callback : option (callback results)) : M path :=
  let log := log_if_callback log_callback in
  let result := result_if_callback result_callback in
  def (try_except
    (start <- lift (ip_address net start_ip) ;;
     end_ <- lift (ip_address net end_ip) ;;
     if start >? end_ then
       log msg_order ;;
       result [] ;;
       return_ UsageError
     else
       open_ports <-
         while_ip net verbose stop_event log_callback result_callback
           start_port end_port end_ start [] ;;
       result open_ports ;;
       ret Completed)
    (fun e =>
       log (msg_fault e) ;;
       result [] ;;
       ret (Faulted e))).
End English.

(** ** The engine, Spanish copy *)

Module Spanish.
Section Engine.
Variable net : platform.
Variable verbose : bool.
Variable stop_event : stop_flag.
Variable log_callback : option (callback string).
Variable result_callback : option (callback results).

Let is_set := stop_event_is_set stop_event.
Let log := log_if_callback log_callback.
Let result := result_if_callback result_callback.

Definition msg_order : string :=
  "Error: La IP inicial no puede ser mayor que la final.".
Definition msg_stopped : string := "⏹️ Escaneo detenido por el usuario.".
Definition msg_open (ip : string) (port : Z) : string :=
  ("✓ Puerto ABIERTO → IP: " ++ ip ++ ", Puerto: " ++ str_int port)%string.
Definition msg_closed (ip : string) (port : Z) : string :=
  ("  Puerto CERRADO → IP: " ++ ip ++ ", Puerto: " ++ str_int port)%string.
Definition msg_fault (e : exn) : string :=
  ("❌ Error durante el escaneo: " ++ exn_text e)%string.

(** [for port in range(start_port, end_port + 1): ...] over the ports
    that remain. *)
Fixpoint for_port (ip_address : string) (ports : list Z)
    (open_ports : results) : M results :=
  match ports with
  | [] => ret open_ports
  | port :: ports' =>
      stopped <- is_set ;;
      if stopped : bool then
        log msg_stopped ;;
        result open_ports ;;
        return_ Cancelled
      else
        socket_socket net ;;
        sock_settimeout ;;
        code <- sock_connect_ex net ip_address port ;;
        open_ports' <-
          (if code =? 0 then
             let appended := open_ports ++ [(ip_address, port)] in
             log (msg_open ip_address port) ;;
             ret appended
           else
             match verbose, log_callback with
             | true, Some _ => log (msg_closed ip_address port)
             | _, _ => ret tt
             end ;;
             ret open_ports) ;;
        sock_close ;;
        for_port ip_address ports' open_ports'
  end.

(** One turn of [while current_ip_int <= int(end): ...]. *)
Definition while_body (start_port end_port : Z) (current_ip_int : Z)
    (open_ports : results) : M results :=
  stopped <- is_set ;;
  if stopped : bool then
    log msg_stopped ;;
    result open_ports ;;
    return_ Cancelled
  else
    ip <- ip_address_str net current_ip_int ;;
    for_port ip (range start_port (end_port + 1)) open_ports.

Equations? while_ip (start_port end_port : Z) (end_ : Z)
    (current_ip_int : Z) (open_ports : results) (w : world)
    : control results * world
    by wf (Z.to_nat (end_ + 1 - current_ip_int)) lt :=
  while_ip start_port end_port end_ current_ip_int open_ports w
    with Z_le_gt_dec current_ip_int end_ => {
    | left _ =>
        match while_body start_port end_port current_ip_int open_ports w with
        | (Normal open_ports', w') =>
            while_ip start_port end_port end_ (current_ip_int + 1)
              open_ports' w'
        | r => r
        end
    | right _ => (Normal open_ports, w) }.
Proof. lia. Qed.
End Engine.

(** [def scan_ips(start_ip, end_ip, start_port, end_port, verbose,
    stop_event, log_callback=None, result_callback=None)] *)
Definition scan_ips (net : platform) (start_ip end_ip : string)
    (start_port end_port : Z) (verbose : bool) (stop_event : stop_flag)
    (log_callback : option (callback string))
    (result_callback : option (callback results)) : M path :=
  let log := log_if_callback log_callback in
  let result := result_if_callback result_callback in
  def (try_except
    (start <- lift (ip_address net start_ip) ;;
     end_ <- lift (ip_address net end_ip) ;;
     if start >? end_ then
       log msg_order ;;
       result [] ;;
       return_ UsageError
     else
       open_ports <-
         while_ip net verbose stop_event log_callback result_callback
           start_port end_port end_ start [] ;;
       result open_ports ;;
       ret Completed)
    (fun e =>
       log (msg_fault e) ;;
       result [] ;;
       ret (Faulted e))).
End Spanish.

(** ** A concrete platform: IPv4 in dotted-decimal text

    The instance of the library used to run the engine on concrete
    inputs.  It reads and prints IPv4 dotted-decimal text the way
    [ipaddress] does (four decimal octets, one to three digits each, no
    leading zero, at most 255); any other text is refused with
    [ValueError] - IPv6 text too, which [ipaddress] would read: the
    instance is for runs on IPv4 text.  Which ports answer is given by
    a table. *)

Module IPv4.
Definition digit (c : ascii) : option Z :=
  let n := Z.of_N (N_of_ascii c) in
  if (48 <=? n) && (n <=? 57) then Some (n - 48) else None.

Fixpoint decimal (s : string) (acc : Z) : option Z :=
  match s with
  | EmptyString => Some acc
  | String c s' =>
      match digit c with
      | Some d => decimal s' (10 * acc + d)
      | None => None
      end
  end.

Definition octet (s : string) : option Z :=
  match s with
  | EmptyString => None
  | String "0" (String _ _) => None
  | _ =>
      if (String.length s <=? 3)%nat then
        match decimal s 0 with
        | Some v => if v <=? 255 then Some v else None
        | None => None
        end
      else None
  end.

(** [s.split('.')], the current field accumulated in [field]. *)
Fixpoint split_dots (s field : string) : list string :=
  match s with
  | EmptyString => [field]
  | String "." s' => field :: split_dots s' EmptyString
  | String c s' => split_dots s' (field ++ String c EmptyString)%string
  end.

Definition parse (s : string) : exn + Z :=
  match map octet (split_dots s EmptyString) with
  | [Some a; Some b; Some c; Some d] =>
      inr (((a * 256 + b) * 256 + c) * 256 + d)
  | _ =>
      inl (Exception
             ("'" ++ s ++ "' does not appear to be an IPv4 or IPv6 address"))
  end.

Definition dotted (n : Z) : string :=
  (str_int (n / 16777216 mod 256) ++ "." ++ str_int (n / 65536 mod 256)
   ++ "." ++ str_int (n / 256 mod 256) ++ "." ++ str_int (n mod 256))%string.

(** [sock.connect_ex] refuses a port outside 0..65535 with
    [OverflowError] before it touches the network. *)
Definition port_overflow : exn :=
  Exception "connect_ex(): port must be 0-65535.".

(** [socket.socket] when the process has no file descriptor left. *)
Definition too_many_files : exn :=
  Exception "[Errno 24] Too many open files".

(** A network on which [answers] gives the code of each connection
    attempt and socket creation fails from the [limit]-th socket on
    (never, with [limit = None]). *)
Definition network (limit : option nat) (answers : string -> Z -> Z)
    : platform :=
  {| ip_address := parse;
     ip_text := dotted;
     socket_new := fun k =>
       match limit with
       | Some l => if (l <=? k)%nat then Some too_many_files else None
       | None => None
       end;
     connect_ex := fun ip port =>
       if (0 <=? port) && (port <=? 65535) then inr (answers ip port)
       else inl port_overflow |}.

(** ECONNREFUSED on Linux. *)
Definition refused : Z := 111.

Definition all_open : string -> Z -> Z := fun _ _ => 0.
Definition all_closed : string -> Z -> Z := fun _ _ => refused.

(** Only port 80 answers. *)
Definition web_only : string -> Z -> Z :=
  fun _ port => if port =? 80 then 0 else refused.
End IPv4.

(** Callbacks that always return, and a stop event that is never set. *)
Definition accepting {A} : callback A := fun _ _ => None.
Definition never_set : stop_flag := fun _ => false.

Definition run {A} (m : M A) : control A * world := m [].


(** ** Reading a trace *)

(** The lists handed to [result_callback], in order. *)
Definition dones (w : world) : list results :=
  flat_map (fun ev => match ev with Done rs => [rs] | _ => [] end) w.

(** The lines handed to [log_callback], in order. *)
Definition log_lines (w : world) : list string :=
  flat_map (fun ev => match ev with Log line => [line] | _ => [] end) w.

(** The pairs a connection was attempted to, in order. *)
Definition probes (w : world) : list (string * Z) :=
  flat_map
    (fun ev => match ev with ConnectEx ip port _ => [(ip, port)] | _ => [] end)
    w.

(** The pairs whose [connect_ex] returned 0 (Open), in order. *)
Definition opened (w : world) : results :=
  flat_map
    (fun ev =>
       match ev with
       | ConnectEx ip port (inr code) =>
           if code =? 0 then [(ip, port)] else []
       | _ => []
       end)
    w.

(** The pairs whose [connect_ex] returned a code other than 0 (Closed). *)
Definition closed (w : world) : list (string * Z) :=
  flat_map
    (fun ev =>
       match ev with
       | ConnectEx ip port (inr code) =>
           if code =? 0 then [] else [(ip, port)]
       | _ => []
       end)
    w.

(** Sockets created and not yet closed at the end of [w]. *)
Definition sockets_open (w : world) : Z :=
  fold_left
    (fun k ev =>
       match ev with
       | Socket => k + 1
       | Close => k - 1
       | _ => k
       end)
    w 0.




(** A callback that never raises (an absent one is never called). *)
Definition returns {A} (cb : option (callback A)) : Prop :=
  forall f, cb = Some f -> forall w a, f w a = None.

(** The same callbacks, made to return: what a run sees of its callbacks
    as long as none of them raises. *)
Definition settle {A} (cb : option (callback A)) : option (callback A) :=
  match cb with
  | Some _ => Some (fun _ _ => None)
  | None => None
  end.

(** [agree m m']: [m] does what [m'] does, unless it raises. *)
Definition agree {A} (m m' : M A) : Prop :=
  forall w, m w = m' w \/ exists e w', m w = (Raise e, w').

(** Order of discovery: by address, then by port. *)
Definition pair_lt (x y : Z * Z) : Prop :=
  fst x < fst y \/ (fst x = fst y /\ snd x < snd y).

(** ** The anatomy of a run

    What a run of the engine did, step by step: an address step converts
    the next address to text, a probe step connects to one pair and gets
    a code.  [render] gives the calls each step makes when the callbacks
    return; an [ending] tells how the loops were left. *)

(** The five messages of a copy of the program. *)
Record messages : Type := {
  text_order : string;
  text_stopped : string;
  text_open : string -> Z -> string;
  text_closed : string -> Z -> string;
  text_fault : exn -> string
}.

Definition english : messages :=
  {| text_order := English.msg_order;
     text_stopped := English.msg_stopped;
     text_open := English.msg_open;
     text_closed := English.msg_closed;
     text_fault := English.msg_fault |}.

Definition spanish : messages :=
  {| text_order := Spanish.msg_order;
     text_stopped := Spanish.msg_stopped;
     text_open := Spanish.msg_open;
     text_closed := Spanish.msg_closed;
     text_fault := Spanish.msg_fault |}.

Inductive slot : Type :=
| AddressSlot (n : Z)
| PortSlot (n : Z) (port : Z).

Inductive step : Type :=
| AddressStep (n : Z)
| ProbeStep (n : Z) (port : Z) (code : Z).

Definition slot_of (s : step) : slot :=
  match s with
  | AddressStep n => AddressSlot n
  | ProbeStep n port _ => PortSlot n port
  end.

Inductive ending : Type :=
| Finished                          (* the loop ran to its end *)
| Stopped                           (* a check found the stop event set *)
| Broke (e : exn) (calls : world).  (* a probe raised e after these calls *)

(** The work the two nested loops have to do for addresses [a..b] and
    ports [sp..ep]. *)
Definition port_slots (n sp ep : Z) : list slot :=
  map (PortSlot n) (range sp (ep + 1)).

Definition schedule (a b sp ep : Z) : list slot :=
  flat_map (fun n => AddressSlot n :: port_slots n sp ep) (range a (b + 1)).

(** The pairs of the port slots, as integers. *)
Definition slot_keys (todo : list slot) : list (Z * Z) :=
  flat_map
    (fun s =>
       match s with
       | PortSlot n port => [(n, port)]
       | AddressSlot _ => []
       end)
    todo.

Section Anatomy.
Variable net : platform.
Variable lang : messages.
Variable verbose : bool.
Variable stop_event : stop_flag.
Variable log_callback : option (callback string).
Variable result_callback : option (callback results).

Definition log_line (line : string) : world :=
  match log_callback with
  | Some _ => [Log line]
  | None => []
  end.

Definition done_line (rs : results) : world :=
  match result_callback with
  | Some _ => [Done rs]
  | None => []
  end.

Definition probe_log (n port code : Z) : world :=
  if code =? 0 then log_line (text_open lang (ip_text net n) port)
  else if verbose then log_line (text_closed lang (ip_text net n) port)
  else [].

Definition render_step (s : step) : world :=
  match s with
  | AddressStep n => [IsSet false; AddrText n]
  | ProbeStep n port code =>
      [IsSet false; Socket; SetTimeout;
       ConnectEx (ip_text net n) port (inr code)]
      ++ probe_log n port code ++ [Close]
  end.

Definition render (steps : list step) : world := flat_map render_step steps.

Definition found (s : step) : results :=
  match s with
  | ProbeStep n port code =>
      if code =? 0 then [(ip_text net n, port)] else []
  | AddressStep _ => []
  end.

Definition opens (steps : list step) : results := flat_map found steps.

(** The pairs of the probe steps that found the port open, as integers. *)
Definition open_keys (steps : list step) : list (Z * Z) :=
  flat_map
    (fun s =>
       match s with
       | ProbeStep n port code => if code =? 0 then [(n, port)] else []
       | AddressStep _ => []
       end)
    steps.

Definition text_pair (k : Z * Z) : string * Z := (ip_text net (fst k), snd k).

(** How the loops hand over: the control they leave with and the calls
    they make on the way out, [acc] being [open_ports] at that point. *)
Definition leave (en : ending) (acc : results) : control results :=
  match en with
  | Finished => Normal acc
  | Stopped => Return Cancelled
  | Broke e _ => Raise e
  end.

Definition farewell (en : ending) (acc : results) : world :=
  match en with
  | Finished => []
  | Stopped => IsSet true :: log_line (text_stopped lang) ++ done_line acc
  | Broke _ calls => calls
  end.

(** [exec k j todo steps en]: starting with [k] checks of the stop event
    and [j] socket creations behind it, the engine did [steps] of the
    work [todo] and then left the loops as [en] says.  Each step passed
    its check; each probe step got its socket and carries the code the
    network gave; each early ending is caused by the collaborator it
    names. *)
Inductive exec : nat -> nat -> list slot -> list step -> ending -> Prop :=
| exec_finished k j : exec k j [] [] Finished
| exec_stopped k j s todo :
    stop_event k = true ->
    exec k j (s :: todo) [] Stopped
| exec_address k j n todo steps en :
    stop_event k = false ->
    exec (S k) j todo steps en ->
    exec k j (AddressSlot n :: todo) (AddressStep n :: steps) en
| exec_socket_error k j n port todo e :
    stop_event k = false ->
    socket_new net j = Some e ->
    exec k j (PortSlot n port :: todo) []
      (Broke e [IsSet false; SocketError e])
| exec_connect_error k j n port todo e :
    stop_event k = false ->
    socket_new net j = None ->
    connect_ex net (ip_text net n) port = inl e ->
    exec k j (PortSlot n port :: todo) []
      (Broke e [IsSet false; Socket; SetTimeout;
                ConnectEx (ip_text net n) port (inl e)])
| exec_probe k j n port code todo steps en :
    stop_event k = false ->
    socket_new net j = None ->
    connect_ex net (ip_text net n) port = inr code ->
    exec (S k) (S j) todo steps en ->
    exec k j (PortSlot n port :: todo) (ProbeStep n port code :: steps) en.

(** The calls that end a run of [scan_ips], and the path it leaves by. *)
Definition epilogue (en : ending) (acc : results) : world :=
  match en with
  | Finished => done_line acc
  | Stopped => farewell Stopped acc
  | Broke e calls => calls ++ log_line (text_fault lang e) ++ done_line []
  end.

Definition exit_of (en : ending) : path :=
  match en with
  | Finished => Completed
  | Stopped => Cancelled
  | Broke e _ => Faulted e
  end.
(** What one turn of each loop does when the callbacks return.

    The two copies differ in their messages only, so each is shown to
    satisfy the same equations, stated over a table of messages; the
    rest of the development works from the equations. *)

Definition port_turn
    (for_port : string -> list Z -> results -> M results) : Prop :=
  (forall ip acc w, for_port ip [] acc w = (Normal acc, w)) /\
  (forall ip port ports acc w,
     for_port ip (port :: ports) acc w =
     if stop_event (checks w) then
       (Return Cancelled,
        w ++ IsSet true :: log_line (text_stopped lang)
          ++ done_line acc)
     else
       match socket_new net (socket_calls w) with
       | Some e => (Raise e, w ++ [IsSet false; SocketError e])
       | None =>
           match connect_ex net ip port with
           | inl e =>
               (Raise e,
                w ++ [IsSet false; Socket; SetTimeout;
                      ConnectEx ip port (inl e)])
           | inr code =>
               for_port ip ports
                 (acc ++ (if code =? 0 then [(ip, port)] else []))
                 (w ++ [IsSet false; Socket; SetTimeout;
                        ConnectEx ip port (inr code)]
                    ++ (if code =? 0
                        then log_line (text_open lang ip port)
                        else if verbose
                        then log_line (text_closed lang ip port)
                        else [])
                    ++ [Close])
           end
       end).

Definition address_turn (for_port : string -> list Z -> results -> M results)
    (while_ip : Z -> Z -> Z -> Z -> results -> M results) : Prop :=
  forall sp ep b cur acc w,
    while_ip sp ep b cur acc w =
    if cur <=? b then
      if stop_event (checks w) then
        (Return Cancelled,
         w ++ IsSet true :: log_line (text_stopped lang)
           ++ done_line acc)
      else
        match
          for_port (ip_text net cur) (range sp (ep + 1)) acc
            (w ++ [IsSet false; AddrText cur])
        with
        | (Normal acc', w') => while_ip sp ep b (cur + 1) acc' w'
        | r => r
        end
    else (Normal acc, w).

Definition whole_run (while_ip : Z -> Z -> Z -> Z -> results -> M results)
    (scan_ips : string -> string -> Z -> Z -> M path) : Prop :=
  forall start_ip end_ip sp ep,
    run (scan_ips start_ip end_ip sp ep) =
    let fault e :=
      (Normal (Faulted e),
       log_line (text_fault lang e)
         ++ done_line []) in
    match ip_address net start_ip with
    | inl e => fault e
    | inr a =>
        match ip_address net end_ip with
        | inl e => fault e
        | inr b =>
            if a >? b then
              (Normal UsageError,
               log_line (text_order lang)
                 ++ done_line [])
            else
              match while_ip sp ep b a [] [] with
              | (Normal acc, w) =>
                  (Normal Completed, w ++ done_line acc)
              | (Return p, w) => (Normal p, w)
              | (Raise e, w) =>
                  (Normal (Faulted e),
                   w ++ log_line (text_fault lang e)
                     ++ done_line [])
              end
        end
    end.


(** The three kinds of run of [scan_ips] when the callbacks return: an
    address that does not parse, the usage error, a scan. *)
Inductive anatomy (start_ip end_ip : string) (sp ep : Z)
    : control path * world -> Prop :=
| unparsed e :
    ip_address net start_ip = inl e \/
    (exists a, ip_address net start_ip = inr a) /\
    ip_address net end_ip = inl e ->
    anatomy start_ip end_ip sp ep
      (Normal (Faulted e),
       log_line (text_fault lang e) ++ done_line [])
| misordered a b :
    ip_address net start_ip = inr a -> ip_address net end_ip = inr b ->
    a > b ->
    anatomy start_ip end_ip sp ep
      (Normal UsageError, log_line (text_order lang) ++ done_line [])
| scanned a b steps en :
    ip_address net start_ip = inr a -> ip_address net end_ip = inr b ->
    a <= b ->
    exec 0 0 (schedule a b sp ep) steps en ->
    anatomy start_ip end_ip sp ep
      (Normal (exit_of en), render steps ++ epilogue en (opens steps)).
End Anatomy.

(** ** More readings of a trace *)

(** The line that ends the log of a run, by the path the run left by:
    nothing after a completed scan, one line otherwise. *)
Definition closing_lines (lang : messages) (p : path) : list string :=
  match p with
  | Completed => []
  | Cancelled => [text_stopped lang]
  | UsageError => [text_order lang]
  | Faulted e => [text_fault lang e]
  end.

(** The line of each connection attempt that returned a code, in order:
    what a verbose run logs for its probes. *)
Definition verdict_lines (lang : messages) (w : world) : list string :=
  flat_map
    (fun ev =>
       match ev with
       | ConnectEx ip port (inr code) =>
           [if code =? 0 then text_open lang ip port
            else text_closed lang ip port]
       | _ => []
       end)
    w.

(** The line of each pair found open. *)
Definition open_lines (lang : messages) (rs : results) : list string :=
  map (fun pair => text_open lang (fst pair) (snd pair)) rs.

(** [modest m]: the statement [m] hands no result over when it finishes,
    and at most one when it leaves by [return] or by an exception. *)
Definition modest {A} (m : M A) : Prop :=
  forall w,
    match m w with
    | (Normal _, w') => dones w' = dones w
    | (_, w') =>
        dones w' = dones w \/ exists rs, dones w' = dones w ++ [rs]
    end.

(** A callback that raises [e] whatever it is given. *)
Definition failing {A} (e : exn) : callback A := fun _ _ => Some e.

(** * The window: validation of the input and control of the scan

    The rest of the program is the window that collects the four fields,
    validates them, starts the engine in a thread and shows what it
    reports.  The engine passes text through; the validators look into
    it, so here a Python [str] is the list of its characters. *)

(** ** Text *)

(** A [str]: its characters, as code points. *)
Definition text : Type := list N.

(** The characters of an ASCII literal. *)
Definition chars (s : string) : text :=
  map N_of_ascii (list_ascii_of_string s).

Definition dot : N := 46.
Definition newline : N := 10.

(** The text as the engine's strings are written, in UTF-8. *)
Definition utf8_char (c : N) : list ascii :=
  (if c <? 128 then [ascii_of_N c]
   else if c <? 2048 then
     [ascii_of_N (192 + c / 64); ascii_of_N (128 + c mod 64)]
   else if c <? 65536 then
     [ascii_of_N (224 + c / 4096); ascii_of_N (128 + c / 64 mod 64);
      ascii_of_N (128 + c mod 64)]
   else
     [ascii_of_N (240 + c / 262144); ascii_of_N (128 + c / 4096 mod 64);
      ascii_of_N (128 + c / 64 mod 64); ascii_of_N (128 + c mod 64)])%N.

Definition utf8 (t : text) : string :=
  string_of_list_ascii (flat_map utf8_char t).

(** What the validators use of Python's text library.  [decimal_digit c] is
    the value of the character [c] when it is a decimal digit (Unicode
    category Nd): the characters [\d] matches and [int] reads.
    [int_of_str s] is [int(s)] for a [str], or the [ValueError] it
    raises; [strip s] is [s.strip()]. *)
Record builtins : Type := {
  decimal_digit : N -> option Z;
  int_of_str : text -> exn + Z;
  strip : text -> text
}.

(** The number a text of decimal digits writes. *)
Fixpoint digits_from (lib : builtins) (acc : Z) (ds : text) : option Z :=
  match ds with
  | [] => Some acc
  | c :: ds' =>
      match decimal_digit lib c with
      | Some d => digits_from lib (10 * acc + d) ds'
      | None => None
      end
  end.

Definition digits_value (lib : builtins) (ds : text) : option Z :=
  digits_from lib 0 ds.

(** What is assumed of the library: the dot is no digit, a digit is
    worth 0 to 9, and [int] reads one to three digits as the number
    they write, also when a newline follows them. *)
Record lawful (lib : builtins) : Prop := {
  dot_no_digit : decimal_digit lib dot = None;
  digit_range : forall c d, decimal_digit lib c = Some d -> 0 <= d <= 9;
  int_of_digits : forall ds v,
    (1 <= List.length ds <= 3)%nat -> digits_value lib ds = Some v ->
    int_of_str lib ds = inr v /\ int_of_str lib (ds ++ [newline]) = inr v
}.

(** ** The pattern of an address

    [re.match(r'^\d{1,3}\.\d{1,3}\.\d{1,3}\.\d{1,3}$', ip)].  A piece of
    a pattern is given by the texts that can remain after it at the head
    of a text, in the order [re] tries them; the pattern matches when
    one way through its pieces reaches the end. *)

Definition matcher : Type := text -> list text.

(** [\d] *)
Definition re_digit (lib : builtins) : matcher :=
  fun s =>
    match s with
    | c :: s' =>
        match decimal_digit lib c with
        | Some _ => [s']
        | None => []
        end
    | [] => []
    end.

(** A literal character, as [\.] *)
Definition re_char (c : N) : matcher :=
  fun s =>
    match s with
    | c' :: s' => if (c' =? c)%N then [s'] else []
    | [] => []
    end.

Definition re_seq (p q : matcher) : matcher := fun s => flat_map q (p s).

(** [p{1,3}], greedy: three times, else twice, else once. *)
Definition re_1_3 (p : matcher) : matcher :=
  fun s => re_seq p (re_seq p p) s ++ re_seq p p s ++ p s.

(** [$]: the end of the text, or the newline that ends it. *)
Definition re_end : matcher :=
  fun s =>
    match s with
    | [] => [s]
    | [c] => if (c =? newline)%N then [s] else []
    | _ => []
    end.

Definition re_match (p : matcher) (s : text) : bool :=
  match p s with
  | [] => false
  | _ :: _ => true
  end.

Definition dotted_quad (lib : builtins) : matcher :=
  let octet := re_1_3 (re_digit lib) in
  let point := re_char dot in
  re_seq octet (re_seq point (re_seq octet (re_seq point
    (re_seq octet (re_seq point (re_seq octet re_end)))))).

(** [s.split(sep)] for a separator of one character. *)
Fixpoint str_split (sep : N) (s : text) : list text :=
  match s with
  | [] => [[]]
  | c :: s' =>
      if (c =? sep)%N then [] :: str_split sep s'
      else
        match str_split sep s' with
        | field :: fields => (c :: field) :: fields
        | [] => [[c]]
        end
  end.

(** ** The validators *)

(** [all(0 <= int(octet) <= 255 for octet in parts)]: the parts are
    read one by one; the first out of range ends the reading, the first
    that [int] refuses raises. *)
Fixpoint all_octets (lib : builtins) (parts : list text) : exn + bool :=
  match parts with
  | [] => inr true
  | octet :: parts' =>
      match int_of_str lib octet with
      | inl e => inl e
      | inr v =>
          if (0 <=? v) && (v <=? 255) then all_octets lib parts'
          else inr false
      end
  end.

(** [def is_valid_ip_address(ip: str) -> bool] *)
Definition is_valid_ip_address (lib : builtins) (ip : text) : bool :=
  if negb (re_match (dotted_quad lib) ip) then false
  else
    match all_octets lib (str_split dot ip) with
    | inr b => b
    | inl _ => false
    end.

(** [def is_valid_port(port) -> bool], for a [str] as the window passes
    it: [int] of a [str] raises nothing but [ValueError]. *)
Definition is_valid_port (lib : builtins) (port : text) : bool :=
  match int_of_str lib port with
  | inr p => (0 <=? p) && (p <=? 65535)
  | inl _ => false
  end.

(** The Spanish copy has the same two functions under Spanish names. *)
Definition validar_direccion_ip (lib : builtins) (ip : text) : bool :=
  if negb (re_match (dotted_quad lib) ip) then false
  else
    match all_octets lib (str_split dot ip) with
    | inr b => b
    | inl _ => false
    end.

Definition validar_puerto (lib : builtins) (puerto : text) : bool :=
  match int_of_str lib puerto with
  | inr p => (0 <=? p) && (p <=? 65535)
  | inl _ => false
  end.

(** An octet as the validator accepts it: one to three decimal digits
    that write a number up to 255. *)
Definition octet_text (lib : builtins) (g : text) : Prop :=
  (1 <= List.length g <= 3)%nat /\
  exists v, digits_value lib g = Some v /\ v <= 255.

(** ** A library for plain text

    The instance of the text library used to run the window on concrete
    input: the ASCII digits, and [int] and [strip] as they read and
    trim ASCII text (blanks around, a sign, digits with single
    underscores between them).  It is narrower than Python's library,
    which also knows the decimal digits and the blanks beyond ASCII and
    strips the separators U+001C to U+001F; on text without those it
    reads as Python does. *)

Module Plain.
Definition decimal (c : N) : option Z :=
  if ((48 <=? c) && (c <=? 57))%N then Some (Z.of_N c - 48) else None.

Definition is_space (c : N) : bool :=
  ((c =? 32) || ((9 <=? c) && (c <=? 13)))%N.

Fixpoint lstrip (s : text) : text :=
  match s with
  | c :: s' => if is_space c then lstrip s' else s
  | [] => []
  end.

Definition strip (s : text) : text := rev (lstrip (rev (lstrip s))).

(** The digits of a literal: [after] tells what came before, a digit
    ([true]) or the start or an underscore ([false]). *)
Fixpoint literal (s : text) (acc : Z) (after : bool) : option Z :=
  match s with
  | [] => if after then Some acc else None
  | c :: s' =>
      match decimal c with
      | Some d => literal s' (10 * acc + d) true
      | None =>
          if (c =? 95)%N && after then literal s' acc false else None
      end
  end.

Definition int_of_str (s : text) : exn + Z :=
  let refused :=
    inl (Exception
           ("invalid literal for int() with base 10: '" ++ utf8 s ++ "'")) in
  match strip s with
  | c :: s' =>
      if (c =? 45)%N then
        match literal s' 0 false with
        | Some v => inr (- v)
        | None => refused
        end
      else if (c =? 43)%N then
        match literal s' 0 false with
        | Some v => inr v
        | None => refused
        end
      else
        match literal (c :: s') 0 false with
        | Some v => inr v
        | None => refused
        end
  | [] => refused
  end.

Definition library : builtins :=
  Build_builtins decimal int_of_str strip.
End Plain.

(** ** The window

    The class [PortScannerGUI], from [load_local_ips] on: what the
    window does when the user presses the scan button or the save
    button, and when the engine hands over its result.  The two copies
    of the program differ in the captions only; the methods are written
    once, over a table of captions.

    A method is given the state of the window and the answers of the
    outside (the clock, the thread, the file dialog, the file system),
    and gives the new state and the calls it made, in order. *)

Definition line_feed : string := String (ascii_of_nat 10) EmptyString.

(** The captions of a copy of the program. *)
Record captions : Type := {
  invalid_start_ip : string;
  invalid_end_ip : string;
  invalid_start_port : string;
  invalid_end_port : string;
  ports_out_of_order : string;
  starting : string;
  found_header : string;
  found_line : string -> Z -> string;
  none_found : string;
  duration_line : Z -> Z -> Z -> string;
  start_text : string;
  stop_text : string;
  stopping_text : string;
  nothing_to_save : string;
  saved_to : string -> string;
  save_failed : exn -> string;
  csv_header : list string
}.

Definition english_captions : captions :=
  {| invalid_start_ip := "❌ Error: Invalid start IP.";
     invalid_end_ip := "❌ Error: Invalid end IP.";
     invalid_start_port := "❌ Error: Invalid start port.";
     invalid_end_port := "❌ Error: Invalid end port.";
     ports_out_of_order :=
       "❌ Error: Start port cannot be greater than end port.";
     starting := "⏳ Starting scan...";
     found_header := (line_feed ++ "✅ Open ports found:")%string;
     found_line := fun ip port =>
       ("  → IP: " ++ ip ++ ", Port: " ++ str_int port)%string;
     none_found := (line_feed ++ "⚠️ No open ports found.")%string;
     duration_line := fun hours minutes seconds =>
       (line_feed ++ "🕒 Total duration: " ++ str_int hours ++ " h "
        ++ str_int minutes ++ " min " ++ str_int seconds ++ " s")%string;
     start_text := "🔍 Start Scan";
     stop_text := "❌ Stop Scan";
     stopping_text := "⏹️ Stopping...";
     nothing_to_save := "ℹ️ No results to save.";
     saved_to := fun filepath => ("✅ Results saved to: " ++ filepath)%string;
     save_failed := fun e => ("❌ Error saving file: " ++ exn_text e)%string;
     csv_header := ["IP"; "Port"] |}.

Definition spanish_captions : captions :=
  {| invalid_start_ip := "❌ Error: IP inicial no válida.";
     invalid_end_ip := "❌ Error: IP final no válida.";
     invalid_start_port := "❌ Error: Puerto inicial no válido.";
     invalid_end_port := "❌ Error: Puerto final no válido.";
     ports_out_of_order :=
       "❌ Error: Puerto inicial no puede ser mayor que el final.";
     starting := "⏳ Iniciando escaneo...";
     found_header := (line_feed ++ "✅ Puertos abiertos encontrados:")%string;
     found_line := fun ip port =>
       ("  → IP: " ++ ip ++ ", Puerto: " ++ str_int port)%string;
     none_found :=
       (line_feed ++ "⚠️ No se encontraron puertos abiertos.")%string;
     duration_line := fun horas minutos segundos =>
       (line_feed ++ "🕒 Duración total: " ++ str_int horas ++ " h "
        ++ str_int minutos ++ " min " ++ str_int segundos ++ " s")%string;
     start_text := "🔍 Iniciar Escaneo";
     stop_text := "❌ Detener escaneo";
     stopping_text := "⏹️ Deteniendo...";
     nothing_to_save := "ℹ️ No hay resultados para guardar.";
     saved_to := fun filepath =>
       ("✅ Resultados guardados en: " ++ filepath)%string;
     save_failed := fun e =>
       ("❌ Error al guardar el archivo: " ++ exn_text e)%string;
     csv_header := ["IP"; "Puerto"] |}.

Module PortScannerGUI.

Inductive widget_state : Type := normal | disabled.

(** What a scan thread runs: the arguments the window gives [scan_ips],
    its stop event (the [threading.Event] objects are numbered as they
    are created) and the time [t1] its [on_scan_complete] remembers. *)
Record job : Type := {
  start_ip : text;
  end_ip : text;
  start_port : Z;
  end_port : Z;
  verbose : bool;
  stop : nat;
  t1 : Z
}.

(** The calls of the window to its widgets and to the outside. *)
Inductive act : Type :=
| LogMessage (msg : string)          (* self.log_message(msg) *)
| LogAreaConfig (state : widget_state)
                                     (* self.log_area.config(state=...) *)
| LogAreaDelete                      (* self.log_area.delete(1.0, "end") *)
| ButtonConfigure (caption : string) (state : widget_state)
                                     (* self.scan_button.configure(...) *)
| ButtonRestore (caption : string) (state : widget_state)
                     (* self.root.after(0, lambda: ...configure(...)) *)
| StopEventSet (event : nat)         (* self.stop_event.set() *)
| ThreadStart (scan : job)           (* threading.Thread(...).start() *)
| AskSaveAsFilename                  (* filedialog.asksaveasfilename(...) *)
| OpenFile (filepath : string)       (* open(filepath, mode="w", ...) *)
| WriteRow (row : list string)       (* a row handed to the csv writer *)
| CloseFile.                         (* the end of the [with] block *)

(** The attributes of the window that the methods read and assign, the
    text of the four entries and the number of events created so far. *)
Record window : Type := {
  entry_start_ip : text;
  entry_end_ip : text;
  entry_start_port : text;
  entry_end_port : text;
  verbose_var : bool;
  scan_thread : option job;
  stop_event : option nat;
  last_scan_results : results;
  events_created : nat
}.

(** How a method ends: it returns, or an exception leaves it. *)
Inductive outcome : Type :=
| Returned (self : window) (acts : list act)
| Raised (e : exn) (self : window) (acts : list act).

(** [_initialize_state], with empty entries. *)
Definition initial : window :=
  {| entry_start_ip := []; entry_end_ip := [];
     entry_start_port := []; entry_end_port := [];
     verbose_var := false;
     scan_thread := None; stop_event := None;
     last_scan_results := []; events_created := 0 |}.

(** [a or b] for two [str]. *)
Definition or_else (a b : text) : text :=
  match a with
  | [] => b
  | _ :: _ => a
  end.

(** [total.seconds] for [total = t2 - t1], the clock read in
    microseconds: the seconds of the difference that do not make a
    whole day. *)
Definition timedelta_seconds (t1 t2 : Z) : Z :=
  (t2 - t1) / 1000000 mod 86400.

(** The row the csv writer is handed for a result. *)
Definition csv_row (pair : string * Z) : list string :=
  [fst pair; str_int (snd pair)].

Section Methods.
Variable lib : builtins.
Variable cap : captions.

(** [def start_new_scan(self)]; [now] is what [datetime.datetime.now()]
    answers. *)
Definition start_new_scan (now : Z) (self : window) : outcome :=
  let start_ip := strip lib (entry_start_ip self) in
  let end_ip := or_else (strip lib (entry_end_ip self)) start_ip in
  let start_port := strip lib (entry_start_port self) in
  let end_port := or_else (strip lib (entry_end_port self)) start_port in
  if negb (is_valid_ip_address lib start_ip) then
    Returned self [LogMessage (invalid_start_ip cap)]
  else if negb (is_valid_ip_address lib end_ip) then
    Returned self [LogMessage (invalid_end_ip cap)]
  else if negb (is_valid_port lib start_port) then
    Returned self [LogMessage (invalid_start_port cap)]
  else if negb (is_valid_port lib end_port) then
    Returned self [LogMessage (invalid_end_port cap)]
  else
    match int_of_str lib start_port with
    | inl e => Raised e self []
    | inr start_port =>
        match int_of_str lib end_port with
        | inl e => Raised e self []
        | inr end_port =>
            if start_port >? end_port then
              Returned self [LogMessage (ports_out_of_order cap)]
            else
              let event := events_created self in
              let scan :=
                {| start_ip := start_ip; end_ip := end_ip;
                   start_port := start_port; end_port := end_port;
                   verbose := verbose_var self;
                   stop := event; t1 := now |} in
              Returned
                {| entry_start_ip := entry_start_ip self;
                   entry_end_ip := entry_end_ip self;
                   entry_start_port := entry_start_port self;
                   entry_end_port := entry_end_port self;
                   verbose_var := verbose_var self;
                   scan_thread := Some scan;
                   stop_event := Some event;
                   last_scan_results := [];
                   events_created := S event |}
                [LogAreaConfig normal; LogAreaDelete; LogAreaConfig disabled;
                 LogMessage (starting cap);
                 ThreadStart scan;
                 ButtonConfigure (stop_text cap) normal]
        end
    end.

(** [def toggle_scan(self)]; [is_alive] is what
    [self.scan_thread.is_alive()] answers when it is asked. *)
Definition toggle_scan (is_alive : bool) (now : Z) (self : window)
    : outcome :=
  match scan_thread self with
  | Some _ =>
      if is_alive then
        match stop_event self with
        | Some event =>
            Returned self
              [StopEventSet event;
               ButtonConfigure (stopping_text cap) disabled]
        | None => start_new_scan now self
        end
      else start_new_scan now self
  | None => start_new_scan now self
  end.

(** [def on_scan_complete(results)], the closure of a scan started at
    [t1]; [now] is what [datetime.datetime.now()] answers. *)
Definition on_scan_complete (t1 : Z) (now : Z) (results : results)
    (self : window) : window * list act :=
  let total_seconds := timedelta_seconds t1 now in
  let hours := total_seconds / 3600 in
  let minutes := total_seconds mod 3600 / 60 in
  let seconds := total_seconds mod 60 in
  ({| entry_start_ip := entry_start_ip self;
      entry_end_ip := entry_end_ip self;
      entry_start_port := entry_start_port self;
      entry_end_port := entry_end_port self;
      verbose_var := verbose_var self;
      scan_thread := scan_thread self;
      stop_event := stop_event self;
      last_scan_results := results;
      events_created := events_created self |},
   match results with
   | [] => [LogMessage (none_found cap)]
   | _ :: _ =>
       LogMessage (found_header cap)
       :: map (fun pair => LogMessage (found_line cap (fst pair) (snd pair)))
            results
   end
   ++ [LogMessage (duration_line cap hours minutes seconds);
       ButtonRestore (start_text cap) normal]).

(** The calls of the [with] block that writes [rows] to [filepath]:
    the file is opened, the rows are handed to the csv writer one after
    the other, the file is closed. *)
Definition with_block (filepath : string) (rows : list (list string))
    : list act :=
  OpenFile filepath :: map WriteRow rows ++ [CloseFile].

(** The calls made when the [k]-th call of the block raises: the calls
    up to that one, and the closing of the file when it was a row that
    could not be written. *)
Definition interrupted (calls : list act) (k : nat) : list act :=
  firstn (S k) calls
  ++ (if (0 <? k)%nat && (S k <? List.length calls)%nat then [CloseFile]
      else []).

(** [def save_results_to_csv(self)]; [answer] is what the file dialog
    returns (empty when the user cancels), [fails] tells which call of
    the [with] block raises and what, if one does. *)
Definition save_results_to_csv (answer : string)
    (fails : option (nat * exn)) (self : window) : list act :=
  match last_scan_results self with
  | [] => [LogMessage (nothing_to_save cap)]
  | _ :: _ =>
      match answer with
      | EmptyString => [AskSaveAsFilename]
      | filepath =>
          let calls :=
            with_block filepath
              (csv_header cap :: map csv_row (last_scan_results self)) in
          match fails with
          | None =>
              AskSaveAsFilename :: calls
              ++ [LogMessage (saved_to cap filepath)]
          | Some (k, e) =>
              if (k <? List.length calls)%nat then
                AskSaveAsFilename :: interrupted calls k
                ++ [LogMessage (save_failed cap e)]
              else
                AskSaveAsFilename :: calls
                ++ [LogMessage (saved_to cap filepath)]
          end
      end
  end.
End Methods.

(** The states the window goes through: the user types in the entries
    and ticks the box, presses the scan button, and the thread of the
    scan hands over its result. *)
Inductive reachable (lib : builtins) (cap : captions) : window -> Prop :=
| at_start : reachable lib cap initial
| after_typing self a b c d v :
    reachable lib cap self ->
    reachable lib cap
      {| entry_start_ip := a; entry_end_ip := b;
         entry_start_port := c; entry_end_port := d;
         verbose_var := v;
         scan_thread := scan_thread self;
         stop_event := stop_event self;
         last_scan_results := last_scan_results self;
         events_created := events_created self |}
| after_toggle self is_alive now self' acts :
    reachable lib cap self ->
    toggle_scan lib cap is_alive now self = Returned self' acts ->
    reachable lib cap self'
| after_scan self scan now rs :
    reachable lib cap self ->
    scan_thread self = Some scan ->
    reachable lib cap
      (fst (on_scan_complete cap (t1 scan) now rs self)).

(** The run of the engine in the thread of a scan, in the English copy:
    [scan_ips] with the arguments of the scan, [self.log_message] and
    [on_scan_complete] as callbacks; both return. *)
Definition thread_run (net : platform) (scan : job) (flag : stop_flag)
    : control path * world :=
  run (English.scan_ips net (utf8 (start_ip scan)) (utf8 (end_ip scan))
         (start_port scan) (end_port scan) (verbose scan) flag
         (Some accepting) (Some accepting)).
End PortScannerGUI.

(** * Properties of the engine *)

(** ** The concrete platform at work *)

Example parse_private_address : IPv4.parse "192.168.1.10" = inr 3232235786.
Proof. reflexivity. Qed.

Example parse_refuses_octet_300 :
  IPv4.parse "10.0.0.300" =
  inl (Exception "'10.0.0.300' does not appear to be an IPv4 or IPv6 address").
Proof. reflexivity. Qed.

Example parse_refuses_leading_zero :
  IPv4.parse "10.0.0.01" =
  inl (Exception "'10.0.0.01' does not appear to be an IPv4 or IPv6 address").
Proof. reflexivity. Qed.

Example dotted_private_address : IPv4.dotted 3232235786 = "192.168.1.10".
Proof. reflexivity. Qed.

(** The example of the specification: two addresses, two ports,
    everything open. *)
Example scan_two_hosts_two_ports :
  run (English.scan_ips (IPv4.network None IPv4.all_open)
         "10.0.0.1" "10.0.0.2" 80 81 false never_set None (Some accepting)) =
  (Normal Completed,
   [IsSet false; AddrText 167772161;
    IsSet false; Socket; SetTimeout; ConnectEx "10.0.0.1" 80 (inr 0); Close;
    IsSet false; Socket; SetTimeout; ConnectEx "10.0.0.1" 81 (inr 0); Close;
    IsSet false; AddrText 167772162;
    IsSet false; Socket; SetTimeout; ConnectEx "10.0.0.2" 80 (inr 0); Close;
    IsSet false; Socket; SetTimeout; ConnectEx "10.0.0.2" 81 (inr 0); Close;
    Done [("10.0.0.1", 80); ("10.0.0.1", 81);
          ("10.0.0.2", 80); ("10.0.0.2", 81)]]).
Proof. vm_compute. reflexivity. Qed.

(** ** Ranges and schedules *)

Lemma range_nil lo hi : hi <= lo -> range lo hi = [].
Proof.
  intros H. unfold range. replace (Z.to_nat (hi - lo)) with 0%nat by lia.
  reflexivity.
Qed.

Lemma range_cons lo hi : lo < hi -> range lo hi = lo :: range (lo + 1) hi.
Proof.
  intros H. unfold range.
  replace (Z.to_nat (hi - lo)) with (S (Z.to_nat (hi - (lo + 1)))) by lia.
  cbn [seq map]. f_equal. { lia. }
  rewrite <- seq_shift, map_map. apply map_ext. intros i. lia.
Qed.

Lemma range_length lo hi : List.length (range lo hi) = Z.to_nat (hi - lo).
Proof. unfold range. now rewrite length_map, length_seq. Qed.

Lemma in_range lo hi x : In x (range lo hi) <-> lo <= x < hi.
Proof.
  unfold range. rewrite in_map_iff. split.
  - intros (i & <- & Hi). apply in_seq in Hi. lia.
  - intros Hx. exists (Z.to_nat (x - lo)). split; [lia|]. apply in_seq. lia.
Qed.

Lemma schedule_nil a b sp ep : b < a -> schedule a b sp ep = [].
Proof. intros H. unfold schedule. now rewrite range_nil by lia. Qed.

Lemma schedule_cons a b sp ep :
  a <= b ->
  schedule a b sp ep =
  AddressSlot a :: port_slots a sp ep ++ schedule (a + 1) b sp ep.
Proof. intros H. unfold schedule. now rewrite range_cons by lia. Qed.

(** ** Counters *)

Lemma checks_app w1 w2 : checks (w1 ++ w2) = (checks w1 + checks w2)%nat.
Proof. unfold checks. now rewrite filter_app, length_app. Qed.

Lemma socket_calls_app w1 w2 :
  socket_calls (w1 ++ w2) = (socket_calls w1 + socket_calls w2)%nat.
Proof. unfold socket_calls. now rewrite filter_app, length_app. Qed.

(** Log lines and deliveries are neither checks nor socket creations. *)
Lemma counters_log_line cb line :
  checks (log_line cb line) = 0%nat /\ socket_calls (log_line cb line) = 0%nat.
Proof. unfold log_line. now destruct cb. Qed.


Lemma counters_probe_log net lang verbose cb n port code :
  checks (probe_log net lang verbose cb n port code) = 0%nat /\
  socket_calls (probe_log net lang verbose cb n port code) = 0%nat.
Proof.
  unfold probe_log. destruct (code =? 0); [apply counters_log_line|].
  destruct verbose; [apply counters_log_line|]. now split.
Qed.

Lemma checks_render net lang verbose cb steps :
  checks (render net lang verbose cb steps) = List.length steps.
Proof.
  induction steps as [|[n|n port code] steps IH]; cbn [render flat_map].
  - reflexivity.
  - rewrite checks_app. fold (render net lang verbose cb steps).
    rewrite IH. reflexivity.
  - rewrite checks_app. fold (render net lang verbose cb steps). rewrite IH.
    cbn [render_step]. rewrite !checks_app.
    rewrite (proj1 (counters_probe_log _ _ _ _ _ _ _)). reflexivity.
Qed.

Lemma socket_calls_render net lang verbose cb steps :
  socket_calls (render net lang verbose cb steps) =
  List.length (slot_keys (map slot_of steps)).
Proof.
  induction steps as [|[n|n port code] steps IH]; cbn [render flat_map].
  - reflexivity.
  - rewrite socket_calls_app. fold (render net lang verbose cb steps).
    rewrite IH. reflexivity.
  - rewrite socket_calls_app. fold (render net lang verbose cb steps).
    rewrite IH. cbn [render_step]. rewrite !socket_calls_app.
    rewrite (proj2 (counters_probe_log _ _ _ _ _ _ _)). reflexivity.
Qed.

(** ** The relation [exec] *)

Section Exec.
Variable net : platform.
Variable stop_event : stop_flag.

Lemma exec_app_finished k j todo1 steps1 todo2 steps2 en :
  exec net stop_event k j todo1 steps1 Finished ->
  exec net stop_event
    (k + List.length steps1)%nat
    (j + List.length (slot_keys (map slot_of steps1)))%nat
    todo2 steps2 en ->
  exec net stop_event k j (todo1 ++ todo2) (steps1 ++ steps2) en.
Proof.
  intros H1. remember Finished as fin eqn:Hfin.
  induction H1; try discriminate; cbn [List.length map slot_keys flat_map app slot_of];
    intros Hrest.
  - now rewrite !Nat.add_0_r in Hrest.
  - apply exec_address; [assumption|]. apply IHexec; [assumption|].
    now rewrite <- Nat.add_succ_comm in Hrest.
  - constructor; try assumption. apply IHexec; [assumption|].
    cbn [List.length] in Hrest. now rewrite <- !Nat.add_succ_comm in Hrest.
Qed.

Lemma exec_app_early k j todo1 steps1 todo2 en :
  exec net stop_event k j todo1 steps1 en -> en <> Finished ->
  exec net stop_event k j (todo1 ++ todo2) steps1 en.
Proof.
  intros H1 Hen. induction H1; cbn; try (now constructor; auto).
  congruence.
Qed.

(** What was done and how it ended is determined by the collaborators. *)
Lemma exec_deterministic k j todo steps1 en1 steps2 en2 :
  exec net stop_event k j todo steps1 en1 ->
  exec net stop_event k j todo steps2 en2 ->
  steps1 = steps2 /\ en1 = en2.
Proof.
  intros H1. revert steps2 en2.
  induction H1; intros steps2 en2 Hother; inversion Hother; subst;
    try congruence; try (split; congruence).
  - destruct (IHexec _ _ ltac:(eassumption)) as [-> ->]. now split.
  - assert (code = code0) by congruence. subst.
    destruct (IHexec _ _ ltac:(eassumption)) as [-> ->]. now split.
Qed.

Lemma exec_codes k j todo steps en :
  exec net stop_event k j todo steps en ->
  forall n port code, In (ProbeStep n port code) steps ->
  connect_ex net (ip_text net n) port = inr code.
Proof.
  induction 1; cbn; intros n' port' code' Hin; try contradiction.
  - destruct Hin as [Hin|Hin]; [discriminate|eauto].
  - destruct Hin as [Hin|Hin]; [|eauto]. now inversion Hin; subst.
Qed.


Lemma exec_broke_inv k j todo steps e calls :
  exec net stop_event k j todo steps (Broke e calls) ->
  (calls = [IsSet false; SocketError e] /\
   exists i, socket_new net i = Some e) \/
  (exists n port,
     calls = [IsSet false; Socket; SetTimeout;
              ConnectEx (ip_text net n) port (inl e)] /\
     connect_ex net (ip_text net n) port = inl e /\
     exists rest, todo = map slot_of steps ++ PortSlot n port :: rest).
Proof.
  remember (Broke e calls) as en eqn:Hen.
  induction 1; try discriminate.
  - destruct (IHexec Hen) as [?|(n' & port' & ? & ? & rest & ->)]; [now left|].
    right. exists n', port'. repeat split; try assumption. now exists rest.
  - inversion Hen; subst. left. split; [reflexivity|eauto].
  - inversion Hen; subst. right. exists n, port. repeat split; try assumption.
    now exists todo.
  - destruct (IHexec Hen) as [?|(n' & port' & ? & ? & rest & ->)]; [now left|].
    right. exists n', port'. repeat split; try assumption. now exists rest.
Qed.

(** Without cancellation and without probe faults the loops run to
    their end. *)
Lemma exec_clean k j todo steps en :
  (forall i, stop_event i = false) ->
  (forall i, socket_new net i = None) ->
  (forall n port, In (n, port) (slot_keys todo) ->
     exists code, connect_ex net (ip_text net n) port = inr code) ->
  exec net stop_event k j todo steps en ->
  en = Finished /\ map slot_of steps = todo.
Proof.
  intros Hstop Hsock Hconn Hex.
  induction Hex as [ | | k j n todo steps en Hs Hex IH | | |
                     k j n port code todo steps en Hs Hk Hc Hex IH ]; cbn.
  - now split.
  - rewrite Hstop in *. discriminate.
  - destruct (IH Hconn) as [-> <-]. now split.
  - rewrite Hsock in *. discriminate.
  - destruct (Hconn n port) as [code Hc]; [now left|]. congruence.
  - destruct IH as [-> <-]; [|now split].
    intros m q Hin. apply Hconn. now right.
Qed.
End Exec.

(** ** The engine step by step, when the callbacks return

    The callbacks are the caller's: the statements about what the engine
    logs and delivers are made for callbacks that return, [returns].
    What [scan_ips] does with a callback that raises is shown on a run
    in the section on the delivery of the result. *)

Lemma log_if_present (log_callback : option (callback string)) line :
  match log_callback with
  | Some _ => log_if_callback log_callback line
  | None => ret tt
  end = log_if_callback log_callback line.
Proof. unfold log_if_callback. now destruct log_callback. Qed.

Lemma gtb_true a b : a > b -> (a >? b) = true.
Proof. intros H. apply Z.gtb_lt. lia. Qed.

Lemma gtb_false a b : a <= b -> (a >? b) = false.
Proof. intros H. rewrite Z.gtb_ltb. apply Z.ltb_ge. lia. Qed.

Section Returning.
Variable net : platform.
Variable verbose : bool.
Variable stop_event : stop_flag.
Variable log_callback : option (callback string).
Variable result_callback : option (callback results).
Hypothesis log_returns : returns log_callback.
Hypothesis result_returns : returns result_callback.

Lemma log_if_callback_returns line w :
  log_if_callback log_callback line w =
  (Normal tt, w ++ log_line log_callback line).
Proof.
  unfold log_if_callback, log_line.
  destruct log_callback as [cb|] eqn:E.
  - now rewrite (log_returns cb).
  - unfold ret. now rewrite app_nil_r.
Qed.

Lemma result_if_callback_returns rs w :
  result_if_callback result_callback rs w =
  (Normal tt, w ++ done_line result_callback rs).
Proof.
  unfold result_if_callback, done_line.
  destruct result_callback as [cb|] eqn:E.
  - now rewrite (result_returns cb).
  - unfold ret. now rewrite app_nil_r.
Qed.

(** The classification of a code, in either copy. *)
Lemma classify_returns (line_open line_closed : string) (acc : results)
    (pair : string * Z) (code : Z) (w : world) :
  (if code =? 0 then
     log_if_callback log_callback line_open ;; ret (acc ++ [pair])
   else
     match verbose, log_callback with
     | true, Some _ => log_if_callback log_callback line_closed
     | _, _ => ret tt
     end ;;
     ret acc) w =
  (Normal (acc ++ (if code =? 0 then [pair] else [])),
   w ++ (if code =? 0 then log_line log_callback line_open
         else if verbose then log_line log_callback line_closed
         else [])).
Proof.
  destruct (code =? 0).
  - unfold bind. now rewrite log_if_callback_returns.
  - rewrite !app_nil_r. destruct verbose.
    + unfold bind. now rewrite log_if_present, log_if_callback_returns.
    + unfold bind, ret. now rewrite app_nil_r.
Qed.

(** The equations hold for the two copies by the same unfolding. *)
Ltac stop_case :=
  unfold bind; rewrite log_if_callback_returns, result_if_callback_returns;
  cbn; now rewrite ?app_nil_r, <- ?app_assoc.

Ltac port_turn_proof :=
  split; [reflexivity|];
  intros ip port ports acc w;
  cbn [English.for_port Spanish.for_port];
  unfold bind at 1; unfold stop_event_is_set at 1;
  destruct (stop_event (checks w)); [stop_case|];
  unfold bind at 1; unfold socket_socket at 1;
  rewrite socket_calls_app;
  cbn [socket_calls filter is_socket_call List.length];
  rewrite Nat.add_0_r;
  destruct (socket_new net (socket_calls w));
  [cbn; now rewrite <- !app_assoc|];
  unfold bind at 1; unfold sock_settimeout, emit;
  unfold bind at 1; unfold sock_connect_ex at 1;
  destruct (connect_ex net ip port);
  [cbn; now rewrite <- !app_assoc|];
  unfold bind at 1; rewrite classify_returns;
  unfold bind at 1; unfold sock_close, emit;
  f_equal; cbn; now rewrite <- !app_assoc.

Lemma english_port_turn :
  port_turn net english verbose stop_event log_callback result_callback
    (English.for_port net verbose stop_event log_callback result_callback).
Proof. port_turn_proof. Qed.

Lemma spanish_port_turn :
  port_turn net spanish verbose stop_event log_callback result_callback
    (Spanish.for_port net verbose stop_event log_callback result_callback).
Proof. port_turn_proof. Qed.

Ltac address_turn_proof :=
  intros sp ep b cur acc w;
  simp while_ip;
  destruct (Z_le_gt_dec cur b) as [Hle|Hgt]; cbn;
  [ replace (cur <=? b) with true by (symmetry; apply Z.leb_le; lia);
    destruct (stop_event (checks w)); [stop_case|];
    unfold bind, ip_address_str; now rewrite <- app_assoc
  | replace (cur <=? b) with false by (symmetry; apply Z.leb_gt; lia);
    reflexivity ].

Lemma english_address_turn :
  address_turn net english stop_event log_callback result_callback
    (English.for_port net verbose stop_event log_callback result_callback)
    (English.while_ip net verbose stop_event log_callback result_callback).
Proof. address_turn_proof. Qed.

Lemma spanish_address_turn :
  address_turn net spanish stop_event log_callback result_callback
    (Spanish.for_port net verbose stop_event log_callback result_callback)
    (Spanish.while_ip net verbose stop_event log_callback result_callback).
Proof. address_turn_proof. Qed.

Ltac whole_run_proof :=
  intros start_ip end_ip sp ep;
  unfold run, English.scan_ips, Spanish.scan_ips, def, try_except;
  unfold bind at 1;
  destruct (ip_address net start_ip) as [e|a]; cbn [lift raise ret];
  [ unfold bind;
    now rewrite log_if_callback_returns, result_if_callback_returns |];
  unfold bind at 1;
  destruct (ip_address net end_ip) as [e|b]; cbn [lift raise ret];
  [ unfold bind;
    now rewrite log_if_callback_returns, result_if_callback_returns |];
  destruct (a >? b);
  [ unfold bind;
    now rewrite log_if_callback_returns, result_if_callback_returns |];
  unfold bind at 1;
  match goal with
  | |- _ = (let (_, _) := ?m in _) => destruct m as [[acc|p|e] w']
  end;
  [ unfold bind; now rewrite result_if_callback_returns
  | reflexivity
  | unfold bind;
    rewrite log_if_callback_returns, result_if_callback_returns;
    now rewrite <- app_assoc ].

Lemma english_whole_run :
  whole_run net english log_callback result_callback
    (English.while_ip net verbose stop_event log_callback result_callback)
    (fun start_ip end_ip sp ep =>
       English.scan_ips net start_ip end_ip sp ep verbose stop_event
         log_callback result_callback).
Proof. whole_run_proof. Qed.

Lemma spanish_whole_run :
  whole_run net spanish log_callback result_callback
    (Spanish.while_ip net verbose stop_event log_callback result_callback)
    (fun start_ip end_ip sp ep =>
       Spanish.scan_ips net start_ip end_ip sp ep verbose stop_event
         log_callback result_callback).
Proof. whole_run_proof. Qed.

(** *** From the equations to the anatomy of a run *)

Section Copy.
Variable lang : messages.
Variable for_port : string -> list Z -> results -> M results.
Variable while_ip : Z -> Z -> Z -> Z -> results -> M results.
Variable scan_ips : string -> string -> Z -> Z -> M path.
Hypothesis port_eq :
  port_turn net lang verbose stop_event log_callback result_callback for_port.
Hypothesis address_eq :
  address_turn net lang stop_event log_callback result_callback
    for_port while_ip.
Hypothesis run_eq :
  whole_run net lang log_callback result_callback while_ip scan_ips.

Lemma for_port_exec n ports :
  forall acc w,
  exists steps en,
    exec net stop_event (checks w) (socket_calls w)
      (map (PortSlot n) ports) steps en /\
    for_port (ip_text net n) ports acc w =
    (leave en (acc ++ opens net steps),
     w ++ render net lang verbose log_callback steps
       ++ farewell lang log_callback result_callback en
            (acc ++ opens net steps)).
Proof.
  destruct port_eq as [Hnil Hcons].
  induction ports as [|port ports IH]; intros acc w.
  - exists [], Finished. split; [constructor|].
    rewrite Hnil. cbn. now rewrite !app_nil_r.
  - rewrite Hcons. cbn [map].
    destruct (stop_event (checks w)) eqn:Hstop.
    { exists [], Stopped. split; [now apply exec_stopped|].
      cbn. now rewrite !app_nil_r. }
    destruct (socket_new net (socket_calls w)) as [e|] eqn:Hsock.
    { exists [], (Broke e [IsSet false; SocketError e]).
      split; [now apply exec_socket_error|reflexivity]. }
    destruct (connect_ex net (ip_text net n) port) as [e|code] eqn:Hconn.
    { eexists [], (Broke e _).
      split; [now apply exec_connect_error|reflexivity]. }
    match goal with
    | |- context [for_port _ ports ?a ?w'] =>
        destruct (IH a w') as (steps & en & Hex & Heq)
    end.
    exists (ProbeStep n port code :: steps), en. split.
    + apply exec_probe; try assumption.
      rewrite !checks_app, !socket_calls_app in Hex.
      change (if code =? 0 then _ else _)
        with (probe_log net lang verbose log_callback n port code) in Hex.
      rewrite (proj1 (counters_probe_log _ _ _ _ _ _ _)) in Hex.
      rewrite (proj2 (counters_probe_log _ _ _ _ _ _ _)) in Hex.
      cbn in Hex. now rewrite !Nat.add_1_r, ?Nat.add_0_r in Hex.
    + rewrite Heq. cbn [opens render flat_map render_step found].
      now rewrite <- !app_assoc.
Qed.

Lemma while_ip_exec sp ep b :
  forall (k : nat) cur acc w,
  Z.to_nat (b + 1 - cur) = k ->
  exists steps en,
    exec net stop_event (checks w) (socket_calls w)
      (schedule cur b sp ep) steps en /\
    while_ip sp ep b cur acc w =
    (leave en (acc ++ opens net steps),
     w ++ render net lang verbose log_callback steps
       ++ farewell lang log_callback result_callback en
            (acc ++ opens net steps)).
Proof.
  induction k as [|k IH]; intros cur acc w Hk; rewrite address_eq.
  - replace (cur <=? b) with false by (symmetry; apply Z.leb_gt; lia).
    exists [], Finished. rewrite schedule_nil by lia. split; [constructor|].
    cbn. now rewrite !app_nil_r.
  - replace (cur <=? b) with true by (symmetry; apply Z.leb_le; lia).
    rewrite schedule_cons by lia.
    destruct (stop_event (checks w)) eqn:Hstop.
    { exists [], Stopped. split; [now apply exec_stopped|].
      cbn. now rewrite !app_nil_r. }
    destruct (for_port_exec cur (range sp (ep + 1)) acc
                (w ++ [IsSet false; AddrText cur]))
      as (steps1 & en1 & Hex1 & Heq1).
    rewrite Heq1.
    rewrite checks_app, socket_calls_app in Hex1. cbn in Hex1.
    rewrite Nat.add_1_r, Nat.add_0_r in Hex1.
    destruct en1 as [| |e calls]; cbn [leave farewell].
    + match goal with
      | |- context [while_ip _ _ _ _ ?a ?w'] =>
          destruct (IH (cur + 1) a w' ltac:(lia))
            as (steps2 & en2 & Hex2 & Heq2)
      end.
      exists (AddressStep cur :: steps1 ++ steps2), en2. split.
      * apply exec_address; [assumption|].
        apply (exec_app_finished _ _ _ _ _ _ _ _ _ Hex1).
        rewrite !checks_app, !socket_calls_app in Hex2.
        rewrite checks_render, socket_calls_render in Hex2.
        cbn in Hex2.
        now rewrite !Nat.add_0_r, !Nat.add_1_r in Hex2.
      * rewrite Heq2. cbn [opens render flat_map render_step found app].
        unfold opens, render.
        rewrite !flat_map_app, !app_nil_r, <- !app_assoc. reflexivity.
    + exists (AddressStep cur :: steps1), Stopped. split.
      * apply exec_address; [assumption|].
        apply (exec_app_early _ _ _ _ _ _ _ _ Hex1). discriminate.
      * cbn [opens render flat_map render_step found app farewell].
        now rewrite <- !app_assoc.
    + exists (AddressStep cur :: steps1), (Broke e calls). split.
      * apply exec_address; [assumption|].
        apply (exec_app_early _ _ _ _ _ _ _ _ Hex1). discriminate.
      * cbn [opens render flat_map render_step found app farewell].
        now rewrite <- !app_assoc.
Qed.

Lemma copy_anatomy start_ip end_ip sp ep :
  anatomy net lang verbose stop_event log_callback result_callback
    start_ip end_ip sp ep (run (scan_ips start_ip end_ip sp ep)).
Proof.
  rewrite run_eq.
  destruct (ip_address net start_ip) as [e|a] eqn:Hstart.
  { apply unparsed. now left. }
  destruct (ip_address net end_ip) as [e|b] eqn:Hend.
  { apply unparsed. right. eauto. }
  destruct (Z_le_gt_dec a b) as [Hab|Hab].
  - rewrite gtb_false by assumption.
    destruct (while_ip_exec sp ep b _ a [] [] eq_refl)
      as (steps & en & Hex & Heq).
    rewrite Heq.
    pose proof (scanned net lang verbose stop_event log_callback
                  result_callback start_ip end_ip sp ep a b steps en
                  Hstart Hend Hab Hex) as Hscan.
    destruct en as [| |e calls]; cbn in *.
    + now rewrite !app_nil_r.
    + assumption.
    + now rewrite <- !app_assoc.
  - rewrite gtb_true by assumption.
    now apply (misordered net lang verbose stop_event log_callback
                 result_callback start_ip end_ip sp ep a b).
Qed.
End Copy.
End Returning.


(** The two copies satisfy the equations, hence have the anatomy. *)
Section Copies.
Variable net : platform.
Variable verbose : bool.
Variable stop_event : stop_flag.
Variable log_callback : option (callback string).
Variable result_callback : option (callback results).
Hypothesis log_returns : returns log_callback.
Hypothesis result_returns : returns result_callback.

Lemma english_anatomy start_ip end_ip sp ep :
  anatomy net english verbose stop_event log_callback result_callback
    start_ip end_ip sp ep
    (run (English.scan_ips net start_ip end_ip sp ep verbose stop_event
            log_callback result_callback)).
Proof.
  apply (copy_anatomy net verbose stop_event log_callback result_callback
           english
           (English.for_port net verbose stop_event log_callback
              result_callback)
           (English.while_ip net verbose stop_event log_callback
              result_callback)
           (fun start_ip end_ip sp ep =>
              English.scan_ips net start_ip end_ip sp ep verbose stop_event
                log_callback result_callback)).
  - now apply english_port_turn.
  - now apply english_address_turn.
  - now apply english_whole_run.
Qed.

Lemma spanish_anatomy start_ip end_ip sp ep :
  anatomy net spanish verbose stop_event log_callback result_callback
    start_ip end_ip sp ep
    (run (Spanish.scan_ips net start_ip end_ip sp ep verbose stop_event
            log_callback result_callback)).
Proof.
  apply (copy_anatomy net verbose stop_event log_callback result_callback
           spanish
           (Spanish.for_port net verbose stop_event log_callback
              result_callback)
           (Spanish.while_ip net verbose stop_event log_callback
              result_callback)
           (fun start_ip end_ip sp ep =>
              Spanish.scan_ips net start_ip end_ip sp ep verbose stop_event
                log_callback result_callback)).
  - now apply spanish_port_turn.
  - now apply spanish_address_turn.
  - now apply spanish_whole_run.
Qed.
End Copies.

(** ** Reading the trace of a run *)

Lemma dones_app w1 w2 : dones (w1 ++ w2) = dones w1 ++ dones w2.
Proof. apply flat_map_app. Qed.

Lemma log_lines_app w1 w2 : log_lines (w1 ++ w2) = log_lines w1 ++ log_lines w2.
Proof. apply flat_map_app. Qed.

Lemma probes_app w1 w2 : probes (w1 ++ w2) = probes w1 ++ probes w2.
Proof. apply flat_map_app. Qed.

Lemma opened_app w1 w2 : opened (w1 ++ w2) = opened w1 ++ opened w2.
Proof. apply flat_map_app. Qed.

Lemma closed_app w1 w2 : closed (w1 ++ w2) = closed w1 ++ closed w2.
Proof. apply flat_map_app. Qed.



Section Readers.
Variable net : platform.
Variable lang : messages.
Variable verbose : bool.
Variable log_callback : option (callback string).
Variable result_callback : option (callback results).

Lemma log_line_quiet line :
  dones (log_line log_callback line) = [] /\
  probes (log_line log_callback line) = [] /\
  opened (log_line log_callback line) = [] /\
  closed (log_line log_callback line) = [] /\
  sockets_open (log_line log_callback line) = 0.
Proof. unfold log_line. destruct log_callback; now cbn. Qed.

Lemma done_line_quiet rs :
  log_lines (done_line result_callback rs) = [] /\
  probes (done_line result_callback rs) = [] /\
  opened (done_line result_callback rs) = [] /\
  closed (done_line result_callback rs) = [] /\
  sockets_open (done_line result_callback rs) = 0.
Proof. unfold done_line. destruct result_callback; now cbn. Qed.


Lemma probe_log_quiet n port code :
  dones (probe_log net lang verbose log_callback n port code) = [] /\
  probes (probe_log net lang verbose log_callback n port code) = [] /\
  opened (probe_log net lang verbose log_callback n port code) = [] /\
  closed (probe_log net lang verbose log_callback n port code) = [] /\
  sockets_open (probe_log net lang verbose log_callback n port code) = 0.
Proof.
  unfold probe_log. destruct (code =? 0); [apply log_line_quiet|].
  destruct verbose; [apply log_line_quiet|]. now cbn.
Qed.

Lemma render_cons s steps :
  render net lang verbose log_callback (s :: steps) =
  render_step net lang verbose log_callback s
    ++ render net lang verbose log_callback steps.
Proof. reflexivity. Qed.

Lemma dones_render steps :
  dones (render net lang verbose log_callback steps) = [].
Proof.
  induction steps as [|[n|n port code] steps IH]; [reflexivity| |];
    rewrite render_cons, dones_app, IH; cbn [render_step].
  - reflexivity.
  - rewrite !dones_app, (proj1 (probe_log_quiet n port code)). reflexivity.
Qed.

Lemma opened_render steps :
  opened (render net lang verbose log_callback steps) = opens net steps.
Proof.
  induction steps as [|[n|n port code] steps IH]; [reflexivity| |];
    rewrite render_cons, opened_app, IH; cbn [render_step opens flat_map found].
  - reflexivity.
  - rewrite !opened_app, (proj1 (proj2 (proj2 (probe_log_quiet n port code)))).
    cbn. now rewrite !app_nil_r.
Qed.

Lemma closed_render steps :
  closed (render net lang verbose log_callback steps) =
  flat_map
    (fun s =>
       match s with
       | ProbeStep n port code =>
           if code =? 0 then [] else [(ip_text net n, port)]
       | AddressStep _ => []
       end)
    steps.
Proof.
  induction steps as [|[n|n port code] steps IH]; [reflexivity| |];
    rewrite render_cons, closed_app, IH; cbn [render_step flat_map].
  - reflexivity.
  - rewrite !closed_app,
      (proj1 (proj2 (proj2 (proj2 (probe_log_quiet n port code))))).
    cbn. now rewrite !app_nil_r.
Qed.

Lemma probes_render steps :
  probes (render net lang verbose log_callback steps) =
  map (text_pair net) (slot_keys (map slot_of steps)).
Proof.
  induction steps as [|[n|n port code] steps IH]; [reflexivity| |];
    rewrite render_cons, probes_app, IH;
    cbn [render_step map slot_keys flat_map slot_of].
  - reflexivity.
  - rewrite !probes_app, (proj1 (proj2 (probe_log_quiet n port code))).
    reflexivity.
Qed.


Lemma opens_text steps :
  opens net steps = map (text_pair net) (open_keys steps).
Proof.
  induction steps as [|[n|n port code] steps IH]; cbn [opens open_keys flat_map].
  - reflexivity.
  - assumption.
  - rewrite map_app. fold (opens net steps). rewrite IH.
    cbn [found]. now destruct (code =? 0).
Qed.

End Readers.

(** The calls of a broken probe deliver nothing and find nothing. *)
Lemma broke_quiet net stop_event k j todo steps e calls :
  exec net stop_event k j todo steps (Broke e calls) ->
  dones calls = [] /\ opened calls = [] /\ closed calls = [] /\
  log_lines calls = [] /\ ~ In (IsSet true) calls.
Proof.
  intros H. apply exec_broke_inv in H.
  destruct H as [[-> _]|(n & port & -> & _)]; cbn;
    repeat split; intuition discriminate.
Qed.

(** ** Runs in which no callback raises

    A run that leaves by one of the three [return]s of the [try] block
    met no exception, so its callbacks returned each time they were
    called: it is the run the engine makes with callbacks that always
    return. *)

Lemma settle_returns {A} (cb : option (callback A)) : returns (settle cb).
Proof. intros f Hf w a. destruct cb; inversion Hf. reflexivity. Qed.

Lemma log_line_settle cb line : log_line (settle cb) line = log_line cb line.
Proof. now destruct cb. Qed.

Lemma done_line_settle cb rs : done_line (settle cb) rs = done_line cb rs.
Proof. now destruct cb. Qed.

Lemma agree_refl {A} (m : M A) : agree m m.
Proof. intros w. now left. Qed.

Lemma agree_bind {A B} (m m' : M A) (k k' : A -> M B) :
  agree m m' -> (forall a, agree (k a) (k' a)) ->
  agree (bind m k) (bind m' k').
Proof.
  intros Hm Hk w. unfold bind. destruct (Hm w) as [<-|(e & w' & ->)].
  - destruct (m w) as [[a|p|e] w']; [apply Hk|now left|now left].
  - right. eauto.
Qed.

Lemma agree_log log_callback line :
  agree (log_if_callback log_callback line)
        (log_if_callback (settle log_callback) line).
Proof.
  intros w. unfold log_if_callback, settle.
  destruct log_callback as [f|]; [|now left].
  destruct (f w line); [right; eauto|now left].
Qed.

Lemma agree_result result_callback rs :
  agree (result_if_callback result_callback rs)
        (result_if_callback (settle result_callback) rs).
Proof.
  intros w. unfold result_if_callback, settle.
  destruct result_callback as [f|]; [|now left].
  destruct (f w rs); [right; eauto|now left].
Qed.

(** What the handler of [scan_ips] gives: the path [Faulted], or the
    exception of a callback. *)
Lemma handler_outcome log_callback result_callback line e w :
  (exists w', bind (log_if_callback log_callback line)
                (fun _ => bind (result_if_callback result_callback [])
                            (fun _ => ret (Faulted e))) w
              = (Normal (Faulted e), w')) \/
  (exists e' w', bind (log_if_callback log_callback line)
                   (fun _ => bind (result_if_callback result_callback [])
                               (fun _ => ret (Faulted e))) w
                 = (Raise e', w')).
Proof.
  unfold bind, log_if_callback, result_if_callback, ret.
  destruct log_callback as [f|].
  - destruct (f w line); [right; eauto|].
    destruct result_callback as [g|]; [|left; eauto].
    destruct (g _ []); [right|left]; eauto.
  - destruct result_callback as [g|]; [|left; eauto].
    destruct (g _ []); [right|left]; eauto.
Qed.

Section Settled.
Variable net : platform.
Variable verbose : bool.
Variable stop_event : stop_flag.
Variable log_callback : option (callback string).
Variable result_callback : option (callback results).

Lemma agree_for_port ip ports :
  forall acc,
  agree
    (English.for_port net verbose stop_event log_callback result_callback
       ip ports acc)
    (English.for_port net verbose stop_event (settle log_callback)
       (settle result_callback) ip ports acc).
Proof.
  induction ports as [|port ports IH]; intros acc; cbn [English.for_port].
  - apply agree_refl.
  - apply agree_bind; [apply agree_refl|]. intros [|].
    + apply agree_bind; [apply agree_log|]. intros _.
      apply agree_bind; [apply agree_result|]. intros _. apply agree_refl.
    + apply agree_bind; [apply agree_refl|]. intros _.
      apply agree_bind; [apply agree_refl|]. intros _.
      apply agree_bind; [apply agree_refl|]. intros code.
      apply agree_bind.
      * destruct (code =? 0).
        -- apply agree_bind; [apply agree_log|]. intros _. apply agree_refl.
        -- apply agree_bind; [|intros _; apply agree_refl].
           destruct verbose; [|apply agree_refl].
           destruct log_callback; [apply agree_log|apply agree_refl].
      * intros acc'. apply agree_bind; [apply agree_refl|]. intros _.
        apply IH.
Qed.

Lemma agree_while_body sp ep cur acc :
  agree
    (English.while_body net verbose stop_event log_callback result_callback
       sp ep cur acc)
    (English.while_body net verbose stop_event (settle log_callback)
       (settle result_callback) sp ep cur acc).
Proof.
  unfold English.while_body.
  apply agree_bind; [apply agree_refl|]. intros [|].
  - apply agree_bind; [apply agree_log|]. intros _.
    apply agree_bind; [apply agree_result|]. intros _. apply agree_refl.
  - apply agree_bind; [apply agree_refl|]. intros ip. apply agree_for_port.
Qed.

Lemma while_ip_unfold log result sp ep b cur acc w :
  English.while_ip net verbose stop_event log result sp ep b cur acc w =
  if cur <=? b then
    match English.while_body net verbose stop_event log result
            sp ep cur acc w with
    | (Normal acc', w') =>
        English.while_ip net verbose stop_event log result
          sp ep b (cur + 1) acc' w'
    | r => r
    end
  else (Normal acc, w).
Proof.
  simp while_ip. destruct (Z_le_gt_dec cur b) as [Hle|Hgt].
  - replace (cur <=? b) with true by (symmetry; apply Z.leb_le; lia).
    reflexivity.
  - replace (cur <=? b) with false by (symmetry; apply Z.leb_gt; lia).
    reflexivity.
Qed.

Lemma agree_while_ip sp ep b :
  forall (k : nat) cur acc,
  Z.to_nat (b + 1 - cur) = k ->
  agree
    (English.while_ip net verbose stop_event log_callback result_callback
       sp ep b cur acc)
    (English.while_ip net verbose stop_event (settle log_callback)
       (settle result_callback) sp ep b cur acc).
Proof.
  induction k as [|k IH]; intros cur acc Hk w; rewrite !while_ip_unfold;
    destruct (cur <=? b) eqn:Hcur; try (now left).
  - apply Z.leb_le in Hcur. lia.
  - apply Z.leb_le in Hcur.
    destruct (agree_while_body sp ep cur acc w) as [<-|(e & w' & ->)].
    + destruct (English.while_body _ _ _ _ _ _ _ _ _ _) as [[acc'|p|e] w'];
        [|now left|now left].
      apply IH. lia.
    + right. eauto.
Qed.

(** A run that ends by completion, cancellation or the usage error is the
    run with the callbacks settled. *)
Lemma scan_ips_settled start_ip end_ip sp ep p tr :
  run (English.scan_ips net start_ip end_ip sp ep verbose stop_event
         log_callback result_callback) = (Normal p, tr) ->
  p = Completed \/ p = Cancelled \/ p = UsageError ->
  run (English.scan_ips net start_ip end_ip sp ep verbose stop_event
         (settle log_callback) (settle result_callback)) = (Normal p, tr).
Proof.
  unfold run, English.scan_ips, def, try_except.
  match goal with
  | |- context [let (_, _) := let (_, _) := ?body [] in _ in _] =>
      set (real := body)
  end.
  match goal with
  | |- context [let (_, _) := let (_, _) := ?body [] in _ in _] =>
      lazymatch body with
      | real => fail
      | _ => set (settled := body)
      end
  end.
  assert (Hagree : agree real settled).
  { subst real settled.
    apply agree_bind; [apply agree_refl|]. intros a.
    apply agree_bind; [apply agree_refl|]. intros b.
    destruct (a >? b).
    - apply agree_bind; [apply agree_log|]. intros _.
      apply agree_bind; [apply agree_result|]. intros _. apply agree_refl.
    - apply agree_bind.
      + intros w. now apply (agree_while_ip sp ep b _ a [] eq_refl).
      + intros acc. apply agree_bind; [apply agree_result|]. intros _.
        apply agree_refl. }
  destruct (Hagree []) as [<-|(e & w' & ->)].
  - destruct (real []) as [[q|q|e] w']; try (intros; assumption).
    intros Hrun Hp. exfalso.
    destruct (handler_outcome log_callback result_callback
                (English.msg_fault e) e w')
      as [(w1 & Hh)|(e1 & w1 & Hh)]; rewrite Hh in Hrun.
    + inversion Hrun; subst. destruct Hp as [Hp|[Hp|Hp]]; discriminate.
    + discriminate.
  - intros Hrun Hp. exfalso.
    destruct (handler_outcome log_callback result_callback
                (English.msg_fault e) e w')
      as [(w1 & Hh)|(e1 & w1 & Hh)]; rewrite Hh in Hrun.
    + inversion Hrun; subst. destruct Hp as [Hp|[Hp|Hp]]; discriminate.
    + discriminate.
Qed.
End Settled.

(** ** Delivery of the result (C1), the usage error (C6) *)

Lemma accepting_returns {A} : returns (Some (@accepting A)).
Proof. intros f Hf w a. now inversion Hf. Qed.

(** The last calls of a run deliver one list. *)
Lemma dones_epilogue net stop_event k j todo steps lang log_callback cb en acc :
  exec net stop_event k j todo steps en ->
  dones (epilogue lang log_callback (Some cb) en acc) =
  [match en with Broke _ _ => [] | _ => acc end].
Proof.
  intros Hex. destruct en as [| |e calls]; cbn [epilogue farewell].
  - reflexivity.
  - cbn. rewrite dones_app, (proj1 (log_line_quiet log_callback _)).
    reflexivity.
  - rewrite !dones_app, (proj1 (log_line_quiet log_callback _)).
    now rewrite (proj1 (broke_quiet _ _ _ _ _ _ _ _ Hex)).
Qed.

Lemma opened_epilogue net stop_event k j todo steps lang log_callback
    result_callback en acc :
  exec net stop_event k j todo steps en ->
  opened (epilogue lang log_callback result_callback en acc) = [].
Proof.
  intros Hex. destruct en as [| |e calls]; cbn [epilogue farewell].
  - apply done_line_quiet.
  - change (IsSet true :: ?l) with ([IsSet true] ++ l).
    rewrite !opened_app.
    rewrite (proj1 (proj2 (proj2 (log_line_quiet _ _)))).
    now rewrite (proj1 (proj2 (proj2 (done_line_quiet _ _)))).
  - rewrite !opened_app.
    rewrite (proj1 (proj2 (proj2 (log_line_quiet _ _)))).
    rewrite (proj1 (proj2 (proj2 (done_line_quiet _ _)))).
    destruct (broke_quiet _ _ _ _ _ _ _ _ Hex) as (_ & -> & _).
    reflexivity.
Qed.

(** C1 (amended): with callbacks that themselves return, every call of
    [scan_ips] with a [result_callback] invokes it exactly once and
    returns normally: no exception escapes, whichever way the run goes.
    A run that completes or is cancelled delivers the pairs found open;
    the usage error and a fault (in parsing an address or in a probe)
    deliver the empty list. *)
Theorem scan_ips_delivers_once net start_ip end_ip sp ep verbose stop_event
    log_callback cb :
  returns log_callback -> returns (Some cb) ->
  exists p tr rs,
    run (English.scan_ips net start_ip end_ip sp ep verbose stop_event
           log_callback (Some cb)) = (Normal p, tr) /\
    dones tr = [rs] /\
    rs = match p with
         | Completed | Cancelled => opened tr
         | UsageError | Faulted _ => []
         end.
Proof.
  intros Hlog Hres.
  pose proof (english_anatomy net verbose stop_event log_callback (Some cb)
                Hlog Hres start_ip end_ip sp ep) as H.
  destruct H as [e _|a b _ _ _|a b steps en _ _ _ Hex].
  - do 3 eexists. split; [reflexivity|]. split; [|reflexivity].
    now rewrite dones_app, (proj1 (log_line_quiet log_callback _)).
  - do 3 eexists. split; [reflexivity|]. split; [|reflexivity].
    now rewrite dones_app, (proj1 (log_line_quiet log_callback _)).
  - do 3 eexists. split; [reflexivity|]. split.
    + rewrite dones_app, dones_render. cbn [app].
      apply (dones_epilogue _ _ _ _ _ _ _ _ _ _ _ Hex).
    + rewrite opened_app, opened_render,
        (opened_epilogue _ _ _ _ _ _ _ _ _ _ _ Hex), app_nil_r.
      now destruct en.
Qed.

Lemma scan_ips_delivers_once_witness :
  exists p tr rs,
    run (English.scan_ips (IPv4.network None IPv4.web_only)
           "192.168.1.10" "192.168.1.11" 79 81 true never_set
           (Some accepting) (Some accepting)) = (Normal p, tr) /\
    dones tr = [rs] /\
    rs = match p with
         | Completed | Cancelled => opened tr
         | UsageError | Faulted _ => []
         end.
Proof.
  apply scan_ips_delivers_once; apply accepting_returns.
Defined.

(** C1, as stated, fails when the callback itself raises: here
    [result_callback] raises on every call, as a callback that posts to
    a user interface already shut down does.  The engine calls it with
    the results, catches its exception, calls it again with the empty
    list, and lets the second exception escape. *)
Lemma scan_ips_raising_callback_called_twice :
  let gone := Exception "main thread is not in main loop" in
  let r :=
    run (English.scan_ips (IPv4.network None IPv4.all_open)
           "10.0.0.1" "10.0.0.1" 80 80 false never_set
           None (Some (fun _ _ => Some gone))) in
  fst r = Raise gone /\ dones (snd r) = [[("10.0.0.1", 80)]; []].
Proof. vm_compute. split; reflexivity. Qed.





(** ** Order of discovery (C3) and number of probes (C4) *)

Lemma sorted_app {A} (R : A -> A -> Prop) l1 l2 :
  StronglySorted R l1 -> StronglySorted R l2 ->
  (forall x y, In x l1 -> In y l2 -> R x y) ->
  StronglySorted R (l1 ++ l2).
Proof.
  induction 1 as [|x l1 Hs IH Hx]; intros H2 Hcross; cbn.
  - assumption.
  - constructor.
    + apply IH; [assumption|]. intros u v Hu Hv. apply Hcross; cbn; auto.
    + apply Forall_app. split; [assumption|].
      apply Forall_forall. intros v Hv. apply Hcross; cbn; auto.
Qed.

Lemma sorted_range lo hi : StronglySorted Z.lt (range lo hi).
Proof.
  remember (Z.to_nat (hi - lo)) as k eqn:Hk. revert lo Hk.
  induction k as [|k IH]; intros lo Hk.
  - rewrite range_nil by lia. constructor.
  - rewrite range_cons by lia. constructor.
    + apply IH. lia.
    + apply Forall_forall. intros x Hx. apply in_range in Hx. lia.
Qed.

Lemma slot_keys_app t1 t2 : slot_keys (t1 ++ t2) = slot_keys t1 ++ slot_keys t2.
Proof. apply flat_map_app. Qed.

Lemma slot_keys_port_slots n sp ep :
  slot_keys (port_slots n sp ep) = map (pair n) (range sp (ep + 1)).
Proof.
  unfold port_slots. induction (range sp (ep + 1)) as [|p l IH]; cbn.
  - reflexivity.
  - now rewrite <- IH.
Qed.

Lemma in_slot_keys_schedule a b sp ep n port :
  In (n, port) (slot_keys (schedule a b sp ep)) <->
  a <= n <= b /\ sp <= port <= ep.
Proof.
  unfold schedule, slot_keys. rewrite in_flat_map. split.
  - intros (s & Hs & Hin). apply in_flat_map in Hs.
    destruct Hs as (m & Hm & Hs). apply in_range in Hm.
    destruct Hs as [<-|Hs]; [contradiction|].
    unfold port_slots in Hs. apply in_map_iff in Hs.
    destruct Hs as (q & <- & Hq). apply in_range in Hq.
    destruct Hin as [Hin|[]]. inversion Hin; subst. lia.
  - intros [Hn Hp]. exists (PortSlot n port). split; [|now left].
    apply in_flat_map. exists n. split; [apply in_range; lia|].
    right. unfold port_slots. apply in_map. apply in_range. lia.
Qed.

Lemma sorted_slot_keys_schedule a b sp ep :
  StronglySorted pair_lt (slot_keys (schedule a b sp ep)).
Proof.
  remember (Z.to_nat (b + 1 - a)) as k eqn:Hk. revert a Hk.
  induction k as [|k IH]; intros a Hk.
  - rewrite schedule_nil by lia. constructor.
  - rewrite schedule_cons by lia. cbn [slot_keys flat_map app].
    fold (slot_keys (port_slots a sp ep ++ schedule (a + 1) b sp ep)).
    rewrite slot_keys_app, slot_keys_port_slots. apply sorted_app.
    + pose proof (sorted_range sp (ep + 1)) as Hs.
      induction Hs as [|p l Hs IHs Hp]; cbn; constructor.
      * assumption.
      * apply Forall_forall. intros [n q] Hq. apply in_map_iff in Hq.
        destruct Hq as (q' & Hq' & Hin). inversion Hq'; subst.
        rewrite Forall_forall in Hp. right. cbn. split; [reflexivity|auto].
    + apply IH. lia.
    + intros [n p] [m q] Hx Hy. apply in_map_iff in Hx.
      destruct Hx as (p' & Hp' & _). inversion Hp'; subst.
      apply in_slot_keys_schedule in Hy. left. cbn. lia.
Qed.

Section Keys.
Variable net : platform.
Variable stop_event : stop_flag.

(** The open pairs are found among the work, in its order. *)
Lemma exec_open_keys k j todo steps en :
  exec net stop_event k j todo steps en ->
  incl (open_keys steps) (slot_keys todo) /\
  (StronglySorted pair_lt (slot_keys todo) ->
   StronglySorted pair_lt (open_keys steps)).
Proof.
  induction 1 as [ | | k j n todo steps en Hs Hex [IHi IHs] | | |
                   k j n port code todo steps en Hs Hk Hc Hex [IHi IHs] ];
    cbn [open_keys slot_keys flat_map app].
  - split; [apply incl_refl|auto].
  - split; [apply incl_nil_l|constructor].
  - split; assumption.
  - split; [apply incl_nil_l|constructor].
  - split; [apply incl_nil_l|constructor].
  - fold (open_keys steps). fold (slot_keys todo).
    destruct (code =? 0); cbn [app].
    + split.
      * apply incl_cons; [now left|]. now apply incl_tl.
      * intros Hsorted. inversion Hsorted as [|x l Hl Hx]; subst.
        constructor; [auto|]. apply Forall_forall. intros y Hy.
        rewrite Forall_forall in Hx. auto.
    + split.
      * now apply incl_tl.
      * intros Hsorted. inversion Hsorted; subst. auto.
Qed.

Lemma exec_open_codes k j todo steps en :
  exec net stop_event k j todo steps en ->
  forall n port, In (n, port) (open_keys steps) ->
  connect_ex net (ip_text net n) port = inr 0.
Proof.
  intros Hex n port Hin. unfold open_keys in Hin. apply in_flat_map in Hin.
  destruct Hin as ([m|m q code] & Hs & Hin); [contradiction|].
  destruct (code =? 0) eqn:Hcode; [|contradiction].
  destruct Hin as [Hin|[]]. inversion Hin; subst.
  apply Z.eqb_eq in Hcode. subst.
  apply (exec_codes _ _ _ _ _ _ _ Hex _ _ _ Hs).
Qed.
End Keys.

(** C3: in every run that completes or is cancelled, the list handed to
    [result_callback] is exactly the pairs whose [connect_ex] returned 0
    (Open), in the order they were probed: ascending by address as an
    integer, then by port.  No pair whose probe returned another code or
    raised is in it. *)
Theorem scan_ips_outcome_open_in_order net start_ip end_ip sp ep verbose
    stop_event log_callback cb p tr :
  run (English.scan_ips net start_ip end_ip sp ep verbose stop_event
         log_callback (Some cb)) = (Normal p, tr) ->
  p = Completed \/ p = Cancelled ->
  exists a b keys,
    ip_address net start_ip = inr a /\ ip_address net end_ip = inr b /\
    dones tr = [map (text_pair net) keys] /\
    map (text_pair net) keys = opened tr /\
    StronglySorted pair_lt keys /\
    Forall
      (fun key =>
         a <= fst key <= b /\ sp <= snd key <= ep /\
         connect_ex net (ip_text net (fst key)) (snd key) = inr 0)
      keys.
Proof.
  intros Hrun Hp.
  apply scan_ips_settled in Hrun; [|tauto].
  pose proof (english_anatomy net verbose stop_event (settle log_callback)
                (settle (Some cb)) (settle_returns _) (settle_returns _)
                start_ip end_ip sp ep) as H.
  rewrite Hrun in H. cbn [settle] in H.
  inversion H as [e _ Heq|a b _ _ _ Heq|a b steps en Ha Hb Hab Hex Heq];
    subst.
  - destruct Hp; discriminate.
  - destruct Hp; discriminate.
  - exists a, b, (open_keys steps).
    destruct (exec_open_keys _ _ _ _ _ _ _ Hex) as [Hincl Hsorted].
    assert (Hend : en = Finished \/ en = Stopped).
    { destruct en; cbn in Hp; auto. destruct Hp; discriminate. }
    repeat split; try assumption.
    + rewrite dones_app, dones_render. cbn [app].
      rewrite (dones_epilogue _ _ _ _ _ _ _ _ _ _ _ Hex), opens_text.
      now destruct Hend as [-> | ->].
    + rewrite opened_app, opened_render, opens_text,
        (opened_epilogue _ _ _ _ _ _ _ _ _ _ _ Hex).
      now rewrite app_nil_r.
    + apply Hsorted, sorted_slot_keys_schedule.
    + apply Forall_forall. intros [n port] Hin. cbn [fst snd].
      pose proof (Hincl _ Hin) as Hwork.
      apply in_slot_keys_schedule in Hwork.
      pose proof (exec_open_codes _ _ _ _ _ _ _ Hex _ _ Hin). tauto.
Qed.

(** The example of the specification: addresses 10.0.0.1 to 10.0.0.2,
    ports 80 to 81, everything open. *)
Lemma scan_ips_outcome_open_in_order_witness :
  exists a b keys,
    IPv4.parse "10.0.0.1" = inr a /\ IPv4.parse "10.0.0.2" = inr b /\
    [[("10.0.0.1", 80); ("10.0.0.1", 81); ("10.0.0.2", 80); ("10.0.0.2", 81)]]
    = [map (text_pair (IPv4.network None IPv4.all_open)) keys] /\
    map (text_pair (IPv4.network None IPv4.all_open)) keys =
    [("10.0.0.1", 80); ("10.0.0.1", 81); ("10.0.0.2", 80); ("10.0.0.2", 81)] /\
    StronglySorted pair_lt keys /\
    Forall
      (fun key =>
         a <= fst key <= b /\ 80 <= snd key <= 81 /\
         connect_ex (IPv4.network None IPv4.all_open)
           (IPv4.dotted (fst key)) (snd key) = inr 0)
      keys.
Proof.
  apply (scan_ips_outcome_open_in_order (IPv4.network None IPv4.all_open)
           "10.0.0.1" "10.0.0.2" 80 81 false never_set (Some accepting)
           accepting Completed
           (snd (run (English.scan_ips (IPv4.network None IPv4.all_open)
                        "10.0.0.1" "10.0.0.2" 80 81 false never_set
                        (Some accepting) (Some accepting))))).
  - vm_compute. reflexivity.
  - left. reflexivity.
Defined.

Lemma length_slot_keys_schedule a b sp ep :
  List.length (slot_keys (schedule a b sp ep)) =
  (Z.to_nat (b + 1 - a) * Z.to_nat (ep + 1 - sp))%nat.
Proof.
  remember (Z.to_nat (b + 1 - a)) as k eqn:Hk. revert a Hk.
  induction k as [|k IH]; intros a Hk.
  - rewrite schedule_nil by lia. reflexivity.
  - rewrite schedule_cons by lia. cbn [slot_keys flat_map app].
    fold (slot_keys (port_slots a sp ep ++ schedule (a + 1) b sp ep)).
    rewrite slot_keys_app, slot_keys_port_slots, length_app, length_map.
    rewrite range_length, (IH (a + 1)) by lia. cbn [Nat.mul]. reflexivity.
Qed.

(** C4 (amended), for callbacks that return: for a valid range of
    addresses [a <= b] and of ports [sp <= ep], a run that is not
    cancelled and meets no probe fault completes after exactly
    [(b - a + 1) * (ep - sp + 1)] connection attempts, one to each pair
    of the range in order; one address and one port make one probe. *)
Theorem scan_ips_probe_count net start_ip end_ip sp ep verbose stop_event
    log_callback result_callback a b :
  returns log_callback -> returns result_callback ->
  ip_address net start_ip = inr a -> ip_address net end_ip = inr b ->
  a <= b -> sp <= ep ->
  (forall k, stop_event k = false) ->
  (forall k, socket_new net k = None) ->
  (forall n port, a <= n <= b -> sp <= port <= ep ->
     exists code, connect_ex net (ip_text net n) port = inr code) ->
  exists tr,
    run (English.scan_ips net start_ip end_ip sp ep verbose stop_event
           log_callback result_callback) = (Normal Completed, tr) /\
    probes tr = map (text_pair net) (slot_keys (schedule a b sp ep)) /\
    Z.of_nat (List.length (probes tr)) = (b - a + 1) * (ep - sp + 1) /\
    (a = b -> sp = ep -> List.length (probes tr) = 1%nat).
Proof.
  intros Hlog Hres Ha Hb Hab Hports Hstop Hsock Hconn.
  pose proof (english_anatomy net verbose stop_event log_callback
                result_callback Hlog Hres start_ip end_ip sp ep) as H.
  destruct H as [e [He|[_ He]]|a' b' Ha' Hb' Hab'|a' b' steps en Ha' Hb' _ Hex].
  - congruence.
  - congruence.
  - assert (a' = a) by congruence. assert (b' = b) by congruence. lia.
  - assert (a' = a) by congruence. assert (b' = b) by congruence. subst a' b'.
    assert (Hwork : forall n port,
              In (n, port) (slot_keys (schedule a b sp ep)) ->
              exists code, connect_ex net (ip_text net n) port = inr code).
    { intros n port Hin. apply in_slot_keys_schedule in Hin.
      now apply Hconn. }
    destruct (exec_clean _ _ _ _ _ _ _ Hstop Hsock Hwork Hex) as [-> Hall].
    eexists. split; [reflexivity|].
    assert (Hprobes :
      probes (render net english verbose log_callback steps
                ++ epilogue english log_callback result_callback Finished
                     (opens net steps)) =
      map (text_pair net) (slot_keys (schedule a b sp ep))).
    { rewrite probes_app, probes_render, Hall. cbn [epilogue].
      rewrite (proj1 (proj2 (done_line_quiet _ _))). apply app_nil_r. }
    rewrite Hprobes, length_map, length_slot_keys_schedule.
    repeat split.
    + rewrite Nat2Z.inj_mul. rewrite !Z2Nat.id by lia. ring.
    + intros -> ->. now replace (b + 1 - b) with 1 by lia;
        replace (ep + 1 - ep) with 1 by lia.
Qed.

Lemma network_answers limit answers ip port :
  0 <= port <= 65535 ->
  connect_ex (IPv4.network limit answers) ip port = inr (answers ip port).
Proof.
  intros H. cbn.
  replace (0 <=? port) with true by (symmetry; apply Z.leb_le; lia).
  replace (port <=? 65535) with true by (symmetry; apply Z.leb_le; lia).
  reflexivity.
Qed.

(** A whole /30 network on three ports: twelve probes; and the single
    pair: one probe. *)
Lemma scan_ips_probe_count_witness :
  (exists tr,
     run (English.scan_ips (IPv4.network None IPv4.web_only)
            "192.168.0.0" "192.168.0.3" 79 81 false never_set
            (Some accepting) (Some accepting)) = (Normal Completed, tr) /\
     probes tr =
       map (text_pair (IPv4.network None IPv4.web_only))
         (slot_keys (schedule 3232235520 3232235523 79 81)) /\
     Z.of_nat (List.length (probes tr)) =
       (3232235523 - 3232235520 + 1) * (81 - 79 + 1) /\
     (3232235520 = 3232235523 -> 79 = 81 ->
      List.length (probes tr) = 1%nat)) /\
  (exists tr,
     run (English.scan_ips (IPv4.network None IPv4.web_only)
            "192.168.0.7" "192.168.0.7" 443 443 false never_set
            (Some accepting) (Some accepting)) = (Normal Completed, tr) /\
     probes tr =
       map (text_pair (IPv4.network None IPv4.web_only))
         (slot_keys (schedule 3232235527 3232235527 443 443)) /\
     Z.of_nat (List.length (probes tr)) =
       (3232235527 - 3232235527 + 1) * (443 - 443 + 1) /\
     (3232235527 = 3232235527 -> 443 = 443 ->
      List.length (probes tr) = 1%nat)).
Proof.
  split.
  - apply scan_ips_probe_count;
      try apply accepting_returns; try reflexivity; try lia.
    intros n port _ Hport. eexists. apply network_answers. lia.
  - apply scan_ips_probe_count;
      try apply accepting_returns; try reflexivity; try lia.
    intros n port _ Hport. eexists. apply network_answers. lia.
Defined.

(** C4, as stated, fails when a callback raises.  Two addresses and
    two ports, every port open, no cancellation and no probe fault:
    four connection attempts are due.  A [log_callback] that raises, as
    one that posts to a user interface already shut down does, raises on
    the line of the first open port; the handler's own line raises
    again, and the run is over after one attempt. *)
Lemma scan_ips_probe_count_cut_short :
  let gone := Exception "main thread is not in main loop" in
  let r :=
    run (English.scan_ips (IPv4.network None IPv4.all_open)
           "10.0.0.1" "10.0.0.2" 80 81 false never_set
           (Some (failing gone)) (Some accepting)) in
  fst r = Raise gone /\
  probes (snd r) = [("10.0.0.1", 80)] /\
  Z.of_nat (List.length (probes (snd r)))
  <> (167772162 - 167772161 + 1) * (81 - 80 + 1).
Proof. vm_compute. repeat split; try reflexivity. discriminate. Qed.


(** ** Finding a call in the trace of a run *)

Lemma nil_split {A} (b1 b2 : list A) x : [] = b1 ++ x :: b2 -> False.
Proof. destruct b1; discriminate. Qed.

Lemma cons_split {A} (y : A) l b1 x b2 :
  y :: l = b1 ++ x :: b2 ->
  (b1 = [] /\ x = y /\ b2 = l) \/
  (exists b1', b1 = y :: b1' /\ l = b1' ++ x :: b2).
Proof.
  destruct b1 as [|z b1]; cbn; intros H; inversion H; subst.
  - now left.
  - right. now exists b1.
Qed.

Lemma app_split {A} (l1 l2 pre : list A) x post :
  l1 ++ l2 = pre ++ x :: post ->
  (exists m, l1 = pre ++ x :: m /\ post = m ++ l2) \/
  (exists m, pre = l1 ++ m /\ l2 = m ++ x :: post).
Proof.
  revert pre. induction l1 as [|y l1 IH]; intros pre H; cbn in H.
  - right. now exists pre.
  - apply cons_split in H. destruct H as [(-> & -> & ->)|(pre' & -> & H)].
    + left. now exists l1.
    + destruct (IH _ H) as [(m & -> & ->)|(m & -> & ->)].
      * left. now exists m.
      * right. now exists m.
Qed.

(** Takes a list equation [x1 :: ... :: xn :: [] = b1 ++ ev :: b2] apart,
    one goal for each place [ev] can be at. *)
Ltac places H :=
  repeat
    (first
       [ apply nil_split in H; contradiction
       | let b := fresh "b" in
         let E1 := fresh "E" in
         let E2 := fresh "E" in
         let E3 := fresh "E" in
         apply cons_split in H;
         destruct H as [(E1 & E2 & E3)|(b & E1 & H)];
         [try discriminate E2; subst | subst] ]).

Section Split.
Variable net : platform.
Variable lang : messages.
Variable verbose : bool.
Variable log_callback : option (callback string).

(** A call in the trace of a scan belongs to one step or to the
    epilogue. *)
Lemma trace_split steps epi pre ev post :
  render net lang verbose log_callback steps ++ epi = pre ++ ev :: post ->
  (exists s1 s s2 b1 b2,
     steps = s1 ++ s :: s2 /\
     render_step net lang verbose log_callback s = b1 ++ ev :: b2 /\
     pre = render net lang verbose log_callback s1 ++ b1 /\
     post = b2 ++ render net lang verbose log_callback s2 ++ epi) \/
  (exists m1 m2,
     epi = m1 ++ ev :: m2 /\
     pre = render net lang verbose log_callback steps ++ m1 /\
     post = m2).
Proof.
  revert pre. induction steps as [|s steps IH]; intros pre H.
  - right. exists pre, post. now split.
  - rewrite render_cons, <- app_assoc in H. apply app_split in H.
    destruct H as [(m & Hs & ->)|(m & -> & H)].
    + left. exists [], s, steps, pre, m. now repeat split.
    + destruct (IH _ H)
        as [(s1 & s' & s2 & b1 & b2 & -> & Hs' & -> & ->)|
            (m1 & m2 & -> & -> & ->)].
      * left. exists (s :: s1), s', s2, b1, b2.
        repeat split; try assumption.
        now rewrite render_cons, <- app_assoc.
      * right. exists m1, m2. repeat split.
        now rewrite render_cons, <- app_assoc.
Qed.

(** The calls of a probe step, with its optional log line made explicit. *)
Lemma probe_log_cases n port code :
  probe_log net lang verbose log_callback n port code = [] \/
  exists line,
    probe_log net lang verbose log_callback n port code = [Log line].
Proof.
  unfold probe_log, log_line.
  destruct (code =? 0), verbose, log_callback; eauto.
Qed.
End Split.

(** ** Cancellation (C5) *)

Lemma log_done_split log_callback result_callback line (rs : results)
    b1 ev b2 :
  log_line log_callback line ++ done_line result_callback rs
  = b1 ++ ev :: b2 ->
  ev = Log line \/ ev = Done rs.
Proof.
  unfold log_line, done_line.
  destruct log_callback, result_callback; cbn; intros H; places H; auto.
Qed.





(** ** Ports out of order (C9) *)










(** ** Probes that fail (C2) and sockets (C7) *)











(** ** The verbose switch (C8) and the two copies (C10) *)

Section Compare.
Variable net : platform.
Variable log_callback : option (callback string).
Variable result_callback : option (callback results).

(** Two runs on the same inputs and the same collaborators are two runs
    of the same steps with the same ending, whatever the messages and
    the verbose flag. *)
Lemma anatomy_same_steps lang1 lang2 verbose1 verbose2 stop_event
    start_ip end_ip sp ep r1 r2 :
  anatomy net lang1 verbose1 stop_event log_callback result_callback
    start_ip end_ip sp ep r1 ->
  anatomy net lang2 verbose2 stop_event log_callback result_callback
    start_ip end_ip sp ep r2 ->
  (exists e,
     r1 = (Normal (Faulted e),
           log_line log_callback (text_fault lang1 e)
             ++ done_line result_callback []) /\
     r2 = (Normal (Faulted e),
           log_line log_callback (text_fault lang2 e)
             ++ done_line result_callback [])) \/
  (r1 = (Normal UsageError,
         log_line log_callback (text_order lang1)
           ++ done_line result_callback []) /\
   r2 = (Normal UsageError,
         log_line log_callback (text_order lang2)
           ++ done_line result_callback [])) \/
  (exists k j todo steps en,
     exec net stop_event k j todo steps en /\
     r1 = (Normal (exit_of en),
           render net lang1 verbose1 log_callback steps
             ++ epilogue lang1 log_callback result_callback en
                  (opens net steps)) /\
     r2 = (Normal (exit_of en),
           render net lang2 verbose2 log_callback steps
             ++ epilogue lang2 log_callback result_callback en
                  (opens net steps))).
Proof.
  intros H1 H2.
  destruct H1 as [e1 He1|a1 b1 Ha1 Hb1 Hab1|a1 b1 steps1 en1 Ha1 Hb1 Hab1 Hex1];
    destruct H2 as [e2 He2|a2 b2 Ha2 Hb2 Hab2|a2 b2 steps2 en2 Ha2 Hb2 Hab2 Hex2].
  - left. exists e1. split; [reflexivity|].
    assert (e2 = e1); [|now subst].
    destruct He1 as [He1|[[a Ha] He1]], He2 as [He2|[[a' Ha'] He2]];
      congruence.
  - exfalso. destruct He1 as [He1|[_ He1]]; congruence.
  - exfalso. destruct He1 as [He1|[_ He1]]; congruence.
  - exfalso. destruct He2 as [He2|[_ He2]]; congruence.
  - right. left. now split.
  - exfalso. assert (a1 = a2) by congruence. assert (b1 = b2) by congruence.
    lia.
  - exfalso. destruct He2 as [He2|[_ He2]]; congruence.
  - exfalso. assert (a1 = a2) by congruence. assert (b1 = b2) by congruence.
    lia.
  - right. right.
    assert (a1 = a2) by congruence. assert (b1 = b2) by congruence. subst.
    destruct (exec_deterministic _ _ _ _ _ _ _ _ _ Hex1 Hex2) as [-> ->].
    exists 0%nat, 0%nat, (schedule a2 b2 sp ep), steps2, en2. now repeat split.
Qed.

Lemma log_lines_render_verbose lang steps :
  List.length (log_lines (render net lang true log_callback steps)) =
  (List.length (log_lines (render net lang false log_callback steps))
   + match log_callback with
     | Some _ => List.length (closed (render net lang false log_callback steps))
     | None => 0
     end)%nat.
Proof.
  induction steps as [|[n|n port code] steps IH].
  - now destruct log_callback.
  - rewrite !render_cons, !log_lines_app, !closed_app, !length_app, IH.
    reflexivity.
  - rewrite !render_cons, !log_lines_app, !closed_app, !length_app, IH.
    cbn [render_step]. rewrite !log_lines_app, !closed_app, !length_app.
    unfold probe_log, log_line. cbn.
    destruct (code =? 0), log_callback; cbn; lia.
Qed.

Lemma closed_epilogue stop_event k j todo steps lang en acc :
  exec net stop_event k j todo steps en ->
  closed (epilogue lang log_callback result_callback en acc) = [].
Proof.
  intros Hex. destruct en as [| |e calls]; cbn [epilogue farewell].
  - apply done_line_quiet.
  - change (IsSet true :: ?l) with ([IsSet true] ++ l).
    rewrite !closed_app.
    rewrite (proj1 (proj2 (proj2 (proj2 (log_line_quiet _ _))))).
    now rewrite (proj1 (proj2 (proj2 (proj2 (done_line_quiet _ _))))).
  - rewrite !closed_app.
    rewrite (proj1 (proj2 (proj2 (proj2 (log_line_quiet _ _))))).
    rewrite (proj1 (proj2 (proj2 (proj2 (done_line_quiet _ _))))).
    destruct (broke_quiet _ _ _ _ _ _ _ _ Hex) as (_ & _ & -> & _).
    reflexivity.
Qed.



End Compare.



(** C8 (amended), for callbacks that return: two runs that differ in
    the verbose flag only — same inputs, same stop event, same outcomes
    of the probes — take the same path, probe the same pairs with the
    same results and deliver the same list; when there is a
    [log_callback] the verbose run logs exactly one line more for each
    probe found Closed, and when there is none neither run logs
    anything. *)
Theorem scan_ips_verbose_only_logs net start_ip end_ip sp ep stop_event
    log_callback result_callback :
  returns log_callback -> returns result_callback ->
  let loud :=
    run (English.scan_ips net start_ip end_ip sp ep true stop_event
           log_callback result_callback) in
  let quiet :=
    run (English.scan_ips net start_ip end_ip sp ep false stop_event
           log_callback result_callback) in
  fst loud = fst quiet /\
  dones (snd loud) = dones (snd quiet) /\
  probes (snd loud) = probes (snd quiet) /\
  opened (snd loud) = opened (snd quiet) /\
  closed (snd loud) = closed (snd quiet) /\
  List.length (log_lines (snd loud)) =
  (List.length (log_lines (snd quiet))
   + match log_callback with
     | Some _ => List.length (closed (snd quiet))
     | None => 0
     end)%nat.
Proof.
  intros Hlog Hres loud quiet.
  pose proof (english_anatomy net true stop_event log_callback
                result_callback Hlog Hres start_ip end_ip sp ep) as H1.
  pose proof (english_anatomy net false stop_event log_callback
                result_callback Hlog Hres start_ip end_ip sp ep) as H2.
  fold loud in H1. fold quiet in H2.
  destruct (anatomy_same_steps _ _ _ _ _ _ _ _ _ _ _ _ _ _ H1 H2)
    as [(e & -> & ->)|[(-> & ->)|(k & j & todo & steps & en & Hex & -> & ->)]];
    cbn [fst snd].
  - repeat split. unfold log_line, done_line.
    destruct log_callback, result_callback; reflexivity.
  - repeat split. unfold log_line, done_line.
    destruct log_callback, result_callback; reflexivity.
  - split; [reflexivity|].
    rewrite !dones_app, !dones_render, !probes_app, !probes_render,
      !opened_app, !opened_render, !closed_app, !closed_render,
      !log_lines_app, !length_app.
    repeat split.
    rewrite log_lines_render_verbose, closed_render.
    rewrite (closed_epilogue _ _ _ _ _ _ _ _ _ _ _ Hex).
    destruct log_callback; cbn [List.length]; lia.
Qed.

Lemma scan_ips_verbose_only_logs_witness :
  let loud :=
    run (English.scan_ips (IPv4.network None IPv4.all_closed)
           "10.0.0.1" "10.0.0.1" 8080 8080 true never_set
           (Some accepting) (Some accepting)) in
  let quiet :=
    run (English.scan_ips (IPv4.network None IPv4.all_closed)
           "10.0.0.1" "10.0.0.1" 8080 8080 false never_set
           (Some accepting) (Some accepting)) in
  fst loud = fst quiet /\
  dones (snd loud) = dones (snd quiet) /\
  probes (snd loud) = probes (snd quiet) /\
  opened (snd loud) = opened (snd quiet) /\
  closed (snd loud) = closed (snd quiet) /\
  List.length (log_lines (snd loud)) =
  (List.length (log_lines (snd quiet)) + 1)%nat.
Proof.
  apply (scan_ips_verbose_only_logs (IPv4.network None IPv4.all_closed)
           "10.0.0.1" "10.0.0.1" 8080 8080 never_set
           (Some accepting) (Some accepting));
    apply accepting_returns.
Defined.

(** C8, as stated, fails when a callback raises.  Two closed ports and
    a [log_callback] that raises: the run that is not verbose never
    calls it, tries both ports and completes with the empty list; the
    verbose run calls it on the line of the first closed port, tries
    one port only, hands over nothing and lets the exception out. *)
Lemma scan_ips_verbose_changes_outcome :
  let gone := Exception "main thread is not in main loop" in
  let loud :=
    run (English.scan_ips (IPv4.network None IPv4.all_closed)
           "10.0.0.1" "10.0.0.1" 79 80 true never_set
           (Some (failing gone)) (Some accepting)) in
  let quiet :=
    run (English.scan_ips (IPv4.network None IPv4.all_closed)
           "10.0.0.1" "10.0.0.1" 79 80 false never_set
           (Some (failing gone)) (Some accepting)) in
  fst quiet = Normal Completed /\
  probes (snd quiet) = [("10.0.0.1", 79); ("10.0.0.1", 80)] /\
  dones (snd quiet) = [[]] /\
  fst loud = Raise gone /\
  probes (snd loud) = [("10.0.0.1", 79)] /\
  dones (snd loud) = [].
Proof. vm_compute. repeat split; reflexivity. Qed.




(** * More properties of the engine

    ** Exceptions that leave [scan_ips] *)

(** What the handler of [scan_ips] does, call by call. *)
Lemma handler_calls log_callback result_callback line e (w : world) :
  let handler :=
    bind (log_if_callback log_callback line)
      (fun _ => bind (result_if_callback result_callback [])
                  (fun _ => ret (Faulted e))) in
  (exists w', handler w = (Normal (Faulted e), w')) \/
  (exists f e', log_callback = Some f /\ f w line = Some e' /\
     handler w = (Raise e', w ++ [Log line])) \/
  (exists g e' pre, result_callback = Some g /\ g pre [] = Some e' /\
     handler w = (Raise e', pre ++ [Done []])).
Proof.
  cbn zeta. unfold bind, log_if_callback, result_if_callback, ret.
  destruct log_callback as [f|].
  - destruct (f w line) as [e'|] eqn:Hf.
    + right. left. exists f, e'. now repeat split.
    + destruct result_callback as [g|]; [|left; eauto].
      destruct (g (w ++ [Log line]) []) as [e'|] eqn:Hg; [|left; eauto].
      right. right. exists g, e', (w ++ [Log line]). now repeat split.
  - destruct result_callback as [g|]; [|left; eauto].
    destruct (g w []) as [e'|] eqn:Hg; [|left; eauto].
    right. right. exists g, e', w. now repeat split.
Qed.

(** X1: for exceptions derived from [Exception] - those of type [exn],
    the ones the handler [except Exception] catches; a
    [KeyboardInterrupt] or [SystemExit] raised by a callback passes the
    handler and is not among them.  Whether the callbacks return or
    raise such exceptions, an exception leaves [scan_ips] only from its
    handler: it is the exception a callback raised while the engine was
    reporting an earlier failure [e0], and the call that raised it -
    [log_callback] with the fault line of [e0], or [result_callback]
    with the empty list - is the last call of the run.  The failures of
    the address parser and of the socket library never leave the
    engine. *)
Theorem scan_ips_raise_comes_from_handler net start_ip end_ip sp ep verbose
    stop_event log_callback result_callback e tr :
  run (English.scan_ips net start_ip end_ip sp ep verbose stop_event
         log_callback result_callback) = (Raise e, tr) ->
  exists pre,
    (exists f e0, log_callback = Some f /\
       f pre (English.msg_fault e0) = Some e /\
       tr = pre ++ [Log (English.msg_fault e0)]) \/
    (exists g, result_callback = Some g /\ g pre [] = Some e /\
       tr = pre ++ [Done []]).
Proof.
  unfold run, English.scan_ips, def, try_except.
  match goal with
  | |- context [let (_, _) := let (_, _) := ?body [] in _ in _] =>
      destruct (body []) as [[q|q|e0] w]
  end; try discriminate.
  destruct (handler_calls log_callback result_callback
              (English.msg_fault e0) e0 w)
    as [(w' & Hh)|[(f & e' & Hf & Hraise & Hh)|(g & e' & pre & Hg & Hraise & Hh)]];
    cbn zeta in Hh; rewrite Hh; intros Hrun; inversion Hrun; subst.
  - exists w. left. now exists f, e0.
  - exists pre. right. now exists g.
Qed.

Lemma scan_ips_raise_comes_from_handler_witness :
  exists pre,
    (exists f e0, Some (@failing string (Exception "log is closed")) = Some f /\
       f pre (English.msg_fault e0) = Some (Exception "log is closed") /\
       [Log "❌ Error during scan: 'localhost' does not appear to be an IPv4 or IPv6 address"]
       = pre ++ [Log (English.msg_fault e0)]) \/
    (exists g, Some (@accepting results) = Some g /\
       g pre [] = Some (Exception "log is closed") /\
       [Log "❌ Error during scan: 'localhost' does not appear to be an IPv4 or IPv6 address"]
       = pre ++ [Done []]).
Proof.
  apply (scan_ips_raise_comes_from_handler
           (IPv4.network None IPv4.all_closed) "localhost" "localhost" 80 80
           false never_set (Some (failing (Exception "log is closed")))
           (Some accepting)).
  vm_compute. reflexivity.
Defined.

(** ** How often the result is handed over, whatever the callbacks do *)

Lemma modest_bind {A B} (m : M A) (k : A -> M B) :
  modest m -> (forall a, modest (k a)) -> modest (bind m k).
Proof.
  intros Hm Hk w. unfold bind. specialize (Hm w).
  destruct (m w) as [[a|p|e] w1]; try assumption.
  specialize (Hk a w1). rewrite <- Hm.
  destruct (k a w1) as [[b|p|e] w2]; assumption.
Qed.

Lemma modest_ret {A} (a : A) : modest (ret a).
Proof. intros w. reflexivity. Qed.

Lemma modest_return {A} p : modest (@return_ A p).
Proof. intros w. now left. Qed.

Lemma modest_lift {A} (r : exn + A) : modest (lift r).
Proof. intros w. destruct r; cbn; [now left|reflexivity]. Qed.

Lemma modest_emit ev :
  match ev with Done _ => False | _ => True end -> modest (emit ev).
Proof.
  intros Hev w. unfold emit. rewrite dones_app.
  destruct ev; try contradiction; apply app_nil_r.
Qed.

Lemma modest_is_set stop_event : modest (stop_event_is_set stop_event).
Proof. intros w. unfold stop_event_is_set. rewrite dones_app. apply app_nil_r. Qed.

Lemma modest_log log_callback line : modest (log_if_callback log_callback line).
Proof.
  intros w. unfold log_if_callback. destruct log_callback as [f|].
  - destruct (f w line); rewrite dones_app, app_nil_r; [now left|reflexivity].
  - reflexivity.
Qed.

Lemma modest_socket net : modest (socket_socket net).
Proof.
  intros w. unfold socket_socket.
  destruct (socket_new net (socket_calls w));
    rewrite dones_app, app_nil_r; [now left|reflexivity].
Qed.

Lemma modest_connect net ip port : modest (sock_connect_ex net ip port).
Proof.
  intros w. unfold sock_connect_ex.
  destruct (connect_ex net ip port);
    rewrite dones_app, app_nil_r; [now left|reflexivity].
Qed.

Lemma modest_ip_text net n : modest (ip_address_str net n).
Proof. intros w. unfold ip_address_str. rewrite dones_app. apply app_nil_r. Qed.

(** Handing the result over and leaving at once. *)
Lemma modest_result_return {A} result_callback rs p :
  modest (bind (result_if_callback result_callback rs)
            (fun _ => @return_ A p)).
Proof.
  intros w. unfold bind, result_if_callback, return_.
  destruct result_callback as [g|]; [|now left].
  destruct (g w rs); rewrite dones_app; right; now exists rs.
Qed.

Section Deliveries.
Variable net : platform.
Variable verbose : bool.
Variable stop_event : stop_flag.
Variable log_callback : option (callback string).
Variable result_callback : option (callback results).

Lemma modest_for_port ip ports :
  forall acc,
  modest (English.for_port net verbose stop_event log_callback
            result_callback ip ports acc).
Proof.
  induction ports as [|port ports IH]; intros acc; cbn [English.for_port].
  - apply modest_ret.
  - apply modest_bind; [apply modest_is_set|]. intros [|].
    + apply modest_bind; [apply modest_log|]. intros _.
      apply modest_result_return.
    + apply modest_bind; [apply modest_socket|]. intros _.
      apply modest_bind; [now apply modest_emit|]. intros _.
      apply modest_bind; [apply modest_connect|]. intros code.
      apply modest_bind.
      * destruct (code =? 0).
        -- apply modest_bind; [apply modest_log|]. intros _. apply modest_ret.
        -- apply modest_bind; [|intros _; apply modest_ret].
           destruct verbose; [|apply modest_ret].
           destruct log_callback; [apply modest_log|apply modest_ret].
      * intros acc'. apply modest_bind; [now apply modest_emit|]. intros _.
        apply IH.
Qed.

Lemma modest_while_body sp ep cur acc :
  modest (English.while_body net verbose stop_event log_callback
            result_callback sp ep cur acc).
Proof.
  unfold English.while_body.
  apply modest_bind; [apply modest_is_set|]. intros [|].
  - apply modest_bind; [apply modest_log|]. intros _.
    apply modest_result_return.
  - apply modest_bind; [apply modest_ip_text|]. intros ip.
    apply modest_for_port.
Qed.

Lemma modest_while_ip sp ep b :
  forall (k : nat) cur acc,
  Z.to_nat (b + 1 - cur) = k ->
  modest (English.while_ip net verbose stop_event log_callback
            result_callback sp ep b cur acc).
Proof.
  induction k as [|k IH]; intros cur acc Hk w; rewrite while_ip_unfold;
    destruct (cur <=? b) eqn:Hcur; try reflexivity.
  - apply Z.leb_le in Hcur. lia.
  - apply Z.leb_le in Hcur.
    pose proof (modest_while_body sp ep cur acc w) as Hbody.
    destruct (English.while_body _ _ _ _ _ _ _ _ _ _) as [[acc'|p|e] w'];
      try assumption.
    rewrite <- Hbody. apply IH. lia.
Qed.

(** The [try] block hands over at most one result. *)
Lemma try_block_delivers_once start_ip end_ip sp ep c w :
  bind (lift (ip_address net start_ip)) (fun start =>
  bind (lift (ip_address net end_ip)) (fun end_ =>
    if start >? end_ then
      bind (log_if_callback log_callback English.msg_order) (fun _ =>
      bind (result_if_callback result_callback []) (fun _ =>
        return_ UsageError))
    else
      bind (English.while_ip net verbose stop_event log_callback
              result_callback sp ep end_ start []) (fun open_ports =>
      bind (result_if_callback result_callback open_ports) (fun _ =>
        ret Completed)))) [] = (c, w) ->
  dones w = [] \/ exists rs, dones w = [rs].
Proof.
  unfold bind at 1.
  destruct (ip_address net start_ip) as [e|a]; cbn [lift raise ret].
  { intros H; inversion H; subst. now left. }
  unfold bind at 1.
  destruct (ip_address net end_ip) as [e|b]; cbn [lift raise ret].
  { intros H; inversion H; subst. now left. }
  destruct (a >? b).
  - pose proof (modest_bind _ _ (modest_log log_callback English.msg_order)
                  (fun _ => modest_result_return (A:=path) result_callback []
                              UsageError) []) as H.
    intros Hrun. rewrite Hrun in H.
    destruct c; cbn [dones flat_map app] in H; [now left|exact H|exact H].
  - unfold bind at 1.
    pose proof (modest_while_ip sp ep b _ a [] eq_refl []) as H.
    destruct (English.while_ip _ _ _ _ _ _ _ _ _ _ _) as [[acc|q|e] w1];
      cbn [dones flat_map app] in H.
    + unfold bind, result_if_callback, ret.
      destruct result_callback as [g|].
      * destruct (g w1 acc); intros Hrun; inversion Hrun; subst;
          rewrite dones_app, H; right; now exists acc.
      * intros Hrun; inversion Hrun; subst. now left.
    + intros Hrun; inversion Hrun; subst. exact H.
    + intros Hrun; inversion Hrun; subst. exact H.
Qed.
End Deliveries.

(** X2: whatever the callbacks do - return or raise, at any call -
    [scan_ips] calls [result_callback] at most twice in a run, and a
    second call always hands over the empty list. *)
Theorem scan_ips_at_most_two_deliveries net start_ip end_ip sp ep verbose
    stop_event log_callback result_callback :
  let tr := snd (run (English.scan_ips net start_ip end_ip sp ep verbose
                        stop_event log_callback result_callback)) in
  dones tr = [] \/ (exists rs, dones tr = [rs]) \/
  (exists rs, dones tr = [rs; []]).
Proof.
  cbn zeta. unfold run, English.scan_ips, def, try_except.
  pose proof (try_block_delivers_once net verbose stop_event log_callback
                result_callback start_ip end_ip sp ep) as Hblock.
  match goal with
  | |- context [let (_, _) := let (_, _) := ?body [] in _ in _] =>
      destruct (body []) as [[q|q|e0] w]
  end; specialize (Hblock _ _ eq_refl); cbn [snd].
  - destruct Hblock as [->|(rs & ->)]; [now left|right; left; now exists rs].
  - destruct Hblock as [->|(rs & ->)]; [now left|right; left; now exists rs].
  - assert (Hhandler :
      forall c w', bind (log_if_callback log_callback (English.msg_fault e0))
                     (fun _ => bind (result_if_callback result_callback [])
                                 (fun _ => ret (Faulted e0))) w = (c, w') ->
      dones w' = dones w \/ dones w' = dones w ++ [[]]).
    { intros c w'. unfold bind, log_if_callback, result_if_callback, ret.
      destruct log_callback as [f|].
      - destruct (f w _).
        + intros H; inversion H; subst. rewrite dones_app, app_nil_r. now left.
        + destruct result_callback as [g|].
          * destruct (g _ []); intros H; inversion H; subst;
              rewrite !dones_app; cbn; rewrite app_nil_r; now right.
          * intros H; inversion H; subst. rewrite dones_app, app_nil_r.
            now left.
      - destruct result_callback as [g|].
        + destruct (g _ []); intros H; inversion H; subst;
            rewrite !dones_app; now right.
        + intros H; inversion H; subst. now left. }
    match goal with
    | |- context [bind ?m ?k w] =>
        pose proof (Hhandler _ _ (surjective_pairing (bind m k w))) as Hh;
        destruct (bind m k w) as [c w']
    end.
    cbn [fst snd] in Hh.
    assert (Hgoal : dones w' = [] \/ (exists rs, dones w' = [rs]) \/
                    (exists rs, dones w' = [rs; []])).
    { destruct Hh as [->| ->]; destruct Hblock as [->|(rs & ->)]; cbn.
      - now left.
      - right; left; now exists rs.
      - right; left; now exists [].
      - right; right; now exists rs. }
    destruct c; cbn [snd]; exact Hgoal.
Qed.

(** ** The pairs a run connects to *)

Lemma exec_done_prefix net stop_event k j todo steps en :
  exec net stop_event k j todo steps en ->
  exists rest, todo = map slot_of steps ++ rest /\ (en = Finished -> rest = []).
Proof.
  induction 1 as [ | k j s todo _ | k j n todo steps en _ _ IH | | |
                   k j n port code todo steps en _ _ _ _ IH ]; cbn.
  - now exists [].
  - exists (s :: todo). split; [reflexivity|discriminate].
  - destruct IH as (rest & -> & Hfin). now exists rest.
  - eexists. split; [reflexivity|discriminate].
  - eexists. split; [reflexivity|discriminate].
  - destruct IH as (rest & -> & Hfin). now exists rest.
Qed.

Lemma sorted_prefix {A} (R : A -> A -> Prop) l1 l2 :
  StronglySorted R (l1 ++ l2) -> StronglySorted R l1.
Proof.
  induction l1 as [|x l1 IH]; cbn; intros H; [constructor|].
  inversion H as [|? ? Hs Hx]; subst. constructor; [now apply IH|].
  apply Forall_app in Hx. tauto.
Qed.

(** The connection attempts of a run, in either copy: the pairs of the
    work done, and the pair of the attempt that raised, if one did. *)
Lemma anatomy_probes net lang verbose stop_event log_callback result_callback
    start_ip end_ip sp ep a b c tr :
  ip_address net start_ip = inr a -> ip_address net end_ip = inr b ->
  anatomy net lang verbose stop_event log_callback result_callback
    start_ip end_ip sp ep (c, tr) ->
  exists tried rest,
    slot_keys (schedule a b sp ep) = tried ++ rest /\
    probes tr = map (text_pair net) tried /\
    (c = Normal Completed -> rest = []).
Proof.
  intros Ha Hb H.
  inversion H as [e [He|[_ He]] Heq|a' b' Ha' Hb' Hab Heq|
                  a' b' steps en Ha' Hb' Hab Hex Heq]; subst; clear H.
  - congruence.
  - congruence.
  - assert (a' = a) by congruence. assert (b' = b) by congruence. subst.
    exists [], []. rewrite schedule_nil by lia. repeat split.
    rewrite probes_app, (proj1 (proj2 (log_line_quiet _ _))),
      (proj1 (proj2 (done_line_quiet _ _))). reflexivity.
  - assert (a' = a) by congruence. assert (b' = b) by congruence. subst.
    rewrite probes_app, probes_render.
    destruct (exec_done_prefix _ _ _ _ _ _ _ Hex) as (rest & Htodo & Hfin).
    destruct en as [| |e calls]; cbn [epilogue farewell exit_of].
    + exists (slot_keys (map slot_of steps)), (slot_keys rest).
      rewrite Htodo, slot_keys_app, (Hfin eq_refl).
      rewrite (proj1 (proj2 (done_line_quiet _ _))), !app_nil_r.
      now repeat split.
    + exists (slot_keys (map slot_of steps)), (slot_keys rest).
      rewrite Htodo, slot_keys_app. repeat split; [|discriminate].
      change (IsSet true :: ?l) with ([IsSet true] ++ l).
      rewrite !probes_app, (proj1 (proj2 (log_line_quiet _ _))),
        (proj1 (proj2 (done_line_quiet _ _))). cbn. now rewrite app_nil_r.
    + apply exec_broke_inv in Hex.
      destruct Hex as [[-> _]|(n & port & -> & _ & rest' & Hrest)].
      * exists (slot_keys (map slot_of steps)), (slot_keys rest).
        rewrite Htodo, slot_keys_app. repeat split; [|discriminate].
        rewrite !probes_app, (proj1 (proj2 (log_line_quiet _ _))),
          (proj1 (proj2 (done_line_quiet _ _))). cbn. now rewrite app_nil_r.
      * rewrite !probes_app, (proj1 (proj2 (log_line_quiet _ _))),
          (proj1 (proj2 (done_line_quiet _ _))).
        exists (slot_keys (map slot_of steps) ++ [(n, port)]),
          (slot_keys rest').
        rewrite Hrest, slot_keys_app, map_app. cbn [slot_keys flat_map app].
        fold (slot_keys rest'). repeat split; [|discriminate].
        now rewrite <- app_assoc.
Qed.

(** X3: on every path - completed, cancelled, faulted, usage error - the
    connection attempts of a run are an initial segment of the
    enumeration of the range, address by address and port by port: no
    pair is tried twice, none is skipped, and a completed run has tried
    them all.  (The callbacks are taken to return.) *)
Theorem scan_ips_probes_initial_segment net start_ip end_ip sp ep verbose
    stop_event log_callback result_callback a b c tr :
  returns log_callback -> returns result_callback ->
  ip_address net start_ip = inr a -> ip_address net end_ip = inr b ->
  run (English.scan_ips net start_ip end_ip sp ep verbose stop_event
         log_callback result_callback) = (c, tr) ->
  exists tried rest,
    slot_keys (schedule a b sp ep) = tried ++ rest /\
    probes tr = map (text_pair net) tried /\
    StronglySorted pair_lt tried /\
    (c = Normal Completed -> rest = []).
Proof.
  intros Hlog Hres Ha Hb Hrun.
  pose proof (english_anatomy net verbose stop_event log_callback
                result_callback Hlog Hres start_ip end_ip sp ep) as H.
  rewrite Hrun in H.
  destruct (anatomy_probes _ _ _ _ _ _ _ _ _ _ _ _ _ _ Ha Hb H)
    as (tried & rest & Hsched & Hprobes & Hfin).
  exists tried, rest. repeat split; try assumption.
  apply (sorted_prefix _ tried rest). rewrite <- Hsched.
  apply sorted_slot_keys_schedule.
Qed.

Lemma scan_ips_probes_initial_segment_witness :
  let r :=
    run (English.scan_ips (IPv4.network None IPv4.web_only)
           "10.0.0.1" "10.0.0.2" 80 81 true (fun k => Nat.eqb k 5)
           (Some accepting) (Some accepting)) in
  exists tried rest,
    slot_keys (schedule 167772161 167772162 80 81) = tried ++ rest /\
    probes (snd r) =
      map (text_pair (IPv4.network None IPv4.web_only)) tried /\
    StronglySorted pair_lt tried /\
    (fst r = Normal Completed -> rest = []).
Proof.
  intros r.
  apply (scan_ips_probes_initial_segment
           (IPv4.network None IPv4.web_only) "10.0.0.1" "10.0.0.2" 80 81
           true (fun k => Nat.eqb k 5) (Some accepting) (Some accepting)).
  - apply accepting_returns.
  - apply accepting_returns.
  - reflexivity.
  - reflexivity.
  - apply surjective_pairing.
Defined.

(** X4: the engine connects to nothing outside the range it was given:
    every connection attempt of a run goes to the text of an address
    between the start and the end address and to a port between the
    start and the end port.  (The callbacks are taken to return.) *)
Theorem scan_ips_probes_within_range net start_ip end_ip sp ep verbose
    stop_event log_callback result_callback a b c tr :
  returns log_callback -> returns result_callback ->
  ip_address net start_ip = inr a -> ip_address net end_ip = inr b ->
  run (English.scan_ips net start_ip end_ip sp ep verbose stop_event
         log_callback result_callback) = (c, tr) ->
  forall pre ip port r post,
    tr = pre ++ ConnectEx ip port r :: post ->
    exists n, ip = ip_text net n /\ a <= n <= b /\ sp <= port <= ep.
Proof.
  intros Hlog Hres Ha Hb Hrun pre ip port r post Htr.
  pose proof (english_anatomy net verbose stop_event log_callback
                result_callback Hlog Hres start_ip end_ip sp ep) as H.
  rewrite Hrun in H.
  destruct (anatomy_probes _ _ _ _ _ _ _ _ _ _ _ _ _ _ Ha Hb H)
    as (tried & rest & Hsched & Hprobes & _).
  assert (Hin : In (ip, port) (probes tr)).
  { rewrite Htr, probes_app. apply in_or_app. right. now left. }
  rewrite Hprobes in Hin. apply in_map_iff in Hin.
  destruct Hin as ([n q] & Hpair & Hin). inversion Hpair; subst.
  exists n. split; [reflexivity|].
  apply (in_slot_keys_schedule a b sp ep). rewrite Hsched.
  apply in_or_app. now left.
Qed.

Lemma scan_ips_probes_within_range_witness :
  exists n, "10.0.0.1" = ip_text (IPv4.network None IPv4.web_only) n /\
            167772161 <= n <= 167772161 /\ 80 <= 80 <= 80.
Proof.
  pose (r := run (English.scan_ips (IPv4.network None IPv4.web_only)
                    "10.0.0.1" "10.0.0.1" 80 80 false never_set
                    (Some accepting) (Some accepting))).
  apply (scan_ips_probes_within_range
           (IPv4.network None IPv4.web_only) "10.0.0.1" "10.0.0.1" 80 80
           false never_set (Some accepting) (Some accepting)
           167772161 167772161 (fst r) (snd r)
           accepting_returns accepting_returns eq_refl eq_refl
           (surjective_pairing r)
           [IsSet false; AddrText 167772161; IsSet false; Socket; SetTimeout]
           "10.0.0.1" 80 (inr 0)
           [Log "✓ OPEN port → IP: 10.0.0.1, Port: 80"; Close;
            Done [("10.0.0.1", 80)]]).
  vm_compute. reflexivity.
Defined.

(** ** What a run logs *)

Lemma verdict_lines_app lang w1 w2 :
  verdict_lines lang (w1 ++ w2) = verdict_lines lang w1 ++ verdict_lines lang w2.
Proof. apply flat_map_app. Qed.

Section Logged.
Variable net : platform.
Variable lang : messages.
Variable verbose : bool.
Variable f : callback string.
Variable result_callback : option (callback results).

Lemma done_line_silent rs :
  log_lines (done_line result_callback rs) = [] /\
  verdict_lines lang (done_line result_callback rs) = [] /\
  opened (done_line result_callback rs) = [].
Proof. unfold done_line. now destruct result_callback. Qed.

(** The log of the steps: a line for every code when verbose, for the
    code 0 only otherwise. *)
Lemma log_lines_steps steps :
  log_lines (render net lang verbose (Some f) steps) =
  if verbose then verdict_lines lang (render net lang verbose (Some f) steps)
  else open_lines lang (opens net steps).
Proof.
  induction steps as [|[n|n port code] steps IH].
  - now destruct verbose.
  - rewrite render_cons, log_lines_app, verdict_lines_app, IH.
    cbn [opens flat_map found app]. fold (opens net steps).
    now destruct verbose.
  - rewrite render_cons, log_lines_app, verdict_lines_app, IH.
    cbn [opens flat_map found]. fold (opens net steps).
    unfold open_lines. rewrite map_app. fold (open_lines lang (opens net steps)).
    cbn [render_step]. unfold probe_log, log_line.
    destruct verbose, (code =? 0) eqn:Hcode; cbn; now rewrite ?Hcode.
Qed.

Lemma anatomy_log start_ip end_ip sp ep stop_event c tr :
  anatomy net lang verbose stop_event (Some f) result_callback
    start_ip end_ip sp ep (c, tr) ->
  exists p,
    c = Normal p /\
    log_lines tr =
    (if verbose then verdict_lines lang tr
     else open_lines lang (opened tr)) ++ closing_lines lang p.
Proof.
  intros H.
  inversion H as [e _ Heq|a b _ _ _ Heq|a b steps en _ _ _ Hex Heq];
    subst; clear H.
  - exists (Faulted e). split; [reflexivity|].
    cbn [log_line app]. change (Log ?l :: ?w) with ([Log l] ++ w).
    rewrite log_lines_app, verdict_lines_app, opened_app.
    destruct (done_line_silent []) as (-> & -> & ->). now destruct verbose.
  - exists UsageError. split; [reflexivity|].
    cbn [log_line app]. change (Log ?l :: ?w) with ([Log l] ++ w).
    rewrite log_lines_app, verdict_lines_app, opened_app.
    destruct (done_line_silent []) as (-> & -> & ->). now destruct verbose.
  - exists (exit_of en). split; [reflexivity|].
    rewrite log_lines_app, verdict_lines_app, opened_app, log_lines_steps,
      opened_render.
    assert (Hepi :
      log_lines (epilogue lang (Some f) result_callback en (opens net steps))
      = closing_lines lang (exit_of en) /\
      verdict_lines lang
        (epilogue lang (Some f) result_callback en (opens net steps)) = [] /\
      opened (epilogue lang (Some f) result_callback en (opens net steps))
      = []).
    { destruct en as [| |e calls]; cbn [epilogue farewell exit_of closing_lines].
      - apply done_line_silent.
      - cbn [log_line app].
        change (IsSet true :: Log ?l :: ?w) with ([IsSet true; Log l] ++ w).
        rewrite log_lines_app, verdict_lines_app, opened_app.
        destruct (done_line_silent (opens net steps)) as (-> & -> & ->).
        now cbn.
      - cbn [log_line app].
        change (calls ++ Log ?l :: ?w) with (calls ++ [Log l] ++ w).
        rewrite !log_lines_app, !verdict_lines_app, !opened_app.
        destruct (done_line_silent []) as (-> & -> & ->).
        apply exec_broke_inv in Hex.
        destruct Hex as [[-> _]|(n & port & -> & _)]; now cbn. }
    destruct Hepi as (-> & -> & ->).
    destruct verbose; now rewrite !app_nil_r.
Qed.
End Logged.

(** X5: the log of a run, line for line.  A verbose run logs one line
    for each connection attempt that returned a code - the OPEN line for
    the code 0, the CLOSED line for any other - in the order of the
    attempts; a run that is not verbose logs the OPEN line of each pair
    found open, in order.  After them comes the one line of the path the
    run left by - stopped, start above end, or the fault - and nothing
    when the scan completed.  (The callbacks are taken to return.) *)
Theorem scan_ips_log_line_for_line net start_ip end_ip sp ep verbose
    stop_event f result_callback c tr :
  returns (Some f) -> returns result_callback ->
  run (English.scan_ips net start_ip end_ip sp ep verbose stop_event
         (Some f) result_callback) = (c, tr) ->
  exists p,
    c = Normal p /\
    log_lines tr =
    (if verbose then verdict_lines english tr
     else open_lines english (opened tr)) ++ closing_lines english p.
Proof.
  intros Hlog Hres Hrun.
  pose proof (english_anatomy net verbose stop_event (Some f)
                result_callback Hlog Hres start_ip end_ip sp ep) as H.
  rewrite Hrun in H. now apply anatomy_log in H.
Qed.

Lemma scan_ips_log_line_for_line_witness :
  exists p,
    Normal Cancelled = Normal p /\
    log_lines
      [IsSet false; AddrText 167772161;
       IsSet false; Socket; SetTimeout; ConnectEx "10.0.0.1" 79 (inr 111);
       Log "  CLOSED port → IP: 10.0.0.1, Port: 79"; Close;
       IsSet false; Socket; SetTimeout; ConnectEx "10.0.0.1" 80 (inr 0);
       Log "✓ OPEN port → IP: 10.0.0.1, Port: 80"; Close;
       IsSet true; Log "⏹️ Scan stopped by user.";
       Done [("10.0.0.1", 80)]] =
    verdict_lines english
      [IsSet false; AddrText 167772161;
       IsSet false; Socket; SetTimeout; ConnectEx "10.0.0.1" 79 (inr 111);
       Log "  CLOSED port → IP: 10.0.0.1, Port: 79"; Close;
       IsSet false; Socket; SetTimeout; ConnectEx "10.0.0.1" 80 (inr 0);
       Log "✓ OPEN port → IP: 10.0.0.1, Port: 80"; Close;
       IsSet true; Log "⏹️ Scan stopped by user.";
       Done [("10.0.0.1", 80)]]
    ++ closing_lines english p.
Proof.
  apply (scan_ips_log_line_for_line
           (IPv4.network None IPv4.web_only) "10.0.0.1" "10.0.0.1" 79 81
           true (fun k => Nat.eqb k 3) accepting (Some accepting)).
  - apply accepting_returns.
  - apply accepting_returns.
  - vm_compute. reflexivity.
Defined.

(** X6: the same for the Spanish copy, with its own lines: a verbose
    run logs "Puerto ABIERTO" or "Puerto CERRADO" for each connection
    attempt that returned a code, in order; a run that is not verbose
    logs the "Puerto ABIERTO" line of each pair found open; then the one
    line of the path the run left by, and nothing when the scan
    completed.  (The callbacks are taken to return.) *)
Theorem spanish_scan_ips_log_line_for_line net start_ip end_ip sp ep verbose
    stop_event f result_callback c tr :
  returns (Some f) -> returns result_callback ->
  run (Spanish.scan_ips net start_ip end_ip sp ep verbose stop_event
         (Some f) result_callback) = (c, tr) ->
  exists p,
    c = Normal p /\
    log_lines tr =
    (if verbose then verdict_lines spanish tr
     else open_lines spanish (opened tr)) ++ closing_lines spanish p.
Proof.
  intros Hlog Hres Hrun.
  pose proof (spanish_anatomy net verbose stop_event (Some f)
                result_callback Hlog Hres start_ip end_ip sp ep) as H.
  rewrite Hrun in H. now apply anatomy_log in H.
Qed.

Lemma spanish_scan_ips_log_line_for_line_witness :
  exists p,
    Normal Completed = Normal p /\
    log_lines
      [IsSet false; AddrText 167772161;
       IsSet false; Socket; SetTimeout; ConnectEx "10.0.0.1" 79 (inr 111);
       Close;
       IsSet false; Socket; SetTimeout; ConnectEx "10.0.0.1" 80 (inr 0);
       Log "✓ Puerto ABIERTO → IP: 10.0.0.1, Puerto: 80"; Close;
       Done [("10.0.0.1", 80)]] =
    open_lines spanish
      (opened
         [IsSet false; AddrText 167772161;
          IsSet false; Socket; SetTimeout; ConnectEx "10.0.0.1" 79 (inr 111);
          Close;
          IsSet false; Socket; SetTimeout; ConnectEx "10.0.0.1" 80 (inr 0);
          Log "✓ Puerto ABIERTO → IP: 10.0.0.1, Puerto: 80"; Close;
          Done [("10.0.0.1", 80)]])
    ++ closing_lines spanish p.
Proof.
  apply (spanish_scan_ips_log_line_for_line
           (IPv4.network None IPv4.web_only) "10.0.0.1" "10.0.0.1" 79 80
           false never_set accepting (Some accepting)).
  - apply accepting_returns.
  - apply accepting_returns.
  - vm_compute. reflexivity.
Defined.

(** ** An address that does not parse *)

(** X7: when the start address does not parse, or the start address
    parses and the end address does not, the run is over at once: the
    engine logs the fault line of the parser's exception, hands over the
    empty list and returns.  It asks the stop event nothing, creates no
    socket and connects to nothing, whatever the ports and the state of
    the stop event.  (The callbacks are taken to return.) *)
Theorem scan_ips_unparsed_address net start_ip end_ip sp ep verbose
    stop_event log_callback result_callback e :
  returns log_callback -> returns result_callback ->
  ip_address net start_ip = inl e \/
  (exists a, ip_address net start_ip = inr a) /\
  ip_address net end_ip = inl e ->
  run (English.scan_ips net start_ip end_ip sp ep verbose stop_event
         log_callback result_callback) =
  (Normal (Faulted e),
   log_line log_callback (English.msg_fault e)
     ++ done_line result_callback []).
Proof.
  intros Hlog Hres Hbad.
  pose proof (english_anatomy net verbose stop_event log_callback
                result_callback Hlog Hres start_ip end_ip sp ep) as H.
  destruct (run _) as [c tr].
  inversion H as [e' He' Heq|a b Ha Hb _ Heq|a b steps en Ha Hb _ _ Heq];
    subst; clear H.
  - assert (e' = e) as ->; [|reflexivity].
    destruct Hbad as [Hs|[(a & Hs) He]], He' as [Hs'|[(a' & Hs') He']];
      congruence.
  - destruct Hbad as [Hs|[_ He]]; congruence.
  - destruct Hbad as [Hs|[_ He]]; congruence.
Qed.

Lemma scan_ips_unparsed_address_witness :
  run (English.scan_ips (IPv4.network None IPv4.all_open)
         "10.0.0.1" "10.0.0.256" 1 1024 true (fun _ => true)
         (Some accepting) (Some accepting)) =
  (Normal
     (Faulted
        (Exception
           "'10.0.0.256' does not appear to be an IPv4 or IPv6 address")),
   log_line (Some (@accepting string))
     (English.msg_fault
        (Exception
           "'10.0.0.256' does not appear to be an IPv4 or IPv6 address"))
     ++ done_line (Some (@accepting results)) []).
Proof.
  apply (scan_ips_unparsed_address
           (IPv4.network None IPv4.all_open) "10.0.0.1" "10.0.0.256" 1 1024
           true (fun _ => true) (Some accepting) (Some accepting)).
  - apply accepting_returns.
  - apply accepting_returns.
  - right. split; [now exists 167772161|reflexivity].
Defined.

(** ** The socket of a connection attempt *)

(** X8: no connection is attempted on a socket without a timeout, or on
    a socket of an earlier attempt: in the calls of a run, each
    [connect_ex] comes directly after the creation of a socket and the
    setting of its timeout, which come directly after a check that found
    the stop event unset.  (The callbacks are taken to return.) *)
Theorem scan_ips_connects_on_fresh_socket net start_ip end_ip sp ep verbose
    stop_event log_callback result_callback c tr :
  returns log_callback -> returns result_callback ->
  run (English.scan_ips net start_ip end_ip sp ep verbose stop_event
         log_callback result_callback) = (c, tr) ->
  forall pre ip port r post,
    tr = pre ++ ConnectEx ip port r :: post ->
    exists pre', pre = pre' ++ [IsSet false; Socket; SetTimeout].
Proof.
  intros Hlog Hres Hrun.
  pose proof (english_anatomy net verbose stop_event log_callback
                result_callback Hlog Hres start_ip end_ip sp ep) as H.
  rewrite Hrun in H.
  inversion H as [e _ Heq|a b _ _ _ Heq|a b steps en Ha Hb Hab Hex Heq];
    subst; clear H; intros pre ip port r post Htr.
  - apply log_done_split in Htr. destruct Htr; discriminate.
  - apply log_done_split in Htr. destruct Htr; discriminate.
  - apply trace_split in Htr.
    destruct Htr as [(s1 & s & s2 & b1 & b2 & -> & Hs & -> & ->)|
                     (m1 & m2 & Hepi & -> & ->)].
    + destruct s as [n|n port' code]; cbn [render_step] in Hs.
      * places Hs.
      * destruct (probe_log_cases net english verbose log_callback
                    n port' code) as [Hpl | [line Hpl]];
          rewrite Hpl in Hs; cbn in Hs; places Hs;
          eexists; reflexivity.
    + destruct en as [| |e calls]; cbn [epilogue farewell] in Hepi.
      * unfold done_line in Hepi. destruct result_callback; places Hepi.
      * apply cons_split in Hepi.
        destruct Hepi as [(_ & Hev & _)|(b1' & -> & Hepi)]; [discriminate|].
        apply log_done_split in Hepi. destruct Hepi; discriminate.
      * apply exec_broke_inv in Hex.
        destruct Hex as [[-> _]|(n & port' & -> & _)]; cbn in Hepi.
        -- apply cons_split in Hepi.
           destruct Hepi as [(_ & Hev & _)|(b1' & -> & Hepi)];
             [discriminate|].
           apply cons_split in Hepi.
           destruct Hepi as [(_ & Hev & _)|(b2' & -> & Hepi)];
             [discriminate|].
           apply log_done_split in Hepi. destruct Hepi; discriminate.
        -- do 3 (apply cons_split in Hepi;
                 destruct Hepi as [(_ & Hev & _)|(? & -> & Hepi)];
                 [discriminate|]).
           apply cons_split in Hepi.
           destruct Hepi as [(-> & _ & _)|(? & -> & Hepi)].
           ++ eexists. reflexivity.
           ++ apply log_done_split in Hepi. destruct Hepi; discriminate.
Qed.

Lemma scan_ips_connects_on_fresh_socket_witness :
  exists pre',
    [IsSet false; AddrText 167772161; IsSet false; Socket; SetTimeout]
    = pre' ++ [IsSet false; Socket; SetTimeout].
Proof.
  pose (r := run (English.scan_ips (IPv4.network None IPv4.web_only)
                    "10.0.0.1" "10.0.0.1" 80 80 false never_set
                    (Some accepting) (Some accepting))).
  apply (scan_ips_connects_on_fresh_socket
           (IPv4.network None IPv4.web_only) "10.0.0.1" "10.0.0.1" 80 80
           false never_set (Some accepting) (Some accepting)
           (fst r) (snd r)
           accepting_returns accepting_returns (surjective_pairing r)
           [IsSet false; AddrText 167772161; IsSet false; Socket; SetTimeout]
           "10.0.0.1" 80 (inr 0)
           [Log "✓ OPEN port → IP: 10.0.0.1, Port: 80"; Close;
            Done [("10.0.0.1", 80)]]).
  vm_compute. reflexivity.
Defined.

(** * The validators

    ** Pieces of a pattern *)

Lemma re_seq_in (p q : matcher) s r :
  In r (re_seq p q s) <-> exists m, In m (p s) /\ In r (q m).
Proof. unfold re_seq. apply in_flat_map. Qed.

Lemma re_digit_in lib s r :
  In r (re_digit lib s) <->
  exists c, s = c :: r /\ decimal_digit lib c <> None.
Proof.
  unfold re_digit. destruct s as [|c s]; cbn.
  - split; [intros []|intros (c & H & _); discriminate].
  - destruct (decimal_digit lib c) eqn:Hc; cbn.
    + split.
      * intros [<-|[]]. exists c. split; [reflexivity|congruence].
      * intros (c' & H & _). inversion H. now left.
    + split; [intros []|]. intros (c' & H & Hc'). inversion H; subst.
      congruence.
Qed.

Lemma re_char_in c s r : In r (re_char c s) <-> s = c :: r.
Proof.
  unfold re_char. destruct s as [|c' s]; cbn.
  - split; [intros []|discriminate].
  - destruct (N.eqb_spec c' c) as [->|Hne]; cbn.
    + split; [intros [<-|[]]; reflexivity|]. intros H; inversion H. now left.
    + split; [intros []|]. intros H; inversion H; subst. contradiction.
Qed.

Lemma re_end_in s r :
  In r (re_end s) <-> r = s /\ (s = [] \/ s = [newline]).
Proof.
  unfold re_end. destruct s as [|c [|c' s]]; cbn.
  - split; [intros [<-|[]]; auto|]. intros [-> _]. now left.
  - destruct (N.eqb_spec c newline) as [->|Hne]; cbn.
    + split; [intros [<-|[]]; auto|]. intros [-> _]. now left.
    + split; [intros []|]. intros [_ [H|H]]; inversion H. contradiction.
  - split; [intros []|]. intros [_ [H|H]]; discriminate.
Qed.

(** [\d{1,3}] takes one to three digits off the head of the text. *)
Lemma re_octet_in lib s r :
  In r (re_1_3 (re_digit lib) s) <->
  exists g, s = g ++ r /\ (1 <= List.length g <= 3)%nat /\
            Forall (fun c => decimal_digit lib c <> None) g.
Proof.
  unfold re_1_3. rewrite !in_app_iff, !re_seq_in. split.
  - intros [(m1 & H1 & H2)|[(m1 & H1 & H2)|H1]].
    + apply re_seq_in in H2. destruct H2 as (m2 & H2 & H3).
      apply re_digit_in in H1, H2, H3.
      destruct H1 as (c1 & -> & Hc1), H2 as (c2 & -> & Hc2),
        H3 as (c3 & -> & Hc3).
      exists [c1; c2; c3]. repeat split; cbn; try lia.
      repeat constructor; assumption.
    + apply re_digit_in in H1, H2.
      destruct H1 as (c1 & -> & Hc1), H2 as (c2 & -> & Hc2).
      exists [c1; c2]. repeat split; cbn; try lia.
      repeat constructor; assumption.
    + apply re_digit_in in H1. destruct H1 as (c1 & -> & Hc1).
      exists [c1]. repeat split; cbn; try lia.
      repeat constructor; assumption.
  - intros (g & -> & Hlen & Hg).
    destruct g as [|c1 [|c2 [|c3 [|c4 g]]]]; cbn in Hlen; try lia.
    + right. right. apply re_digit_in. exists c1.
      inversion Hg; subst. now split.
    + right. left. inversion Hg as [|? ? Hc1 Hg']; subst.
      inversion Hg'; subst. exists (c2 :: r). split; apply re_digit_in.
      * now exists c1.
      * now exists c2.
    + left. inversion Hg as [|? ? Hc1 Hg']; subst.
      inversion Hg' as [|? ? Hc2 Hg'']; subst. inversion Hg''; subst.
      exists (c2 :: c3 :: r). split; [apply re_digit_in; now exists c1|].
      apply re_seq_in. exists (c3 :: r). split; apply re_digit_in.
      * now exists c2.
      * now exists c3.
Qed.

(** ** Digits *)

Lemma digits_from_all lib g :
  forall acc,
  Forall (fun c => decimal_digit lib c <> None) g <->
  exists v, digits_from lib acc g = Some v.
Proof.
  induction g as [|c g IH]; intros acc; cbn.
  - split; [eauto|constructor].
  - destruct (decimal_digit lib c) as [d|] eqn:Hc.
    + rewrite <- IH. split.
      * intros H. now inversion H.
      * intros H. constructor; [congruence|assumption].
    + split.
      * intros H. inversion H; subst. congruence.
      * intros (v & H). discriminate.
Qed.

Lemma digits_from_nonneg lib g :
  lawful lib -> forall acc v,
  0 <= acc -> digits_from lib acc g = Some v -> 0 <= v.
Proof.
  intros Hlib. induction g as [|c g IH]; intros acc v Hacc; cbn.
  - intros H; inversion H; subst. assumption.
  - destruct (decimal_digit lib c) as [d|] eqn:Hc; [|discriminate].
    intros H. apply (IH (10 * acc + d)); [|assumption].
    pose proof (digit_range lib Hlib c d Hc). lia.
Qed.

Lemma digits_have_no_dot lib g :
  lawful lib -> Forall (fun c => decimal_digit lib c <> None) g ->
  forall c, In c g -> c <> dot.
Proof.
  intros Hlib Hg c Hin ->. rewrite Forall_forall in Hg.
  apply (Hg dot Hin). apply (dot_no_digit lib Hlib).
Qed.

(** ** Splitting at the dots *)

Lemma str_split_plain sep g :
  (forall c, In c g -> c <> sep) -> str_split sep g = [g].
Proof.
  induction g as [|c g IH]; cbn; intros Hg; [reflexivity|].
  destruct (N.eqb_spec c sep) as [->|_].
  - exfalso. now apply (Hg sep); [left|].
  - rewrite IH; [reflexivity|]. intros c' Hc'. apply Hg. now right.
Qed.

Lemma str_split_group sep g rest :
  (forall c, In c g -> c <> sep) ->
  str_split sep (g ++ sep :: rest) = g :: str_split sep rest.
Proof.
  induction g as [|c g IH]; cbn; intros Hg.
  - now rewrite N.eqb_refl.
  - destruct (N.eqb_spec c sep) as [->|_].
    + exfalso. now apply (Hg sep); [left|].
    + rewrite IH; [reflexivity|]. intros c' Hc'. apply Hg. now right.
Qed.

(** ** What the pattern matches, and what [int] reads of it *)

Lemma dotted_quad_in lib ip r :
  In r (dotted_quad lib ip) <->
  exists g1 g2 g3 g4,
    ip = g1 ++ dot :: g2 ++ dot :: g3 ++ dot :: g4 ++ r /\
    (r = [] \/ r = [newline]) /\
    Forall
      (fun g => (1 <= List.length g <= 3)%nat /\
                Forall (fun c => decimal_digit lib c <> None) g)
      [g1; g2; g3; g4].
Proof.
  unfold dotted_quad. split.
  - intros H.
    apply re_seq_in in H. destruct H as (m1 & H1 & H).
    apply re_seq_in in H. destruct H as (m2 & D1 & H).
    apply re_seq_in in H. destruct H as (m3 & H2 & H).
    apply re_seq_in in H. destruct H as (m4 & D2 & H).
    apply re_seq_in in H. destruct H as (m5 & H3 & H).
    apply re_seq_in in H. destruct H as (m6 & D3 & H).
    apply re_seq_in in H. destruct H as (m7 & H4 & H).
    apply re_octet_in in H1, H2, H3, H4. apply re_char_in in D1, D2, D3.
    apply re_end_in in H.
    destruct H1 as (g1 & -> & L1 & F1), H2 as (g2 & -> & L2 & F2),
      H3 as (g3 & -> & L3 & F3), H4 as (g4 & -> & L4 & F4),
      H as (-> & Hend).
    subst. exists g1, g2, g3, g4. split; [reflexivity|].
    split; [assumption|].
    repeat (apply Forall_cons; [split; assumption|]). apply Forall_nil.
  - intros (g1 & g2 & g3 & g4 & -> & Hend & Hg).
    inversion Hg as [|? ? [L1 F1] Hg1]; subst.
    inversion Hg1 as [|? ? [L2 F2] Hg2]; subst.
    inversion Hg2 as [|? ? [L3 F3] Hg3]; subst.
    inversion Hg3 as [|? ? [L4 F4] _]; subst.
    apply re_seq_in. eexists. split; [apply re_octet_in; now exists g1|].
    apply re_seq_in. eexists. split; [now apply re_char_in|].
    apply re_seq_in. eexists. split; [apply re_octet_in; now exists g2|].
    apply re_seq_in. eexists. split; [now apply re_char_in|].
    apply re_seq_in. eexists. split; [apply re_octet_in; now exists g3|].
    apply re_seq_in. eexists. split; [now apply re_char_in|].
    apply re_seq_in. eexists. split; [apply re_octet_in; now exists g4|].
    apply re_end_in. now split.
Qed.

Lemma re_match_in (p : matcher) s :
  re_match p s = true <-> exists r, In r (p s).
Proof.
  unfold re_match. destruct (p s) as [|r l]; split.
  - discriminate.
  - intros (r & []).
  - intros _. exists r. now left.
  - reflexivity.
Qed.

Section Reading.
Variable lib : builtins.
Hypothesis lib_lawful : lawful lib.

(** The parts of a matched text, and their reading by [int]. *)
Lemma split_matched g1 g2 g3 g4 tail :
  Forall
    (fun g => (1 <= List.length g <= 3)%nat /\
              Forall (fun c => decimal_digit lib c <> None) g)
    [g1; g2; g3; g4] ->
  tail = [] \/ tail = [newline] ->
  str_split dot (g1 ++ dot :: g2 ++ dot :: g3 ++ dot :: g4 ++ tail) =
  [g1; g2; g3; g4 ++ tail].
Proof.
  intros Hg Htail.
  inversion Hg as [|? ? [L1 F1] Hg1]; subst.
  inversion Hg1 as [|? ? [L2 F2] Hg2]; subst.
  inversion Hg2 as [|? ? [L3 F3] Hg3]; subst.
  inversion Hg3 as [|? ? [L4 F4] _]; subst.
  rewrite !str_split_group by now apply (digits_have_no_dot lib).
  rewrite str_split_plain; [reflexivity|].
  intros c Hc. apply in_app_or in Hc. destruct Hc as [Hc|Hc].
  - now apply (digits_have_no_dot lib g4).
  - destruct Htail as [->| ->]; [contradiction|].
    destruct Hc as [<-|[]]. discriminate.
Qed.

Lemma int_of_group g tail :
  (1 <= List.length g <= 3)%nat ->
  Forall (fun c => decimal_digit lib c <> None) g ->
  tail = [] \/ tail = [newline] ->
  exists v, digits_value lib g = Some v /\ 0 <= v /\
            int_of_str lib (g ++ tail) = inr v.
Proof.
  intros Hlen Hg Htail.
  apply (digits_from_all lib g 0) in Hg. destruct Hg as (v & Hv).
  exists v. split; [assumption|]. split.
  - now apply (digits_from_nonneg lib g lib_lawful 0 v).
  - destruct (int_of_digits lib lib_lawful g v Hlen Hv) as [H1 H2].
    destruct Htail as [->| ->]; [now rewrite app_nil_r|assumption].
Qed.

Lemma octets_of_matched g1 g2 g3 g4 tail :
  Forall
    (fun g => (1 <= List.length g <= 3)%nat /\
              Forall (fun c => decimal_digit lib c <> None) g)
    [g1; g2; g3; g4] ->
  tail = [] \/ tail = [newline] ->
  exists v1 v2 v3 v4,
    digits_value lib g1 = Some v1 /\ digits_value lib g2 = Some v2 /\
    digits_value lib g3 = Some v3 /\ digits_value lib g4 = Some v4 /\
    all_octets lib [g1; g2; g3; g4 ++ tail] =
    inr ((v1 <=? 255) && (v2 <=? 255) && (v3 <=? 255) && (v4 <=? 255)).
Proof.
  intros Hg Htail.
  inversion Hg as [|? ? [L1 F1] Hg1]; subst.
  inversion Hg1 as [|? ? [L2 F2] Hg2]; subst.
  inversion Hg2 as [|? ? [L3 F3] Hg3]; subst.
  inversion Hg3 as [|? ? [L4 F4] _]; subst.
  destruct (int_of_group g1 [] L1 F1 (or_introl eq_refl))
    as (v1 & D1 & P1 & I1).
  destruct (int_of_group g2 [] L2 F2 (or_introl eq_refl))
    as (v2 & D2 & P2 & I2).
  destruct (int_of_group g3 [] L3 F3 (or_introl eq_refl))
    as (v3 & D3 & P3 & I3).
  destruct (int_of_group g4 tail L4 F4 Htail) as (v4 & D4 & P4 & I4).
  rewrite app_nil_r in I1, I2, I3.
  exists v1, v2, v3, v4. repeat split; try assumption.
  cbn [all_octets]. rewrite I1, I2, I3, I4.
  replace (0 <=? v1) with true by (symmetry; now apply Z.leb_le).
  replace (0 <=? v2) with true by (symmetry; now apply Z.leb_le).
  replace (0 <=? v3) with true by (symmetry; now apply Z.leb_le).
  replace (0 <=? v4) with true by (symmetry; now apply Z.leb_le).
  cbn [andb].
  destruct (v1 <=? 255), (v2 <=? 255), (v3 <=? 255), (v4 <=? 255);
    reflexivity.
Qed.
End Reading.

(** X9: which texts [is_valid_ip_address] accepts.  Exactly those made
    of four groups of one to three decimal digits, each writing a
    number up to 255, with a dot between the groups - and nothing else
    but, possibly, one newline at the very end, which [$] and [int] both
    let pass.  Leading zeros are accepted ("010.001.000.255"); a sign, a
    blank or a fifth group is not. *)
Theorem is_valid_ip_address_accepts lib ip :
  lawful lib ->
  (is_valid_ip_address lib ip = true <->
   exists g1 g2 g3 g4 tail,
     ip = g1 ++ dot :: g2 ++ dot :: g3 ++ dot :: g4 ++ tail /\
     (tail = [] \/ tail = [newline]) /\
     octet_text lib g1 /\ octet_text lib g2 /\
     octet_text lib g3 /\ octet_text lib g4).
Proof.
  intros Hlib. unfold is_valid_ip_address. split.
  - destruct (re_match (dotted_quad lib) ip) eqn:Hm; cbn [negb];
      [|discriminate].
    apply re_match_in in Hm. destruct Hm as (tail & Hm).
    apply dotted_quad_in in Hm.
    destruct Hm as (g1 & g2 & g3 & g4 & -> & Htail & Hg).
    rewrite (split_matched lib Hlib g1 g2 g3 g4 tail Hg Htail).
    destruct (octets_of_matched lib Hlib g1 g2 g3 g4 tail Hg Htail)
      as (v1 & v2 & v3 & v4 & D1 & D2 & D3 & D4 & ->).
    intros Hall. apply andb_prop in Hall. destruct Hall as [Hall H4].
    apply andb_prop in Hall. destruct Hall as [Hall H3].
    apply andb_prop in Hall. destruct Hall as [H1 H2].
    apply Z.leb_le in H1, H2, H3, H4.
    inversion Hg as [|? ? [L1 _] Hg1]; subst.
    inversion Hg1 as [|? ? [L2 _] Hg2]; subst.
    inversion Hg2 as [|? ? [L3 _] Hg3]; subst.
    inversion Hg3 as [|? ? [L4 _] _]; subst.
    exists g1, g2, g3, g4, tail. unfold octet_text.
    repeat split; try assumption; try lia; eauto.
  - intros (g1 & g2 & g3 & g4 & tail & -> & Htail & O1 & O2 & O3 & O4).
    destruct O1 as (L1 & v1 & D1 & B1), O2 as (L2 & v2 & D2 & B2),
      O3 as (L3 & v3 & D3 & B3), O4 as (L4 & v4 & D4 & B4).
    assert (Hg : Forall
              (fun g => (1 <= List.length g <= 3)%nat /\
                        Forall (fun c => decimal_digit lib c <> None) g)
              [g1; g2; g3; g4]).
    { repeat (apply Forall_cons;
                [split; [assumption|apply (digits_from_all lib _ 0); eauto]|]).
      apply Forall_nil. }
    assert (Hm : re_match (dotted_quad lib)
                   (g1 ++ dot :: g2 ++ dot :: g3 ++ dot :: g4 ++ tail)
                 = true).
    { apply re_match_in. exists tail. apply dotted_quad_in.
      now exists g1, g2, g3, g4. }
    rewrite Hm. cbn [negb].
    rewrite (split_matched lib Hlib g1 g2 g3 g4 tail Hg Htail).
    destruct (octets_of_matched lib Hlib g1 g2 g3 g4 tail Hg Htail)
      as (w1 & w2 & w3 & w4 & E1 & E2 & E3 & E4 & ->).
    assert (w1 = v1) by congruence. assert (w2 = v2) by congruence.
    assert (w3 = v3) by congruence. assert (w4 = v4) by congruence.
    subst.
    apply Z.leb_le in B1, B2, B3, B4. now rewrite B1, B2, B3, B4.
Qed.

(** X10: the handler [except ValueError] of [is_valid_ip_address] is
    never entered: on a text the pattern matches, [int] reads every part
    between the dots, so the octets are compared to the end or to the
    first one out of range, and no exception is raised. *)
Theorem is_valid_ip_address_reads_every_octet lib ip :
  lawful lib ->
  re_match (dotted_quad lib) ip = true ->
  exists in_range, all_octets lib (str_split dot ip) = inr in_range.
Proof.
  intros Hlib Hm.
  apply re_match_in in Hm. destruct Hm as (tail & Hm).
  apply dotted_quad_in in Hm.
  destruct Hm as (g1 & g2 & g3 & g4 & -> & Htail & Hg).
  rewrite (split_matched lib Hlib g1 g2 g3 g4 tail Hg Htail).
  destruct (octets_of_matched lib Hlib g1 g2 g3 g4 tail Hg Htail)
    as (v1 & v2 & v3 & v4 & _ & _ & _ & _ & ->).
  eauto.
Qed.

(** ** The plain library is lawful *)

Lemma plain_digit_bounds c d :
  Plain.decimal c = Some d -> (48 <= c <= 57)%N /\ d = Z.of_N c - 48.
Proof.
  unfold Plain.decimal.
  destruct (N.leb_spec 48 c), (N.leb_spec c 57); cbn; intros Hd;
    inversion Hd; subst. lia.
Qed.

Lemma plain_digit_no_space c d :
  Plain.decimal c = Some d -> Plain.is_space c = false.
Proof.
  intros H. apply plain_digit_bounds in H. destruct H as [H _].
  unfold Plain.is_space.
  destruct (N.eqb_spec c 32); [lia|].
  destruct (N.leb_spec 9 c), (N.leb_spec c 13); cbn; try reflexivity. lia.
Qed.

Lemma plain_lstrip_digit c d s :
  Plain.decimal c = Some d -> Plain.lstrip (c :: s) = c :: s.
Proof. intros H. cbn. now rewrite (plain_digit_no_space c d H). Qed.

Lemma plain_literal_digits ds :
  forall acc v after,
  ds <> [] \/ after = true ->
  digits_from Plain.library acc ds = Some v ->
  Plain.literal ds acc after = Some v.
Proof.
  induction ds as [|c ds IH]; intros acc v after Hne; cbn.
  - destruct Hne as [Hne| ->]; [contradiction|trivial].
  - destruct (Plain.decimal c) as [d|]; [|discriminate].
    apply IH. now right.
Qed.

Lemma plain_strip_digits ds (tail : text) :
  ds <> [] ->
  Forall (fun c => Plain.decimal c <> None) ds ->
  tail = [] \/ tail = [newline] ->
  Plain.strip (ds ++ tail) = ds.
Proof.
  intros Hne Hds Htail. unfold Plain.strip.
  assert (Hhead : forall rest, Plain.lstrip (ds ++ rest) = ds ++ rest).
  { intros rest. destruct ds as [|c ds']; [contradiction|].
    inversion Hds as [|? ? Hc _]; subst.
    destruct (Plain.decimal c) as [d|] eqn:Hd; [|contradiction].
    now apply (plain_lstrip_digit c d). }
  assert (Hlast : Plain.lstrip (rev ds) = rev ds).
  { destruct (rev ds) as [|z zs] eqn:Hrev; [reflexivity|].
    assert (Hz : In z ds).
    { apply in_rev. rewrite Hrev. now left. }
    rewrite Forall_forall in Hds. specialize (Hds z Hz).
    destruct (Plain.decimal z) as [dz|] eqn:Hdz; [|contradiction].
    now apply (plain_lstrip_digit z dz). }
  rewrite Hhead, rev_app_distr.
  destruct Htail as [->| ->].
  - change (rev [] ++ rev ds) with (rev ds).
    rewrite Hlast. apply rev_involutive.
  - change (rev [newline] ++ rev ds) with (newline :: rev ds).
    change (Plain.lstrip (newline :: rev ds)) with (Plain.lstrip (rev ds)).
    rewrite Hlast. apply rev_involutive.
Qed.

Lemma plain_lawful : lawful Plain.library.
Proof.
  split.
  - reflexivity.
  - intros c d H. apply plain_digit_bounds in H. lia.
  - intros ds v Hlen Hv.
    assert (Hne : ds <> []) by (destruct ds; [cbn in Hlen; lia|discriminate]).
    assert (Hds : Forall (fun c => Plain.decimal c <> None) ds).
    { apply (digits_from_all Plain.library ds 0). eauto. }
    assert (Hread : forall tail, tail = [] \/ tail = [newline] ->
              Plain.int_of_str (ds ++ tail) = inr v).
    { intros tail Htail. unfold Plain.int_of_str.
      rewrite (plain_strip_digits ds tail Hne Hds Htail).
      destruct ds as [|c ds']; [contradiction|].
      inversion Hds as [|? ? Hc _]; subst.
      destruct (Plain.decimal c) as [d|] eqn:Hd; [|contradiction].
      apply plain_digit_bounds in Hd. destruct Hd as [Hd _].
      destruct (N.eqb_spec c 45); [lia|].
      destruct (N.eqb_spec c 43); [lia|].
      now rewrite (plain_literal_digits (c :: ds') 0 v false)
        by (auto; left; discriminate). }
    split.
    + rewrite <- (app_nil_r ds) at 1. apply Hread. now left.
    + apply Hread. now right.
Qed.

Lemma is_valid_ip_address_accepts_witness :
  is_valid_ip_address Plain.library (chars "010.001.000.255") = true <->
  exists g1 g2 g3 g4 tail,
    chars "010.001.000.255" =
      g1 ++ dot :: g2 ++ dot :: g3 ++ dot :: g4 ++ tail /\
    (tail = [] \/ tail = [newline]) /\
    octet_text Plain.library g1 /\ octet_text Plain.library g2 /\
    octet_text Plain.library g3 /\ octet_text Plain.library g4.
Proof.
  apply (is_valid_ip_address_accepts Plain.library (chars "010.001.000.255")).
  exact plain_lawful.
Defined.

Lemma is_valid_ip_address_reads_every_octet_witness :
  exists in_range,
    all_octets Plain.library
      (str_split dot (chars "192.168.001.256" ++ [newline])) = inr in_range.
Proof.
  apply (is_valid_ip_address_reads_every_octet Plain.library
           (chars "192.168.001.256" ++ [newline])).
  - exact plain_lawful.
  - vm_compute. reflexivity.
Defined.

(** The Spanish copy validates as the English one does. *)
Lemma validar_direccion_ip_same lib ip :
  validar_direccion_ip lib ip = is_valid_ip_address lib ip.
Proof. reflexivity. Qed.

Lemma validar_puerto_same lib puerto :
  validar_puerto lib puerto = is_valid_port lib puerto.
Proof. reflexivity. Qed.

(** * The window

    ** Starting a scan *)

Import PortScannerGUI.

(** The two ways [start_new_scan] ends: one complaint and nothing else,
    or a scan started with the fields read, validated and converted. *)
Lemma start_new_scan_cases lib cap now self :
  let ip1 := strip lib (entry_start_ip self) in
  let ip2 := or_else (strip lib (entry_end_ip self)) ip1 in
  let port1 := strip lib (entry_start_port self) in
  let port2 := or_else (strip lib (entry_end_port self)) port1 in
  (exists msg,
     start_new_scan lib cap now self = Returned self [LogMessage msg] /\
     In msg [invalid_start_ip cap; invalid_end_ip cap;
             invalid_start_port cap; invalid_end_port cap;
             ports_out_of_order cap]) \/
  (exists p1 p2,
     is_valid_ip_address lib ip1 = true /\
     is_valid_ip_address lib ip2 = true /\
     int_of_str lib port1 = inr p1 /\ int_of_str lib port2 = inr p2 /\
     0 <= p1 /\ p1 <= p2 /\ p2 <= 65535 /\
     let scan :=
       {| start_ip := ip1; end_ip := ip2; start_port := p1; end_port := p2;
          verbose := verbose_var self; stop := events_created self;
          t1 := now |} in
     start_new_scan lib cap now self =
     Returned
       {| entry_start_ip := entry_start_ip self;
          entry_end_ip := entry_end_ip self;
          entry_start_port := entry_start_port self;
          entry_end_port := entry_end_port self;
          verbose_var := verbose_var self;
          scan_thread := Some scan;
          stop_event := Some (events_created self);
          last_scan_results := [];
          events_created := S (events_created self) |}
       [LogAreaConfig normal; LogAreaDelete; LogAreaConfig disabled;
        LogMessage (starting cap); ThreadStart scan;
        ButtonConfigure (stop_text cap) normal]).
Proof.
  intros ip1 ip2 port1 port2. unfold start_new_scan.
  fold ip1. fold ip2. fold port1. fold port2.
  destruct (is_valid_ip_address lib ip1) eqn:H1; cbn [negb].
  2:{ left. eexists. split; [reflexivity|]. cbn. auto. }
  destruct (is_valid_ip_address lib ip2) eqn:H2; cbn [negb].
  2:{ left. eexists. split; [reflexivity|]. cbn. auto. }
  unfold is_valid_port.
  destruct (int_of_str lib port1) as [e1|p1] eqn:I1; cbn [negb].
  { left. eexists. split; [reflexivity|]. cbn. auto. }
  destruct ((0 <=? p1) && (p1 <=? 65535)) eqn:B1; cbn [negb].
  2:{ left. eexists. split; [reflexivity|]. cbn. auto. }
  destruct (int_of_str lib port2) as [e2|p2] eqn:I2; cbn [negb].
  { left. eexists. split; [reflexivity|]. cbn. auto. }
  destruct ((0 <=? p2) && (p2 <=? 65535)) eqn:B2; cbn [negb].
  2:{ left. eexists. split; [reflexivity|]. cbn. auto. }
  destruct (p1 >? p2) eqn:Hord.
  { left. eexists. split; [reflexivity|]. cbn. auto 6. }
  right. exists p1, p2.
  apply andb_prop in B1, B2. destruct B1 as [B1 B1'], B2 as [B2 B2'].
  apply Z.leb_le in B1, B1', B2, B2'.
  rewrite Z.gtb_ltb in Hord. apply Z.ltb_ge in Hord.
  repeat split; try assumption.
Qed.

(** The scan that was started, when one was. *)
Lemma started_scan lib cap now self self' acts scan :
  start_new_scan lib cap now self = Returned self' acts ->
  In (ThreadStart scan) acts ->
  let ip1 := strip lib (entry_start_ip self) in
  let ip2 := or_else (strip lib (entry_end_ip self)) ip1 in
  let port1 := strip lib (entry_start_port self) in
  let port2 := or_else (strip lib (entry_end_port self)) port1 in
  exists p1 p2,
    is_valid_ip_address lib ip1 = true /\
    is_valid_ip_address lib ip2 = true /\
    int_of_str lib port1 = inr p1 /\ int_of_str lib port2 = inr p2 /\
    0 <= p1 /\ p1 <= p2 /\ p2 <= 65535 /\
    scan =
      {| start_ip := ip1; end_ip := ip2; start_port := p1; end_port := p2;
         verbose := verbose_var self; stop := events_created self;
         t1 := now |} /\
    scan_thread self' = Some scan /\
    stop_event self' = Some (stop scan) /\
    last_scan_results self' = [].
Proof.
  intros Hrun Hin ip1 ip2 port1 port2.
  destruct (start_new_scan_cases lib cap now self)
    as [(msg & H & _)|(p1 & p2 & V1 & V2 & I1 & I2 & B1 & B2 & B3 & H)].
  - rewrite H in Hrun. inversion Hrun; subst.
    destruct Hin as [Hin|[]]. discriminate.
  - cbn zeta in H. rewrite H in Hrun. inversion Hrun; subst. clear Hrun.
    cbn in Hin.
    destruct Hin as [Hin|[Hin|[Hin|[Hin|[Hin|[Hin|[]]]]]]];
      try discriminate.
    inversion Hin; subst. exists p1, p2. cbn. repeat split; assumption.
Qed.

(** X11: [start_new_scan] never lets an exception out - the two
    conversions [int(start_port)] and [int(end_port)] are made on texts
    that [is_valid_port] has just accepted - and it ends in one of two
    ways: it starts a scan thread, or it logs exactly one complaint,
    about an address, a port or the order of the ports, and leaves the
    window as it was: no thread, the log and the results of the last
    scan untouched. *)
Theorem start_new_scan_starts_or_complains lib cap now self :
  exists self' acts,
    start_new_scan lib cap now self = Returned self' acts /\
    ((exists scan, In (ThreadStart scan) acts) \/
     (self' = self /\
      exists msg,
        acts = [LogMessage msg] /\
        In msg [invalid_start_ip cap; invalid_end_ip cap;
                invalid_start_port cap; invalid_end_port cap;
                ports_out_of_order cap])).
Proof.
  destruct (start_new_scan_cases lib cap now self)
    as [(msg & -> & Hmsg)|(p1 & p2 & _ & _ & _ & _ & _ & _ & _ & H)].
  - do 2 eexists. split; [reflexivity|]. right. split; [reflexivity|].
    now exists msg.
  - cbn zeta in H. rewrite H. do 2 eexists. split; [reflexivity|].
    left. eexists. cbn. eauto 6.
Qed.

(** X12: a scan is started only on validated input.  The thread
    [start_new_scan] starts is given the start address as typed, blanks
    stripped, and the end address likewise, or the start address when
    that field is blank; both pass [is_valid_ip_address]; the ports are
    the numbers [int] reads in the port fields (the end port field
    replaced by the start port field when blank), and they satisfy
    0 <= start port <= end port <= 65535.  The window then holds that
    thread and its stop event, and the results of the last scan are
    cleared. *)
Theorem start_new_scan_starts_valid_scan lib cap now self self' acts scan :
  start_new_scan lib cap now self = Returned self' acts ->
  In (ThreadStart scan) acts ->
  start_ip scan = strip lib (entry_start_ip self) /\
  end_ip scan = or_else (strip lib (entry_end_ip self)) (start_ip scan) /\
  is_valid_ip_address lib (start_ip scan) = true /\
  is_valid_ip_address lib (end_ip scan) = true /\
  int_of_str lib (strip lib (entry_start_port self))
    = inr (start_port scan) /\
  int_of_str lib
    (or_else (strip lib (entry_end_port self))
       (strip lib (entry_start_port self)))
    = inr (end_port scan) /\
  0 <= start_port scan /\ start_port scan <= end_port scan /\
  end_port scan <= 65535 /\
  verbose scan = verbose_var self /\
  scan_thread self' = Some scan /\ stop_event self' = Some (stop scan) /\
  last_scan_results self' = [].
Proof.
  intros Hrun Hin.
  destruct (started_scan lib cap now self self' acts scan Hrun Hin)
    as (p1 & p2 & V1 & V2 & I1 & I2 & B1 & B2 & B3 & -> & T & E & L).
  cbn. cbn in T, E. repeat split; assumption.
Qed.

Lemma start_new_scan_starts_valid_scan_witness :
  let self :=
    {| entry_start_ip := chars " 10.0.0.1"; entry_end_ip := chars "  ";
       entry_start_port := chars "80 "; entry_end_port := chars "443";
       verbose_var := true; scan_thread := None; stop_event := None;
       last_scan_results := [("10.0.0.9", 22)]; events_created := 0 |} in
  let scan :=
    {| start_ip := chars "10.0.0.1"; end_ip := chars "10.0.0.1";
       start_port := 80; end_port := 443; verbose := true; stop := 0%nat;
       t1 := 1000000 |} in
  let self' :=
    {| entry_start_ip := chars " 10.0.0.1"; entry_end_ip := chars "  ";
       entry_start_port := chars "80 "; entry_end_port := chars "443";
       verbose_var := true; scan_thread := Some scan;
       stop_event := Some 0%nat;
       last_scan_results := []; events_created := 1 |} in
  start_ip scan = strip Plain.library (entry_start_ip self) /\
  end_ip scan =
    or_else (strip Plain.library (entry_end_ip self)) (start_ip scan) /\
  is_valid_ip_address Plain.library (start_ip scan) = true /\
  is_valid_ip_address Plain.library (end_ip scan) = true /\
  int_of_str Plain.library (strip Plain.library (entry_start_port self))
    = inr (start_port scan) /\
  int_of_str Plain.library
    (or_else (strip Plain.library (entry_end_port self))
       (strip Plain.library (entry_start_port self)))
    = inr (end_port scan) /\
  0 <= start_port scan /\ start_port scan <= end_port scan /\
  end_port scan <= 65535 /\
  verbose scan = verbose_var self /\
  scan_thread self' = Some scan /\ stop_event self' = Some (stop scan) /\
  last_scan_results self' = [].
Proof.
  intros self scan self'.
  apply (start_new_scan_starts_valid_scan Plain.library english_captions
           1000000 self self'
           [LogAreaConfig normal; LogAreaDelete; LogAreaConfig disabled;
            LogMessage (starting english_captions); ThreadStart scan;
            ButtonConfigure (stop_text english_captions) normal]).
  - vm_compute. reflexivity.
  - cbn. auto 6.
Defined.

(** ** The scan the window starts, in the engine *)

Lemma schedule_one_pair a p :
  schedule a a p p = [AddressSlot a; PortSlot a p].
Proof.
  rewrite schedule_cons by lia. rewrite schedule_nil by lia.
  unfold port_slots. rewrite range_cons by lia. rewrite range_nil by lia.
  reflexivity.
Qed.

(** X13: validation keeps the engine within the ports that exist.  In
    the run of a scan the window has started, every connection attempt
    goes to a port between 0 and 65535 - and between the two ports
    typed - so that [connect_ex] is never given a port it refuses. *)
Theorem started_scan_probes_valid_ports lib cap now self self' acts scan
    net flag a b c tr :
  start_new_scan lib cap now self = Returned self' acts ->
  In (ThreadStart scan) acts ->
  ip_address net (utf8 (start_ip scan)) = inr a ->
  ip_address net (utf8 (end_ip scan)) = inr b ->
  thread_run net scan flag = (c, tr) ->
  forall pre ip port r post,
    tr = pre ++ ConnectEx ip port r :: post ->
    0 <= port <= 65535 /\ start_port scan <= port <= end_port scan.
Proof.
  intros Hstart Hin Ha Hb Hrun pre ip port r post Htr.
  assert (Hports : 0 <= start_port scan /\ end_port scan <= 65535).
  { destruct (started_scan lib cap now self self' acts scan Hstart Hin)
      as (p1 & p2 & _ & _ & _ & _ & B1 & B2 & B3 & -> & _).
    cbn. now split. }
  unfold thread_run in Hrun.
  pose proof (english_anatomy net (verbose scan) flag (Some accepting)
                (Some accepting) accepting_returns accepting_returns
                (utf8 (start_ip scan)) (utf8 (end_ip scan))
                (start_port scan) (end_port scan)) as H.
  rewrite Hrun in H.
  destruct (anatomy_probes _ _ _ _ _ _ _ _ _ _ _ _ _ _ Ha Hb H)
    as (tried & rest & Hsched & Hprobes & _).
  assert (Hpair : In (ip, port) (probes tr)).
  { rewrite Htr, probes_app. apply in_or_app. right. now left. }
  rewrite Hprobes in Hpair. apply in_map_iff in Hpair.
  destruct Hpair as ([n q] & Hq & Hpair). inversion Hq; subst.
  assert (Hrange : a <= n <= b /\
                   start_port scan <= port <= end_port scan).
  { apply in_slot_keys_schedule. rewrite Hsched. apply in_or_app. now left. }
  lia.
Qed.

Lemma started_scan_probes_valid_ports_witness :
  0 <= 80 <= 65535 /\ 80 <= 80 <= 80.
Proof.
  pose (self :=
    {| entry_start_ip := chars "10.0.0.1"; entry_end_ip := [];
       entry_start_port := chars "80"; entry_end_port := [];
       verbose_var := false; scan_thread := None; stop_event := None;
       last_scan_results := []; events_created := 0 |}).
  pose (scan :=
    {| start_ip := chars "10.0.0.1"; end_ip := chars "10.0.0.1";
       start_port := 80; end_port := 80; verbose := false; stop := 0%nat;
       t1 := 0 |}).
  pose (r := thread_run (IPv4.network None IPv4.web_only) scan never_set).
  apply (started_scan_probes_valid_ports Plain.library english_captions 0
           self
           {| entry_start_ip := chars "10.0.0.1"; entry_end_ip := [];
              entry_start_port := chars "80"; entry_end_port := [];
              verbose_var := false; scan_thread := Some scan;
              stop_event := Some 0%nat;
              last_scan_results := []; events_created := 1 |}
           [LogAreaConfig normal; LogAreaDelete; LogAreaConfig disabled;
            LogMessage (starting english_captions); ThreadStart scan;
            ButtonConfigure (stop_text english_captions) normal]
           scan (IPv4.network None IPv4.web_only) never_set
           167772161 167772161 (fst r) (snd r)
           eq_refl ltac:(cbn; auto 6) eq_refl eq_refl
           (surjective_pairing r)
           [IsSet false; AddrText 167772161; IsSet false; Socket; SetTimeout]
           "10.0.0.1" 80 (inr 0)
           [Log "✓ OPEN port → IP: 10.0.0.1, Port: 80"; Close;
            Done [("10.0.0.1", 80)]]).
  vm_compute. reflexivity.
Defined.

(** X14: the two fields marked optional.  When the end address and the
    end port are left blank, the scan the window starts is the scan of
    one pair: if the engine's parser reads the start address, the stop
    event stays unset and the socket library answers, the run connects
    exactly once, to the start address and the start port, completes,
    and hands over that pair when the port was open and the empty list
    when it was not. *)
Theorem blank_end_fields_scan_one_pair lib cap now self self' acts scan
    net flag a code :
  start_new_scan lib cap now self = Returned self' acts ->
  In (ThreadStart scan) acts ->
  strip lib (entry_end_ip self) = [] ->
  strip lib (entry_end_port self) = [] ->
  ip_address net (utf8 (start_ip scan)) = inr a ->
  (forall k, flag k = false) ->
  (forall k, socket_new net k = None) ->
  connect_ex net (ip_text net a) (start_port scan) = inr code ->
  exists tr,
    thread_run net scan flag = (Normal Completed, tr) /\
    probes tr = [(ip_text net a, start_port scan)] /\
    dones tr =
      [if code =? 0 then [(ip_text net a, start_port scan)] else []].
Proof.
  intros Hstart Hin Hip Hport Ha Hflag Hsock Hconn.
  destruct (started_scan lib cap now self self' acts scan Hstart Hin)
    as (p1 & p2 & _ & _ & I1 & I2 & _ & _ & _ & Hscan & _).
  rewrite Hip, Hport in *. cbn [or_else] in *.
  assert (Hend_ip : end_ip scan = start_ip scan) by now rewrite Hscan.
  assert (Hend_port : end_port scan = start_port scan).
  { rewrite Hscan. cbn. congruence. }
  clear Hscan.
  unfold thread_run. rewrite Hend_ip, Hend_port.
  pose proof (english_anatomy net (verbose scan) flag (Some accepting)
                (Some accepting) accepting_returns accepting_returns
                (utf8 (start_ip scan)) (utf8 (start_ip scan))
                (start_port scan) (start_port scan)) as H.
  destruct (run _) as [c tr].
  inversion H as [e [He|[_ He]] Heq|a' b' Ha' Hb' Hab Heq|
                  a' b' steps en Ha' Hb' Hab Hex Heq]; subst; clear H;
    try congruence.
  - assert (a' = a) by congruence. assert (b' = a) by congruence. lia.
  - assert (a' = a) by congruence. assert (b' = a) by congruence. subst.
    rewrite schedule_one_pair in Hex.
    assert (Hwork : forall n port,
              In (n, port)
                (slot_keys [AddressSlot a; PortSlot a (start_port scan)]) ->
              exists code', connect_ex net (ip_text net n) port = inr code').
    { intros n port [Hin'|[]]. inversion Hin'; subst. eauto. }
    destruct (exec_clean _ _ _ _ _ _ _ Hflag Hsock Hwork Hex) as [-> Hall].
    destruct steps as [|[n|n q k] [|[m|m p k'] [|s steps]]];
      try discriminate Hall.
    cbn in Hall. inversion Hall; subst.
    assert (k' = code).
    { pose proof (exec_codes _ _ _ _ _ _ _ Hex a (start_port scan) k'
                    (or_intror (or_introl eq_refl))). congruence. }
    subst k'. eexists. split; [reflexivity|]. split.
    + rewrite probes_app, probes_render. cbn [epilogue].
      rewrite (proj1 (proj2 (done_line_quiet _ _))). reflexivity.
    + rewrite dones_app, dones_render. cbn.
      destruct (code =? 0); reflexivity.
Qed.

Lemma blank_end_fields_scan_one_pair_witness :
  let scan :=
    {| start_ip := chars "10.0.0.1"; end_ip := chars "10.0.0.1";
       start_port := 80; end_port := 80; verbose := false; stop := 0%nat;
       t1 := 0 |} in
  exists tr,
    thread_run (IPv4.network None IPv4.web_only) scan never_set
    = (Normal Completed, tr) /\
    probes tr =
      [(ip_text (IPv4.network None IPv4.web_only) 167772161,
        start_port scan)] /\
    dones tr =
      [if 0 =? 0
       then [(ip_text (IPv4.network None IPv4.web_only) 167772161,
              start_port scan)]
       else []].
Proof.
  intros scan.
  apply (blank_end_fields_scan_one_pair Plain.library english_captions 0
           {| entry_start_ip := chars "10.0.0.1"; entry_end_ip := chars " ";
              entry_start_port := chars "80"; entry_end_port := [];
              verbose_var := false; scan_thread := None; stop_event := None;
              last_scan_results := []; events_created := 0 |}
           {| entry_start_ip := chars "10.0.0.1"; entry_end_ip := chars " ";
              entry_start_port := chars "80"; entry_end_port := [];
              verbose_var := false; scan_thread := Some scan;
              stop_event := Some 0%nat;
              last_scan_results := []; events_created := 1 |}
           [LogAreaConfig normal; LogAreaDelete; LogAreaConfig disabled;
            LogMessage (starting english_captions); ThreadStart scan;
            ButtonConfigure (stop_text english_captions) normal]
           scan (IPv4.network None IPv4.web_only) never_set 167772161 0).
  - vm_compute. reflexivity.
  - cbn. auto 6.
  - reflexivity.
  - reflexivity.
  - reflexivity.
  - reflexivity.
  - reflexivity.
  - reflexivity.
Defined.

(** ** The duration shown at the end of a scan *)

(** X15: the duration [on_scan_complete] logs.  It is computed from
    [total.seconds], so it is the time between the start of the scan
    and the call, in whole seconds, less the whole days: the three
    numbers shown are below 24, 60 and 60, they add up to the seconds
    elapsed modulo 86400, and to the seconds elapsed themselves when
    the scan took less than a day. *)
Theorem on_scan_complete_duration cap started now rs self :
  exists hours minutes seconds,
    In (LogMessage (duration_line cap hours minutes seconds))
       (snd (on_scan_complete cap started now rs self)) /\
    0 <= hours < 24 /\ 0 <= minutes < 60 /\ 0 <= seconds < 60 /\
    hours * 3600 + minutes * 60 + seconds
    = (now - started) / 1000000 mod 86400 /\
    (0 <= now - started < 86400000000 ->
     hours * 3600 + minutes * 60 + seconds = (now - started) / 1000000).
Proof.
  unfold on_scan_complete, timedelta_seconds. cbn [snd].
  set (total := (now - started) / 1000000 mod 86400).
  assert (Htotal : 0 <= total < 86400) by (apply Z.mod_pos_bound; lia).
  exists (total / 3600), (total mod 3600 / 60), (total mod 60).
  split; [apply in_or_app; right; now left|].
  assert (H1 : 0 <= total mod 3600 < 3600) by (apply Z.mod_pos_bound; lia).
  assert (H2 : 0 <= total mod 60 < 60) by (apply Z.mod_pos_bound; lia).
  pose proof (Z.div_mod total 3600 ltac:(lia)) as D1.
  pose proof (Z.div_mod (total mod 3600) 60 ltac:(lia)) as D2.
  assert (D3 : total mod 3600 mod 60 = total mod 60).
  { apply Z.mod_mod_divide. exists 60. reflexivity. }
  rewrite D3 in D2.
  assert (H3 : 0 <= total / 3600 < 24).
  { split; [apply Z.div_pos; lia|apply Z.div_lt_upper_bound; lia]. }
  assert (H4 : 0 <= total mod 3600 / 60 < 60).
  { split; [apply Z.div_pos; lia|apply Z.div_lt_upper_bound; lia]. }
  assert (Hsum : total / 3600 * 3600 + total mod 3600 / 60 * 60
                 + total mod 60 = total) by lia.
  repeat split; try lia.
  intros Hday. rewrite Hsum. subst total. apply Z.mod_small.
  split; [apply Z.div_pos; lia|apply Z.div_lt_upper_bound; lia].
Qed.

(** ** The scan button *)

(** The thread the window holds has the stop event the window holds. *)
Lemma reachable_thread_event lib cap self :
  reachable lib cap self ->
  forall scan, scan_thread self = Some scan ->
  stop_event self = Some (stop scan).
Proof.
  induction 1 as [|self a b c d v _ IH|self alive now self' acts _ IH Hrun|
                  self scan0 now rs _ IH _]; intros scan Hscan.
  - discriminate.
  - now apply IH.
  - assert (Hstart :
      forall out, start_new_scan lib cap now self = out ->
      out = Returned self' acts -> stop_event self' = Some (stop scan)).
    { intros out Hout ->.
      destruct (start_new_scan_cases lib cap now self)
        as [(msg & H & _)|(p1 & p2 & _ & _ & _ & _ & _ & _ & _ & H)].
      - rewrite H in Hout. inversion Hout; subst. now apply IH.
      - cbn zeta in H. rewrite H in Hout. inversion Hout; subst.
        cbn in Hscan. inversion Hscan; subst. reflexivity. }
    unfold toggle_scan in Hrun.
    destruct (scan_thread self) as [running|] eqn:Hthread;
      [|now apply (Hstart _ eq_refl)].
    destruct alive; [|now apply (Hstart _ eq_refl)].
    destruct (stop_event self) as [event|] eqn:Hevent;
      [|now apply (Hstart _ eq_refl)].
    inversion Hrun; subst. rewrite Hthread in Hscan.
    inversion Hscan; subst. rewrite Hevent. now apply IH.
  - now apply IH.
Qed.

(** X16: pressing the scan button while a scan runs.  In any state the
    window can be in, if it holds a scan thread and the thread is alive,
    [toggle_scan] sets the stop event that very scan was given, disables
    the button, and does nothing else: no second scan is started and the
    state of the window is unchanged. *)
Theorem toggle_scan_stops_the_running_scan lib cap self scan now :
  reachable lib cap self ->
  scan_thread self = Some scan ->
  toggle_scan lib cap true now self =
  Returned self
    [StopEventSet (stop scan); ButtonConfigure (stopping_text cap) disabled].
Proof.
  intros Hreach Hscan.
  pose proof (reachable_thread_event lib cap self Hreach scan Hscan) as Hev.
  unfold toggle_scan. now rewrite Hscan, Hev.
Qed.

Lemma toggle_scan_stops_the_running_scan_witness :
  let scan :=
    {| start_ip := chars "10.0.0.1"; end_ip := chars "10.0.0.9";
       start_port := 1; end_port := 1024; verbose := false; stop := 0%nat;
       t1 := 5000000 |} in
  let self :=
    {| entry_start_ip := chars "10.0.0.1"; entry_end_ip := chars "10.0.0.9";
       entry_start_port := chars "1"; entry_end_port := chars "1024";
       verbose_var := false; scan_thread := Some scan;
       stop_event := Some 0%nat;
       last_scan_results := []; events_created := 1 |} in
  toggle_scan Plain.library english_captions true 6000000 self =
  Returned self
    [StopEventSet (stop scan);
     ButtonConfigure (stopping_text english_captions) disabled].
Proof.
  intros scan self.
  apply (toggle_scan_stops_the_running_scan Plain.library english_captions
           self scan 6000000).
  - apply (after_toggle Plain.library english_captions
             {| entry_start_ip := chars "10.0.0.1";
                entry_end_ip := chars "10.0.0.9";
                entry_start_port := chars "1";
                entry_end_port := chars "1024";
                verbose_var := false; scan_thread := None;
                stop_event := None;
                last_scan_results := []; events_created := 0 |}
             false 5000000 self
             [LogAreaConfig normal; LogAreaDelete; LogAreaConfig disabled;
              LogMessage (starting english_captions); ThreadStart scan;
              ButtonConfigure (stop_text english_captions) normal]).
    + apply (after_typing Plain.library english_captions initial
               (chars "10.0.0.1") (chars "10.0.0.9") (chars "1")
               (chars "1024") false).
      apply at_start.
    + vm_compute. reflexivity.
  - reflexivity.
Defined.

(** ** Saving the results *)

(** What the engine hands over at the end of a scan that was completed
    or cancelled: the pairs found open. *)
Lemma thread_run_delivers net scan flag p tr :
  thread_run net scan flag = (Normal p, tr) ->
  (p = Completed \/ p = Cancelled -> dones tr = [opened tr]) /\
  (forall e, p = Faulted e -> dones tr = [[]]).
Proof.
  unfold thread_run. intros Hrun.
  pose proof (english_anatomy net (verbose scan) flag (Some accepting)
                (Some accepting) accepting_returns accepting_returns
                (utf8 (start_ip scan)) (utf8 (end_ip scan))
                (start_port scan) (end_port scan)) as H.
  rewrite Hrun in H. remember (Normal p) as c eqn:Hc.
  inversion H as [e _ Heq|a b _ _ _ Heq|a b steps en _ _ _ Hex Heq];
    subst; clear H;
    match goal with
    | Hx : Normal _ = Normal _ |- _ => inversion Hx; subst; clear Hx
    end.
  - split; [intros [Hp|Hp]; discriminate|]. intros e' _. reflexivity.
  - split; [intros [Hp|Hp]; discriminate|]. intros e' Hp. discriminate.
  - rewrite dones_app, opened_app, dones_render, opened_render.
    destruct en as [| |e calls]; cbn [exit_of epilogue farewell].
    + split; [|intros e' Hp; discriminate]. intros _. cbn.
      now rewrite app_nil_r.
    + split; [|intros e' Hp; discriminate]. intros _. cbn.
      now rewrite app_nil_r.
    + split; [intros [Hp|Hp]; discriminate|]. intros e' _.
      destruct (broke_quiet _ _ _ _ _ _ _ _ Hex) as (Hd & _).
      rewrite dones_app, Hd. reflexivity.
Qed.

(** X17: what is saved is what the scan found.  After a scan that was
    completed or cancelled and found at least one port open, once
    [on_scan_complete] has received the list the engine hands over,
    [save_results_to_csv] - given a file name and no failure of the file
    system - writes the header row and then one row for each pair whose
    connection returned 0, address and port, in the order of the
    connections, closes the file and logs where it saved. *)
Theorem saved_rows_are_the_open_pairs cap net scan flag p tr now self
    filepath :
  thread_run net scan flag = (Normal p, tr) ->
  p = Completed \/ p = Cancelled ->
  opened tr <> [] -> filepath <> EmptyString ->
  exists rs,
    dones tr = [rs] /\
    save_results_to_csv cap filepath None
      (fst (on_scan_complete cap (t1 scan) now rs self)) =
    AskSaveAsFilename :: OpenFile filepath :: WriteRow (csv_header cap)
    :: map (fun pair => WriteRow [fst pair; str_int (snd pair)]) (opened tr)
    ++ [CloseFile; LogMessage (saved_to cap filepath)].
Proof.
  intros Hrun Hp Hfound Hpath.
  destruct (thread_run_delivers net scan flag p tr Hrun) as [Hd _].
  exists (opened tr). split; [now apply Hd|].
  unfold save_results_to_csv, on_scan_complete. cbn [fst last_scan_results].
  destruct (opened tr) as [|pair rs]; [contradiction|].
  destruct filepath as [|c filepath]; [contradiction|].
  unfold with_block. cbn [map app].
  rewrite map_map, <- !app_assoc. reflexivity.
Qed.

Lemma saved_rows_are_the_open_pairs_witness :
  let scan :=
    {| start_ip := chars "10.0.0.1"; end_ip := chars "10.0.0.2";
       start_port := 80; end_port := 81; verbose := false; stop := 0%nat;
       t1 := 0 |} in
  let tr :=
    snd (thread_run (IPv4.network None IPv4.web_only) scan never_set) in
  exists rs,
    dones tr = [rs] /\
    save_results_to_csv english_captions "open.csv" None
      (fst (on_scan_complete english_captions (t1 scan) 2000000 rs initial))
    =
    AskSaveAsFilename :: OpenFile "open.csv"
    :: WriteRow (csv_header english_captions)
    :: map (fun pair => WriteRow [fst pair; str_int (snd pair)]) (opened tr)
    ++ [CloseFile; LogMessage (saved_to english_captions "open.csv")].
Proof.
  intros scan tr.
  apply (saved_rows_are_the_open_pairs english_captions
           (IPv4.network None IPv4.web_only) scan never_set Completed tr
           2000000 initial "open.csv").
  - vm_compute. reflexivity.
  - now left.
  - vm_compute. discriminate.
  - discriminate.
Defined.

(** X18: after a fault nothing can be saved.  When the scan ended on a
    fault - an address the engine's parser refused, a socket that could
    not be created, a connection attempt that raised - the engine hands
    [on_scan_complete] the empty list, whatever ports it had found open
    before, and [save_results_to_csv] then only logs that there is
    nothing to save: it asks for no file name and opens no file. *)
Theorem faulted_scan_leaves_nothing_to_save cap net scan flag e tr now self
    answer fails :
  thread_run net scan flag = (Normal (Faulted e), tr) ->
  dones tr = [[]] /\
  save_results_to_csv cap answer fails
    (fst (on_scan_complete cap (t1 scan) now [] self)) =
  [LogMessage (nothing_to_save cap)].
Proof.
  intros Hrun.
  destruct (thread_run_delivers net scan flag _ tr Hrun) as [_ Hd].
  split; [now apply (Hd e)|reflexivity].
Qed.

Lemma faulted_scan_leaves_nothing_to_save_witness :
  let scan :=
    {| start_ip := chars "10.0.0.1"; end_ip := chars "10.0.0.1";
       start_port := 80; end_port := 81; verbose := false; stop := 0%nat;
       t1 := 0 |} in
  let tr :=
    snd (thread_run (IPv4.network (Some 1%nat) IPv4.web_only) scan
           never_set) in
  dones tr = [[]] /\
  save_results_to_csv english_captions "open.csv" None
    (fst (on_scan_complete english_captions (t1 scan) 2000000 [] initial)) =
  [LogMessage (nothing_to_save english_captions)].
Proof.
  intros scan tr.
  apply (faulted_scan_leaves_nothing_to_save english_captions
           (IPv4.network (Some 1%nat) IPv4.web_only) scan never_set
           IPv4.too_many_files tr 2000000 initial "open.csv" None).
  vm_compute. reflexivity.
Defined.
